(** * GenAI chat front end: the incremental-parse layer

    A shallow embedding of the client-side code that rebuilds structured
    content from a streamed answer:

    - [CTable.isCompleteJSON], [CTable.parseTableOption],
      [CTable.parseTableData]   (components/Custom/CTable.vue)
    - [CChart.isCompleteJSON], [CChart.parseChartOption],
      [CChart.parseChartData]   (components/Custom/CChart.vue)
    - [Chatbot.callApiSSE]      (components/Chatbot.vue, the stream watcher)
    - [App.sendMessage]         (App.vue, the stream watcher)

    and of what surrounds it:

    - [Theme.darkenColor], [Theme.themeStyle] and [Request.headers]
                                (components/Chatbot.vue)
    - [ChatList.bubbleItems], [ChatList.hasFinalContent]
                                (components/ChatList.vue)
    - [ConversationArea.shouldShowSuggestions],
      [ConversationArea.suggestions], [ConversationArea.sendMessage]
                                (components/ConversationArea.vue)
    - [EChartsOption.convertToEChartsOption]
                                (components/Custom/CChart.vue)
    - [Conversations.createNewConversation],
      [Conversations.loadConversationMessages],
      [Conversations.selectConversation],
      [Conversations.deleteConversation], [Conversations.clearConversation],
      [Conversations.sendMessage]   (App.vue, the conversation list)

    JavaScript strings are sequences of UTF-16 code units; regular
    expressions are kept as syntax and run by a backtracking matcher, so
    every pattern below can be read against the pattern in the source. *)

From Stdlib Require Import Ascii String.
From Stdlib Require Import List NArith ZArith Bool Lia Arith.
From Stdlib Require DecimalString DecimalNat.
Import ListNotations.

(** ** JavaScript strings *)

Module JS.

Definition char := N.
Definition jsstr := list char.

(** An ASCII literal as a JavaScript string. *)
Definition lit (s : string) : jsstr := map N_of_ascii (list_ascii_of_string s).
Arguments lit s%_string.

Definition ch (a : ascii) : char := N_of_ascii a.

Definition dquote : char := 34%N.
Definition squote : char := 39%N.
Definition backslash : char := 92%N.
Definition lbrace : char := 123%N.
Definition rbrace : char := 125%N.
Definition newline : char := 10%N.

Fixpoint str_eqb (a b : jsstr) : bool :=
  match a, b with
  | [], [] => true
  | x :: a', y :: b' => N.eqb x y && str_eqb a' b'
  | _, _ => false
  end.

(** [WhiteSpace] and [LineTerminator] of ECMAScript: what [String.prototype.trim]
    strips and what [\s] matches. *)
Definition is_space (c : char) : bool :=
  (((9 <=? c) && (c <=? 13)) || (c =? 32) || (c =? 160) || (c =? 5760)
   || ((8192 <=? c) && (c <=? 8202)) || (c =? 8232) || (c =? 8233)
   || (c =? 8239) || (c =? 8287) || (c =? 12288) || (c =? 65279))%N.

Definition is_line_terminator (c : char) : bool :=
  ((c =? 10) || (c =? 13) || (c =? 8232) || (c =? 8233))%N.

(** [\w] *)
Definition is_word (c : char) : bool :=
  (((48 <=? c) && (c <=? 57)) || ((65 <=? c) && (c <=? 90))
   || ((97 <=? c) && (c <=? 122)) || (c =? 95))%N.

Fixpoint trimStart (s : jsstr) : jsstr :=
  match s with
  | c :: t => if is_space c then trimStart t else s
  | [] => []
  end.

Definition trimEnd (s : jsstr) : jsstr := rev (trimStart (rev s)).

Definition trim (s : jsstr) : jsstr := trimEnd (trimStart s).

(** [s.startsWith(p)] *)
Fixpoint startsWith (s p : jsstr) : bool :=
  match p, s with
  | [], _ => true
  | x :: p', y :: s' => N.eqb x y && startsWith s' p'
  | _ :: _, [] => false
  end.

(** [s.includes(c)] for a one-character needle. *)
Definition includes_char (s : jsstr) (c : char) : bool := existsb (N.eqb c) s.

(** [s.split(c)] for a one-character separator: always at least one piece. *)
Fixpoint split_on (c : char) (s : jsstr) : list jsstr :=
  match s with
  | [] => [[]]
  | x :: t =>
      if N.eqb x c then [] :: split_on c t
      else match split_on c t with
           | p :: ps => (x :: p) :: ps
           | [] => [[x]]
           end
  end.

End JS.

Import JS.

(** ** Regular expressions

    The subset of ECMAScript patterns the sources use, with the standard
    backtracking semantics: alternatives left to right, greedy quantifiers,
    an iteration of [*] that consumes nothing is rejected. *)

Module Regex.

Inductive re : Type :=
| Chr (p : char -> bool)       (* one code unit: a literal or a class *)
| Seq (a b : re)
| Alt (a b : re)
| Star (a : re)                (* a*  *)
| Opt (a : re)                 (* a?  *)
| Grp (i : nat) (a : re)       (* the i-th capturing group *)
| Bol                          (* ^   *)
| Eol                          (* $   *)
| WordB.                       (* b: backspace *)

(** A position in the subject: the text to the left (nearest first), the
    text to the right, and the captures made so far. *)
Record pos : Type := mkPos {
  before : jsstr;
  after : jsstr;
  caps : list (nat * jsstr)
}.

Definition cont := pos -> option pos.

Definition consumed (x y : pos) : jsstr :=
  firstn (length (after x) - length (after y)) (after x).

Definition set_cap (i : nat) (v : jsstr) (y : pos) : pos :=
  mkPos (before y) (after y) ((i, v) :: caps y).

Fixpoint get_cap (i : nat) (cs : list (nat * jsstr)) : jsstr :=
  match cs with
  | [] => []
  | (j, v) :: t => if Nat.eqb i j then v else get_cap i t
  end.

Definition at_bol (multiline : bool) (x : pos) : bool :=
  match before x with
  | [] => true
  | c :: _ => multiline && is_line_terminator c
  end.

Definition at_eol (multiline : bool) (x : pos) : bool :=
  match after x with
  | [] => true
  | c :: _ => multiline && is_line_terminator c
  end.

Definition at_wordb (x : pos) : bool :=
  let a := match before x with c :: _ => is_word c | [] => false end in
  let b := match after x with c :: _ => is_word c | [] => false end in
  xorb a b.

Fixpoint star_loop (body : cont -> cont) (k : cont) (fuel : nat) (x : pos)
  : option pos :=
  match fuel with
  | O => k x
  | S f =>
      match body (fun y =>
                    if length (after y) <? length (after x)
                    then star_loop body k f y else None) x with
      | Some r => Some r
      | None => k x
      end
  end.

Fixpoint m (multiline : bool) (r : re) (k : cont) (x : pos) : option pos :=
  match r with
  | Chr p =>
      match after x with
      | c :: t => if p c then k (mkPos (c :: before x) t (caps x)) else None
      | [] => None
      end
  | Seq a b => m multiline a (m multiline b k) x
  | Alt a b =>
      match m multiline a k x with
      | Some y => Some y
      | None => m multiline b k x
      end
  | Star a => star_loop (m multiline a) k (length (after x)) x
  | Opt a =>
      match m multiline a k x with
      | Some y => Some y
      | None => k x
      end
  | Grp i a => m multiline a (fun y => k (set_cap i (consumed x y) y)) x
  | Bol => if at_bol multiline x then k x else None
  | Eol => if at_eol multiline x then k x else None
  | WordB => if at_wordb x then k x else None
  end.

(** The match attempted at one position. *)
Definition match_here (multiline : bool) (r : re) (x : pos) : option pos :=
  m multiline r (fun y => Some y) (mkPos (before x) (after x) []).

(** [RegExp.prototype.exec]: the leftmost position, from [x] on, where the
    pattern matches; returns the start and the end of the match. *)
Fixpoint search (multiline : bool) (r : re) (bef aft : jsstr)
  : option (pos * pos) :=
  match match_here multiline r (mkPos bef aft []) with
  | Some y => Some (mkPos bef aft [], y)
  | None =>
      match aft with
      | [] => None
      | c :: t => search multiline r (c :: bef) t
      end
  end.

(** A replacement string: literal text and [$n] references. *)
Inductive titem : Type :=
| TLit (s : jsstr)
| TRef (i : nat).

Definition expand (tpl : list titem) (y : pos) : jsstr :=
  flat_map (fun t => match t with
                     | TLit s => s
                     | TRef i => get_cap i (caps y)
                     end) tpl.

(** [s.match(r)] without the [g] flag: element 0 of the result. *)
Definition match0 (multiline : bool) (r : re) (s : jsstr) : option jsstr :=
  match search multiline r [] s with
  | Some (x, y) => Some (consumed x y)
  | None => None
  end.

(** [s.replace(r, tpl)] without the [g] flag. *)
Definition replace_first (multiline : bool) (r : re) (tpl : list titem)
  (s : jsstr) : jsstr :=
  match search multiline r [] s with
  | Some (x, y) =>
      firstn (length s - length (after x)) s ++ expand tpl y ++ after y
  | None => s
  end.

(** [s.replace(r, tpl)] with the [g] flag; after an empty match the scan
    moves one code unit on. *)
Fixpoint replace_loop (fuel : nat) (multiline : bool) (r : re)
  (tpl : list titem) (bef aft : jsstr) : jsstr :=
  match fuel with
  | O => aft
  | S f =>
      match search multiline r bef aft with
      | None => aft
      | Some (x, y) =>
          let out := firstn (length aft - length (after x)) aft ++ expand tpl y in
          if length (after y) <? length (after x)
          then out ++ replace_loop f multiline r tpl (before y) (after y)
          else match after y with
               | [] => out
               | c :: t => out ++ c :: replace_loop f multiline r tpl (c :: before y) t
               end
      end
  end.

Definition replace_all (multiline : bool) (r : re) (tpl : list titem)
  (s : jsstr) : jsstr :=
  replace_loop (S (length s)) multiline r tpl [] s.

(** Pattern-building helpers. *)
Definition c1 (c : char) : re := Chr (N.eqb c).
Definition ws : re := Chr is_space.
Definition any : re := Chr (fun _ => true).

Fixpoint word (s : jsstr) (k : re) : re :=
  match s with
  | [] => k
  | c :: t => Seq (c1 c) (word t k)
  end.

End Regex.

Import Regex.

(** ** JSON values and [JSON.parse] *)

Module Json.

(** A parsed JSON value.  A number keeps its source token; reading it as a
    double is the platform's business (see [NumberOps]).  An object keeps its
    properties in creation order. *)
#[warnings="-register-all"]
Inductive json : Type :=
| JNull
| JBool (b : bool)
| JNum (token : jsstr)
| JStr (s : jsstr)
| JArr (items : list json)
| JObj (props : list (jsstr * json)).

(** A JavaScript value read out of a parsed payload: [None] is [undefined]. *)
Definition value := option json.

(** What the platform does with a number token: [ToBoolean] and [ToString]
    of the double it denotes. *)
Class NumberOps : Type := {
  num_truthy : jsstr -> bool;
  num_to_string : jsstr -> jsstr
}.

Fixpoint lookup (k : jsstr) (ps : list (jsstr * json)) : value :=
  match ps with
  | [] => None
  | (k', v) :: t => if str_eqb k k' then Some v else lookup k t
  end.

(** Defining a property that exists overwrites it where it stands. *)
Fixpoint obj_set (ps : list (jsstr * json)) (k : jsstr) (v : json)
  : list (jsstr * json) :=
  match ps with
  | [] => [(k, v)]
  | (k', v') :: t =>
      if str_eqb k k' then (k', v) :: t else (k', v') :: obj_set t k v
  end.

(** [v.name] for the property names the sources read ([type], [content],
    [status], [error], [suggestions], [choices], [delta], [text], [message],
    [reply], [columns], [data]): none of them lives on a prototype, so only
    an object can have one.  Reading a property of [null] throws: outer
    [None]. *)
Definition get_field (v : json) (name : jsstr) : option value :=
  match v with
  | JNull => None
  | JObj ps => Some (lookup name ps)
  | _ => Some None
  end.

(** [v[0]] *)
Definition get_index0 (v : json) : option value :=
  match v with
  | JNull => None
  | JArr l => Some (nth_error l 0)
  | JStr s => Some (match s with c :: _ => Some (JStr [c]) | [] => None end)
  | JObj ps => Some (lookup (lit "0") ps)
  | _ => Some None
  end.

(** [v?.name] on a value that may be [undefined] or [null]: never throws. *)
Definition opt_field (v : value) (name : jsstr) : value :=
  match v with
  | None | Some JNull => None
  | Some j => match get_field j name with Some r => r | None => None end
  end.

Section Coercions.
Context {ops : NumberOps}.

(** [ToBoolean] *)
Definition truthy (v : value) : bool :=
  match v with
  | None => false
  | Some JNull => false
  | Some (JBool b) => b
  | Some (JNum t) => num_truthy t
  | Some (JStr s) => match s with [] => false | _ => true end
  | Some (JArr _) | Some (JObj _) => true
  end.

Fixpoint join (sep : jsstr) (l : list jsstr) : jsstr :=
  match l with
  | [] => []
  | [x] => x
  | x :: t => x ++ sep ++ join sep t
  end.

(** [ToString], as string concatenation applies it; [None] when the
    conversion throws a [TypeError].  An object made by [JSON.parse]
    inherits [toString] from [Object.prototype] unless it has a property of
    that name, whose value is then no function: with it the conversion has
    nothing to call and throws.  An array is joined, its elements converted
    in turn. *)
Fixpoint to_string (j : json) : option jsstr :=
  match j with
  | JNull => Some (lit "null")
  | JBool true => Some (lit "true")
  | JBool false => Some (lit "false")
  | JNum t => Some (num_to_string t)
  | JStr s => Some s
  | JArr l =>
      option_map (join (lit ","))
        ((fix elements (l : list json) : option (list jsstr) :=
            match l with
            | [] => Some []
            | e :: t =>
                match (match e with JNull => Some [] | _ => to_string e end) with
                | Some s =>
                    match elements t with
                    | Some r => Some (s :: r)
                    | None => None
                    end
                | None => None
                end
            end) l)
  | JObj ps =>
      match lookup (lit "toString") ps with
      | Some _ => None
      | None => Some (lit "[object Object]")
      end
  end.

End Coercions.

(** *** The parser *)

Definition json_ws (c : char) : bool :=
  ((c =? 32) || (c =? 9) || (c =? 10) || (c =? 13))%N.

Fixpoint skip (s : jsstr) : jsstr :=
  match s with
  | c :: t => if json_ws c then skip t else s
  | [] => []
  end.

Definition is_digit (c : char) : bool := ((48 <=? c) && (c <=? 57))%N.

Definition hex_val (c : char) : option N :=
  if is_digit c then Some (c - 48)%N
  else if ((97 <=? c) && (c <=? 102))%N then Some (c - 87)%N
  else if ((65 <=? c) && (c <=? 70))%N then Some (c - 55)%N
  else None.

Definition hex4 (s : jsstr) : option (char * jsstr) :=
  match s with
  | a :: b :: c :: d :: t =>
      match hex_val a, hex_val b, hex_val c, hex_val d with
      | Some a, Some b, Some c, Some d =>
          Some ((a * 4096 + b * 256 + c * 16 + d)%N, t)
      | _, _, _, _ => None
      end
  | _ => None
  end.

Definition unescape (c : char) : option char :=
  if (c =? 34)%N then Some 34%N          (* quotation mark *)
  else if (c =? 92)%N then Some 92%N     (* reverse solidus *)
  else if (c =? 47)%N then Some 47%N     (* solidus *)
  else if (c =? 98)%N then Some 8%N      (* b: backspace *)
  else if (c =? 102)%N then Some 12%N    (* f: form feed *)
  else if (c =? 110)%N then Some 10%N    (* n: line feed *)
  else if (c =? 114)%N then Some 13%N    (* r: carriage return *)
  else if (c =? 116)%N then Some 9%N     (* t: tab *)
  else None.

(** The characters of a string literal after its opening quote. *)
Fixpoint parse_string (fuel : nat) (acc s : jsstr) : option (jsstr * jsstr) :=
  match fuel with
  | O => None
  | S f =>
      match s with
      | [] => None
      | c :: t =>
          if (c =? 34)%N then Some (rev acc, t)
          else if (c =? 92)%N then
            match t with
            | e :: t' =>
                if (e =? 117)%N then
                  match hex4 t' with
                  | Some (u, t'') => parse_string f (u :: acc) t''
                  | None => None
                  end
                else match unescape e with
                     | Some u => parse_string f (u :: acc) t'
                     | None => None
                     end
            | [] => None
            end
          else if (c <? 32)%N then None
          else parse_string f (c :: acc) t
      end
  end.

Fixpoint digits (s : jsstr) : jsstr * jsstr :=
  match s with
  | c :: t =>
      if is_digit c then let (d, r) := digits t in (c :: d, r) else ([], s)
  | [] => ([], [])
  end.

(** A number token: an optional minus sign; a zero, or a non-zero digit and
    more digits; an optional fraction (a dot and digits); an optional
    exponent (e or E, an optional sign, digits). *)
Definition parse_number (s : jsstr) : option (jsstr * jsstr) :=
  let (sign, s1) :=
    match s with
    | c :: t => if (c =? 45)%N then ([c], t) else ([], s)
    | [] => ([], s)
    end in
  let int :=
    match s1 with
    | c :: t =>
        if (c =? 48)%N then Some ([c], t)
        else if is_digit c then let (d, r) := digits t in Some (c :: d, r)
        else None
    | [] => None
    end in
  match int with
  | None => None
  | Some (ip, s2) =>
      let frac :=
        match s2 with
        | c :: t =>
            if (c =? 46)%N then
              match digits t with
              | ([], _) => None
              | (d, r) => Some (c :: d, r)
              end
            else Some ([], s2)
        | [] => Some ([], s2)
        end in
      match frac with
      | None => None
      | Some (fp, s3) =>
          let exp :=
            match s3 with
            | c :: t =>
                if ((c =? 101) || (c =? 69))%N then
                  let (sg, t') :=
                    match t with
                    | g :: u => if ((g =? 43) || (g =? 45))%N then ([g], u) else ([], t)
                    | [] => ([], t)
                    end in
                  match digits t' with
                  | ([], _) => None
                  | (d, r) => Some (c :: sg ++ d, r)
                  end
                else Some ([], s3)
            | [] => Some ([], s3)
            end in
          match exp with
          | None => None
          | Some (ep, s4) => Some (sign ++ ip ++ fp ++ ep, s4)
          end
      end
  end.

Definition keyword (w : string) (v : json) (s : jsstr) : option (json * jsstr) :=
  if startsWith s (lit w) then Some (v, skipn (length (lit w)) s) else None.

Fixpoint parse_value (fuel : nat) (s : jsstr) : option (json * jsstr) :=
  match fuel with
  | O => None
  | S f =>
      match skip s with
      | [] => None
      | c :: t =>
          if (c =? 123)%N then                              (* { *)
            match skip t with
            | d :: r => if (d =? 125)%N then Some (JObj [], r)
                        else parse_members f [] t
            | [] => None
            end
          else if (c =? 91)%N then                          (* [ *)
            match skip t with
            | d :: r => if (d =? 93)%N then Some (JArr [], r)
                        else parse_elements f [] t
            | [] => None
            end
          else if (c =? 34)%N then
            match parse_string (S (length t)) [] t with
            | Some (str, r) => Some (JStr str, r)
            | None => None
            end
          else if (c =? 116)%N then keyword "true" (JBool true) (c :: t)
          else if (c =? 102)%N then keyword "false" (JBool false) (c :: t)
          else if (c =? 110)%N then keyword "null" JNull (c :: t)
          else
            match parse_number (c :: t) with
            | Some (tok, r) => Some (JNum tok, r)
            | None => None
            end
      end
  end
with parse_elements (fuel : nat) (acc : list json) (s : jsstr)
  : option (json * jsstr) :=
  match fuel with
  | O => None
  | S f =>
      match parse_value f s with
      | Some (v, r) =>
          match skip r with
          | d :: r' =>
              if (d =? 44)%N then parse_elements f (acc ++ [v]) r'
              else if (d =? 93)%N then Some (JArr (acc ++ [v]), r')
              else None
          | [] => None
          end
      | None => None
      end
  end
with parse_members (fuel : nat) (acc : list (jsstr * json)) (s : jsstr)
  : option (json * jsstr) :=
  match fuel with
  | O => None
  | S f =>
      match skip s with
      | q :: t =>
          if (q =? 34)%N then
            match parse_string (S (length t)) [] t with
            | Some (k, r) =>
                match skip r with
                | d :: r' =>
                    if (d =? 58)%N then
                      match parse_value f r' with
                      | Some (v, r'') =>
                          match skip r'' with
                          | e :: r3 =>
                              if (e =? 44)%N then parse_members f (obj_set acc k v) r3
                              else if (e =? 125)%N then Some (JObj (obj_set acc k v), r3)
                              else None
                          | [] => None
                          end
                      | None => None
                      end
                    else None
                | [] => None
                end
            | None => None
            end
          else None
      | [] => None
      end
  end.

(** [JSON.parse(s)]; [None] is the [SyntaxError]. *)
Definition JSON_parse (s : jsstr) : option json :=
  match parse_value (2 * length s + 2) s with
  | Some (v, r) => match skip r with [] => Some v | _ :: _ => None end
  | None => None
  end.

End Json.

Import Json.

(** ** components/Custom/CTable.vue

    In the comments that quote a pattern, a space separates a star from a
    closing parenthesis that follows it in the source. *)

Module CTable.

(** The loop state of [isCompleteJSON]. *)
Record scan : Type := mkScan {
  braceCount : Z;
  inString : bool;
  stringChar : option char;
  escapeNext : bool
}.

Definition scan0 : scan := mkScan 0 false None false.

Definition semicolon : char := 59%N.

(** [/;?\s*$/] *)
Definition re_tail : re := Seq (Opt (c1 semicolon)) (Seq (Star ws) Eol).

Definition opt_char_eqb (a : option char) (c : char) : bool :=
  match a with
  | Some q => N.eqb q c
  | None => false
  end.

(** The [for] loop of [isCompleteJSON] over what is left of [trimmed]; the
    tail of the list is [trimmed.slice(i + 1)]. *)
Fixpoint scan_loop (st : scan) (s : jsstr) : bool :=
  match s with
  | [] => (braceCount st =? 0)%Z
  | c :: rest =>
      if escapeNext st then
        scan_loop (mkScan (braceCount st) (inString st) (stringChar st) false) rest
      else if N.eqb c backslash then
        scan_loop (mkScan (braceCount st) (inString st) (stringChar st) true) rest
      else if (N.eqb c dquote || N.eqb c squote) && negb (escapeNext st) then
        if negb (inString st) then
          scan_loop (mkScan (braceCount st) true (Some c) (escapeNext st)) rest
        else if opt_char_eqb (stringChar st) c then
          scan_loop (mkScan (braceCount st) false None (escapeNext st)) rest
        else scan_loop st rest
      else if negb (inString st) then
        if N.eqb c lbrace then
          scan_loop (mkScan (braceCount st + 1) (inString st) (stringChar st)
                            (escapeNext st)) rest
        else if N.eqb c rbrace then
          let st' := mkScan (braceCount st - 1) (inString st) (stringChar st)
                            (escapeNext st) in
          if (braceCount st' =? 0)%Z then
            let remaining := replace_first false re_tail [] (trim rest) in
            str_eqb remaining []
          else scan_loop st' rest
        else scan_loop st rest
      else scan_loop st rest
  end.

Definition isCompleteJSON (str : jsstr) : bool :=
  let trimmed := trim str in
  if negb (startsWith trimmed [lbrace]) then false
  else scan_loop scan0 trimmed.

(** [/^option\s*=\s*/] *)
Definition re_option_prefix : re :=
  Seq Bol (word (lit "option") (Seq (Star ws) (Seq (c1 61%N) (Star ws)))).

(** [/;\s*$/] *)
Definition re_semicolon_end : re := Seq (c1 semicolon) (Seq (Star ws) Eol).

(** [/\bNone\b/g], [/\bTrue\b/g], [/\bFalse\b/g] *)
Definition re_token (w : string) : re := Seq WordB (word (lit w) WordB).

(** [/,(\s*[}\]])/g] *)
Definition re_trailing_comma : re :=
  Seq (c1 44%N)
      (Grp 1 (Seq (Star ws) (Chr (fun c => N.eqb c rbrace || N.eqb c 93%N)))).

(** [/'/g] *)
Definition re_squote : re := c1 squote.

Definition id_start (c : char) : bool :=
  (((97 <=? c) && (c <=? 122)) || ((65 <=? c) && (c <=? 90))
   || (c =? 95) || (c =? 36))%N.

Definition id_part (c : char) : bool :=
  (((97 <=? c) && (c <=? 122)) || ((65 <=? c) && (c <=? 90))
   || ((48 <=? c) && (c <=? 57)) || (c =? 95) || (c =? 36))%N.

(** [/([{,]\s*|^\s* )([a-zA-Z_$][a-zA-Z0-9_$]* )\s*:/gm] *)
Definition re_bare_key : re :=
  Seq (Grp 1 (Alt (Seq (Chr (fun c => N.eqb c lbrace || N.eqb c 44%N)) (Star ws))
                  (Seq Bol (Star ws))))
      (Seq (Grp 2 (Seq (Chr id_start) (Star (Chr id_part))))
           (Seq (Star ws) (c1 58%N))).

(** The replacement: group 1, a double quote, group 2, a double quote and
    a colon. *)
Definition tpl_quoted_key : list titem :=
  [TRef 1; TLit [dquote]; TRef 2; TLit [dquote; 58%N]].

(** The rewriting steps between the completeness check and [JSON.parse]. *)
Definition normalize (cleanedStr : jsstr) : jsstr :=
  let s1 := replace_all false (re_token "None") [TLit (lit "null")] cleanedStr in
  let s2 := replace_all false (re_token "True") [TLit (lit "true")] s1 in
  let s3 := replace_all false (re_token "False") [TLit (lit "false")] s2 in
  let s4 := replace_all false re_trailing_comma [TRef 1] s3 in
  let s5 := replace_all false re_squote [TLit [dquote]] s4 in
  replace_all true re_bare_key tpl_quoted_key s5.

Definition strip_assignment (str : jsstr) : jsstr :=
  replace_first false re_semicolon_end []
    (replace_first false re_option_prefix [] str).

(** [parseTableOption]: the parsed object, or [JNull] for the [null] that
    both the incomplete case and the [catch] return. *)
Definition parseTableOption (str : jsstr) : json :=
  let cleanedStr := strip_assignment str in
  if negb (isCompleteJSON cleanedStr) then JNull
  else match JSON_parse (normalize cleanedStr) with
       | Some v => v
       | None => JNull
       end.

(** [/option\s*=\s*\{([\s\S]* )\}/] *)
Definition re_option_block : re :=
  word (lit "option")
       (Seq (Star ws) (Seq (c1 61%N) (Seq (Star ws)
            (Seq (c1 lbrace) (Seq (Grp 1 (Star any)) (c1 rbrace)))))).

(** [code.match(...)] with that pattern, element 0 of the result. *)
Definition configMatch (code : jsstr) : option jsstr :=
  match0 false re_option_block code.

Definition nonempty (s : jsstr) : bool :=
  match s with [] => false | _ :: _ => true end.

Definition pipe : char := 124%N.

(** [row[header] = v] on a plain object, [v] a string: the name [__proto__]
    reaches the prototype setter, which ignores a string and creates no
    property. *)
Definition row_set (row : list (jsstr * json)) (header v : jsstr)
  : list (jsstr * json) :=
  if str_eqb header (lit "__proto__") then row else obj_set row header (JStr v).

(** [headers.forEach((header, index) => row[header] = values[index] || '')] *)
Fixpoint fill_row (row : list (jsstr * json)) (headers : list jsstr)
  (index : nat) (values : list jsstr) : list (jsstr * json) :=
  match headers with
  | [] => row
  | header :: hs =>
      fill_row (row_set row header (nth index values [])) hs (S index) values
  end.

Definition cells (line : jsstr) : list jsstr :=
  filter nonempty (map trim (split_on pipe line)).

Section WithNumbers.
Context {ops : NumberOps}.

(** The option-assignment branch of [parseTableData]: [Some config] when it
    returns. *)
Definition parseTableConfig (code : jsstr) : option json :=
  match configMatch code with
  | Some fullOptionStr =>
      let config := parseTableOption fullOptionStr in
      if truthy (Some config)
         && truthy (opt_field (Some config) (lit "columns"))
         && truthy (opt_field (Some config) (lit "data"))
      then Some config else None
  | None => None
  end.

(** The Markdown pipe-table branch of [parseTableData]. *)
Definition parseMarkdownTable (code : jsstr) : json :=
  let lines := filter (fun line => nonempty (trim line))
                      (split_on newline (trim code)) in
  if length lines <? 2 then JNull
  else
    let line0 := nth 0 lines [] in
    if includes_char line0 pipe then
      let headers := cells line0 in
      let dataLines := skipn 2 lines in
      let data := map (fun line => JObj (fill_row [] headers 0 (cells line)))
                      dataLines in
      if 0 <? length data then JArr data else JNull
    else JNull.

Definition parseTableData (code : jsstr) : json :=
  match parseTableConfig code with
  | Some config => config
  | None => parseMarkdownTable code
  end.

(** What the template shows for [tableConfig]: nothing, the table of a
    configuration object, the table of a plain array of rows, or the bare
    wrapper. *)
Inductive view : Type := NoWrapper | ConfigTable | LegacyTable | EmptyWrapper.

Definition template (tableConfig : json) : view :=
  if truthy (Some tableConfig) then
    if truthy (opt_field (Some tableConfig) (lit "columns"))
       && truthy (opt_field (Some tableConfig) (lit "data"))
    then ConfigTable
    else match tableConfig with
         | JArr (_ :: _) => LegacyTable
         | _ => EmptyWrapper
         end
  else NoWrapper.

End WithNumbers.

End CTable.

(** ** components/Custom/CChart.vue *)

Module CChart.

(** [isCompleteJSON] and [parseChartOption] repeat, statement for statement
    and pattern for pattern, [isCompleteJSON] and [parseTableOption] of
    CTable.vue; [parseChartData] matches the same option-block pattern. *)
Definition isCompleteJSON (str : jsstr) : bool := CTable.isCompleteJSON str.

Definition parseChartOption (str : jsstr) : json :=
  let cleanedStr := CTable.strip_assignment str in
  if negb (isCompleteJSON cleanedStr) then JNull
  else match JSON_parse (CTable.normalize cleanedStr) with
       | Some v => v
       | None => JNull
       end.

Section WithNumbers.
Context {ops : NumberOps}.

Definition parseChartData (code : jsstr) : json :=
  match CTable.configMatch code with
  | Some fullOptionStr =>
      let config := parseChartOption fullOptionStr in
      if truthy (Some config) && truthy (opt_field (Some config) (lit "type"))
      then config else JNull
  | None => JNull
  end.

End WithNumbers.

End CChart.

(** ** The streamed answer: messages and events *)

Module Stream.

Inductive ThinkingStatus : Type := TStart | TThinking | TEnd | TError.

Inductive Role : Type := User | Assistant.

(** [Message] (App.vue) and [IMessage] (types/type.ts); the time stamp is
    left out.  [content] holds whatever the payload carried, so it is a
    value, not only a string. *)
Record Message : Type := mkMessage {
  role : Role;
  content : json;
  thinkingStatus : option ThinkingStatus;
  isStreaming : option bool;
  statusContent : option json;
  suggestions : option json
}.

Definition set_content (v : json) (m : Message) : Message :=
  mkMessage (role m) v (thinkingStatus m) (isStreaming m) (statusContent m)
            (suggestions m).

Definition set_thinkingStatus (s : ThinkingStatus) (m : Message) : Message :=
  mkMessage (role m) (content m) (Some s) (isStreaming m) (statusContent m)
            (suggestions m).

Definition set_isStreaming (b : bool) (m : Message) : Message :=
  mkMessage (role m) (content m) (thinkingStatus m) (Some b) (statusContent m)
            (suggestions m).

Definition set_statusContent (v : json) (m : Message) : Message :=
  mkMessage (role m) (content m) (thinkingStatus m) (isStreaming m) (Some v)
            (suggestions m).

Definition set_suggestions (v : json) (m : Message) : Message :=
  mkMessage (role m) (content m) (thinkingStatus m) (isStreaming m)
            (statusContent m) (Some v).

(** The placeholder pushed when a send begins. *)
Definition placeholder : Message :=
  mkMessage Assistant (JStr []) (Some TStart) (Some true) None None.

(** The branch a chunk takes in the watcher, with the data the branch uses. *)
Inductive event : Type :=
| StreamEnd                                         (* the [DONE] marker *)
| ContentDelta (text : jsstr)                       (* the text, as a string *)
| StatusUpdate (displayState : ThinkingStatus) (text : json)
| ErrorUpdate (text : json)
| SuggestionsUpdate (items : json)
| DoneMark                                          (* type done *)
| RawTextDelta (text : jsstr)
| NoEvent.

(** The literal texts of the sources. *)
Definition text_query_done : jsstr := [26597; 35426; 23436; 25104]%N.
Definition text_processing : jsstr :=
  [27491; 22312; 34389; 29702; 20013; 46; 46; 46]%N.
Definition text_error : jsstr := [30332; 29983; 37679; 35492]%N.

(** [v === 'w'] *)
Definition is_str (v : value) (w : string) : bool :=
  match v with
  | Some (JStr s) => str_eqb s (lit w)
  | _ => false
  end.

Section WithNumbers.
Context {ops : NumberOps}.

(** [a || b] *)
Definition or_else (a b : value) : value := if truthy a then a else b.

(** [a || 'text'] *)
Definition or_text (a : value) (t : jsstr) : json :=
  match a with
  | Some v => if truthy a then v else JStr t
  | None => JStr t
  end.

(** The status branch: [statusType], [statusContent] and the mapping to a
    thinking status. *)
Definition status_event (json : json) : event :=
  let status := match get_field json (lit "status") with
                | Some v => v | None => None end in
  let statusType := or_text (opt_field status (lit "type")) (lit "working") in
  let statusContent :=
    or_text (or_else (opt_field status (lit "content"))
                     (opt_field (Some json) (lit "content")))
            text_processing in
  let thinkingStatus :=
    if is_str (Some statusType) "idle" then TStart
    else if is_str (Some statusType) "working" then TThinking
    else if is_str (Some statusType) "error" then TError
    else if is_str (Some statusType) "success" then TEnd
    else TThinking in
  StatusUpdate thinkingStatus statusContent.

(** The branch of [contentBuffer += v] when the conversion of [v] returns;
    when it throws, the statement is left for the [catch], whose branch is
    [caught]. *)
Definition content_delta (v : json) (caught : event) : event :=
  match to_string v with
  | Some text => ContentDelta text
  | None => caught
  end.

(** [contentBuffer || 'text'] *)
Definition buffer_or (contentBuffer t : jsstr) : jsstr :=
  match contentBuffer with
  | [] => t
  | _ :: _ => contentBuffer
  end.

Definition advance (m : Message) : Message :=
  match thinkingStatus m with
  | Some TStart => set_thinkingStatus TThinking m
  | _ => m
  end.

End WithNumbers.

End Stream.

Import Stream.

(** ** components/Chatbot.vue: the watcher of [callApiSSE] *)

Module Chatbot.

Record state : Type := mkState {
  message : Message;          (* messages.value[assistantMessageIndex] *)
  contentBuffer : jsstr
}.

Definition init : state := mkState placeholder [].

Section WithNumbers.
Context {ops : NumberOps}.

(** The legacy fall-back chain of the last [else]. *)
Definition legacy_content (json : json) : value :=
  let f := opt_field (Some json) in
  let choices := f (lit "choices") in
  let openai :=
    if truthy choices then
      match choices with
      | Some c =>
          match get_index0 c with
          | Some c0 => opt_field (opt_field c0 (lit "delta")) (lit "content")
          | None => None
          end
      | None => None
      end
    else None in
  if truthy choices && truthy openai then openai
  else if truthy (f (lit "content")) && negb (truthy (f (lit "type")))
  then f (lit "content")
  else if truthy (opt_field (f (lit "delta")) (lit "content"))
  then opt_field (f (lit "delta")) (lit "content")
  else if truthy (f (lit "text")) then f (lit "text")
  else if truthy (f (lit "message")) then f (lit "message")
  else if truthy (f (lit "reply")) then f (lit "reply")
  else None.

(** Which branch of the loop body a chunk takes. *)
Definition classify (chunk : jsstr) : event :=
  if str_eqb (trim chunk) (lit "[DONE]") then StreamEnd
  else
    let caught := if CTable.nonempty chunk then RawTextDelta chunk else NoEvent in
    match JSON_parse chunk with
    | None => caught
    | Some json =>
        match get_field json (lit "type") with
        | None => caught
        | Some type =>
            let content := opt_field (Some json) (lit "content") in
            if is_str type "explanation" && truthy content then
              match content with
              | Some v => content_delta v caught
              | None => NoEvent
              end
            else if is_str type "status" then status_event json
            else if is_str type "error" then
              ErrorUpdate (or_text (opt_field (Some json) (lit "error")) text_error)
            else if is_str type "done" then DoneMark
            else
              match legacy_content json with
              | Some v =>
                  if truthy (Some v) then content_delta v caught else NoEvent
              | None => NoEvent
              end
        end
    end.

(** What the branch does to the message and the buffer. *)
Definition apply (st : state) (e : event) : state :=
  match e with
  | StreamEnd =>
      mkState (set_isStreaming false
                 (set_thinkingStatus TEnd
                    (set_content (JStr (buffer_or (contentBuffer st) text_query_done))
                                 (message st))))
              (contentBuffer st)
  | ContentDelta text =>
      let buf := contentBuffer st ++ text in
      mkState (advance (set_content (JStr buf) (message st))) buf
  | StatusUpdate s text =>
      mkState (set_thinkingStatus s (set_content text (message st)))
              (contentBuffer st)
  | ErrorUpdate text =>
      mkState (set_thinkingStatus TError (set_content text (message st)))
              (contentBuffer st)
  | DoneMark =>
      mkState (set_isStreaming false (set_thinkingStatus TEnd (message st)))
              (contentBuffer st)
  | RawTextDelta chunk =>
      let buf := contentBuffer st ++ chunk in
      mkState (set_content (JStr buf) (message st)) buf
  | SuggestionsUpdate _ | NoEvent => st
  end.

(** One iteration of the loop. *)
Definition step (st : state) (chunk : jsstr) : state := apply st (classify chunk).

(** The watcher callback: the chunks from [processedCount] on, in order. *)
Definition callApiSSE (w : state * nat) (newData : list jsstr) : state * nat :=
  match newData with
  | [] => w
  | _ :: _ => (fold_left step (skipn (snd w) newData) (fst w), length newData)
  end.

End WithNumbers.

End Chatbot.

(** ** App.vue: the watcher of [sendMessage] *)

Module App.

Record state : Type := mkState {
  messages : list Message;    (* conversation.messages *)
  contentBuffer : jsstr
}.

(** [conversation.messages[conversation.messages.length - 1]], when there is
    one, updated in place. *)
Definition update_last (f : Message -> Message) (l : list Message)
  : list Message :=
  match rev l with
  | [] => l
  | x :: r => rev (f x :: r)
  end.

Section WithNumbers.
Context {ops : NumberOps}.

Definition classify (chunk : jsstr) : event :=
  if str_eqb (trim chunk) (lit "[DONE]") then StreamEnd
  else
    match JSON_parse chunk with
    | None => RawTextDelta chunk
    | Some json =>
        match get_field json (lit "type") with
        | None => RawTextDelta chunk
        | Some type =>
            let content := opt_field (Some json) (lit "content") in
            if is_str type "explanation" && truthy content then
              match content with
              | Some v => content_delta v (RawTextDelta chunk)
              | None => NoEvent
              end
            else if is_str type "status" then status_event json
            else if is_str type "error" then
              ErrorUpdate (or_text (opt_field (Some json) (lit "error")) text_error)
            else if is_str type "suggestions" then
              match opt_field (Some json) (lit "suggestions") with
              | Some v => if truthy (Some v) then SuggestionsUpdate v else NoEvent
              | None => NoEvent
              end
            else if is_str type "done" then DoneMark
            else NoEvent
        end
    end.

Definition apply (st : state) (e : event) : state :=
  match e with
  | StreamEnd =>
      mkState (update_last
                 (fun m => set_isStreaming false
                     (set_thinkingStatus TEnd
                        (set_content
                           (JStr (buffer_or (contentBuffer st) text_query_done)) m)))
                 (messages st))
              (contentBuffer st)
  | ContentDelta text =>
      let buf := contentBuffer st ++ text in
      mkState (update_last (fun m => advance (set_content (JStr buf) m))
                           (messages st)) buf
  | StatusUpdate s text =>
      mkState (update_last
                 (fun m => set_thinkingStatus s
                     (set_statusContent text (set_content text m)))
                 (messages st))
              (contentBuffer st)
  | ErrorUpdate text =>
      mkState (update_last
                 (fun m => set_thinkingStatus TError
                     (set_statusContent text (set_content text m)))
                 (messages st))
              (contentBuffer st)
  | SuggestionsUpdate items =>
      mkState (update_last (set_suggestions items) (messages st))
              (contentBuffer st)
  | DoneMark =>
      mkState (update_last
                 (fun m => set_isStreaming false (set_thinkingStatus TEnd m))
                 (messages st))
              (contentBuffer st)
  | RawTextDelta chunk =>
      let buf := contentBuffer st ++ chunk in
      mkState (update_last (fun m => advance (set_content (JStr buf) m))
                           (messages st)) buf
  | NoEvent => st
  end.

(** One iteration of the loop on the [data] of a stream record.  With an
    empty [data], [item?.data || item] is the record itself, which has no
    [trim]: the call throws out of the callback ([None]). *)
Definition step (st : state) (data : jsstr) : option state :=
  match data with
  | [] => None
  | _ :: _ => Some (apply st (classify data))
  end.

(** The loop from [processedCount] on; [false] when an iteration threw. *)
Fixpoint loop (st : state) (chunks : list jsstr) : state * bool :=
  match chunks with
  | [] => (st, true)
  | c :: t =>
      match step st c with
      | Some st' => loop st' t
      | None => (st, false)
      end
  end.

(** The watcher callback; [processedCount] moves only when the loop ends. *)
Definition sendMessage (w : state * nat) (newData : list jsstr) : state * nat :=
  match newData with
  | [] => w
  | _ :: _ =>
      let (st', finished) := loop (fst w) (skipn (snd w) newData) in
      (st', if finished then length newData else snd w)
  end.

End WithNumbers.

End App.


(** ** components/Chatbot.vue: the theme colour *)

Module Theme.

(** A Number: a finite double [m * 2^e], an infinity or [NaN].  Every
    finite double has this form with [|m| < 2^53] and [-1074 <= e <= 971];
    the operations below give the double nearest to their exact result,
    ties to even, as the platform does. *)
Inductive number : Type := NaN | Fin (m e : Z) | Infinite (negative : bool).

(** An integer as a Number. *)
Definition int (z : Z) : number := Fin z 0.

(** The value of the longest run of hexadecimal digits in front of [s]. *)
Fixpoint hex_value (s : jsstr) (acc : N) : N :=
  match s with
  | c :: t =>
      match hex_val c with
      | Some d => hex_value t (acc * 16 + d)
      | None => acc
      end
  | [] => acc
  end.

(** The double nearest to [m * 2^e], an infinity past the largest one. *)
Definition nearest (m e : Z) : number :=
  let a := Z.abs_N m in
  let bits := N.size a in
  if (bits <=? 53)%N then Fin m e
  else
    let k := (bits - 53)%N in
    let q := N.shiftr a k in
    let rest := N.land a (N.ones k) in
    let half := N.shiftl 1 (k - 1) in
    let q' := if (half <? rest)%N || ((rest =? half)%N && N.odd q)
              then (q + 1)%N else q in
    let e' := (e + Z.of_N k)%Z in
    if (1025 <=? Z.of_N (N.size q') + e')%Z then Infinite (m <? 0)%Z
    else Fin (if (m <? 0)%Z then - Z.of_N q' else Z.of_N q') e'.

(** [parseInt(s, 16)]: leading white space, a sign, a [0x] prefix, then
    the digits as far as they go. *)
Definition parseInt16 (s : jsstr) : number :=
  let s1 := trimStart s in
  let (neg, s2) :=
    match s1 with
    | c :: t =>
        if (c =? 45)%N then (true, t)
        else if (c =? 43)%N then (false, t)
        else (false, s1)
    | [] => (false, s1)
    end in
  let s3 :=
    match s2 with
    | a :: b :: t =>
        if (a =? 48)%N && ((b =? 120)%N || (b =? 88)%N) then t else s2
    | _ => s2
    end in
  match s3 with
  | c :: _ =>
      match hex_val c with
      | Some _ =>
          let v := Z.of_N (hex_value s3 0) in
          nearest (if neg then - v else v) 0
      | None => NaN
      end
  | [] => NaN
  end.

(** [c - p] for an integer [c] that is a double. *)
Definition sub_int (c : Z) (p : number) : number :=
  match p with
  | NaN => NaN
  | Infinite negative => Infinite (negb negative)
  | Fin m e =>
      if (0 <=? e)%Z then nearest (c - m * 2 ^ e) 0
      else nearest (c * 2 ^ (- e) - m) e
  end.

(** [Math.max(0, x)] *)
Definition max0 (x : number) : number :=
  match x with
  | NaN => NaN
  | Infinite true => int 0
  | Infinite false => x
  | Fin m e => if (m <? 0)%Z then int 0 else x
  end.

(** [ToInt32]: the integer part, modulo [2^32], read as a signed number. *)
Definition to_int32 (x : number) : Z :=
  match x with
  | Fin m e =>
      let t := if (0 <=? e)%Z then (m * 2 ^ e)%Z else Z.quot m (2 ^ (- e)) in
      ((t + 2147483648) mod 4294967296 - 2147483648)%Z
  | NaN | Infinite _ => 0%Z
  end.

(** [a >> n], [a & b], [a << n] and [a | b] on operands that are already
    32-bit integers; only the left shift can leave the range. *)
Definition sar (a : Z) (n : Z) : Z := Z.shiftr a n.
Definition band (a b : Z) : Z := Z.land a b.
Definition shl (a : Z) (n : Z) : Z := to_int32 (int (Z.shiftl a n)).
Definition bor (a b : Z) : Z := Z.lor a b.

Definition hex_char (d : N) : char :=
  if (d <? 10)%N then (48 + d)%N else (87 + d)%N.

Fixpoint hex_digits (fuel : nat) (n : N) (acc : jsstr) : jsstr :=
  match fuel with
  | O => acc
  | S f =>
      let acc' := hex_char (n mod 16) :: acc in
      if (n / 16 =? 0)%N then acc' else hex_digits f (n / 16) acc'
  end.

(** [n.toString(16)] for an integer. *)
Definition toString16 (z : Z) : jsstr :=
  if (z <? 0)%Z
  then 45%N :: hex_digits (S (N.size_nat (Z.to_N (- z)))) (Z.to_N (- z)) []
  else hex_digits (S (N.size_nat (Z.to_N z))) (Z.to_N z) [].

(** [s.padStart(n, c)] *)
Definition padStart (s : jsstr) (n : nat) (c : char) : jsstr :=
  repeat c (n - length s) ++ s.

(** [s.replace(c, '')] for a one-character pattern string. *)
Fixpoint remove_first (c : char) (s : jsstr) : jsstr :=
  match s with
  | [] => []
  | x :: t => if N.eqb x c then t else x :: remove_first c t
  end.

Definition hash : char := 35%N.

(** [darkenColor(color, percent)]: the channels are lowered as Numbers
    and made integers again by the shifts and the bitwise or. *)
Definition darkenColor (color : jsstr) (percent : number) : jsstr :=
  if startsWith color [hash] then
    let num := to_int32 (parseInt16 (remove_first hash color)) in
    let r := max0 (sub_int (band (sar num 16) 255) percent) in
    let g := max0 (sub_int (band (sar num 8) 255) percent) in
    let b := max0 (sub_int (band num 255) percent) in
    hash :: padStart
              (toString16
                 (bor (bor (shl (to_int32 r) 16) (shl (to_int32 g) 8))
                      (to_int32 b)))
              6 48%N
  else color.

(** The four custom properties of [themeStyle]. *)
Record theme : Type := mkTheme {
  primary : jsstr;          (* --chatbot-primary *)
  primary_from : jsstr;     (* --chatbot-primary-from *)
  primary_to : jsstr;       (* --chatbot-primary-to *)
  primary_gradient : jsstr  (* --chatbot-primary-gradient *)
}.

Definition gradient (from to : jsstr) : jsstr :=
  lit "linear-gradient(135deg, " ++ from ++ lit " 0%, " ++ to ++ lit " 100%)".

(** [themeStyle], [primaryColor] being one colour or a [from]/[to] pair. *)
Definition themeStyle (primaryColor : jsstr + jsstr * jsstr) : theme :=
  match primaryColor with
  | inl p =>
      let toColor := darkenColor p (int 15) in
      mkTheme p p toColor (gradient p toColor)
  | inr (from, to) => mkTheme from from to (gradient from to)
  end.

End Theme.

(** ** Indices and lengths of parsed values *)

Module Indexed.

(** [String(n)] for an array index. *)
Definition decimal (n : nat) : jsstr :=
  lit (DecimalString.NilEmpty.string_of_uint (Nat.to_uint n)).

(** [v > 0] for a value read out of a payload that converts to a
    primitive: the relational comparison of the platform, which reads
    strings and number tokens as doubles. *)
Class RelationalOps : Type := { gt_zero : value -> bool }.

(** [v.length > 0], for a [v] that is not [null]; [None] when the
    comparison throws.  An array and a string have a number for length; an
    object has what its [length] property holds, if any, and the comparison
    converts that to a primitive first, which throws where [ToString]
    does. *)
Definition has_length {ops : NumberOps} {rel : RelationalOps} (v : json)
  : option bool :=
  match v with
  | JArr l => Some (0 <? length l)
  | JStr s => Some (0 <? length s)
  | JObj ps =>
      match lookup (lit "length") ps with
      | Some len =>
          match to_string len with
          | Some _ => Some (gt_zero (Some len))
          | None => None
          end
      | None => Some false
      end
  | _ => Some false
  end.

(** [v[index]], for a [v] that is not [null]. *)
Definition at_index (v : json) (index : nat) : value :=
  match v with
  | JArr l => nth_error l index
  | JStr s => match nth_error s index with
              | Some c => Some (JStr [c])
              | None => None
              end
  | JObj ps => lookup (decimal index) ps
  | _ => None
  end.

(** [l.map((x, index) => f x index)] *)
Fixpoint map_indexed {A B : Type} (f : A -> nat -> B) (index : nat) (l : list A)
  : list B :=
  match l with
  | [] => []
  | x :: t => f x index :: map_indexed f (S index) t
  end.

End Indexed.

Import Indexed.

(** ** components/ChatList.vue *)

Module ChatList.

Inductive Placement : Type := AtStart | AtEnd.
Inductive Variant : Type := Outlined | Filled.

(** A [BubbleItem]; the fields that are the same constant in every item
    ([shape], [isMarkdown], [typing]) and the time stamp are left out. *)
Record BubbleItem : Type := mkItem {
  key : nat;
  item_role : Role;
  placement : Placement;
  item_content : json;
  loading : bool;
  variant : Variant;
  avatar : option jsstr;
  avatarSize : jsstr;
  avatarGap : jsstr;
  item_thinkingStatus : option ThinkingStatus;
  thinkingContent : option json;
  item_statusContent : option json;
  item_isStreaming : option bool
}.

Definition text_thinking : jsstr :=
  [27491; 22312; 24605; 32771; 20013; 46; 46; 46]%N.

(** The callback of [props.messages.map]. *)
Definition item_of (avatarUrl : jsstr) (msg : Message) (index : nat) : BubbleItem :=
  let user := match role msg with User => true | Assistant => false end in
  mkItem index (role msg)
         (if user then AtEnd else AtStart)
         (content msg) false
         (if user then Outlined else Filled)
         (if user then None else Some avatarUrl)
         (if user then lit "0" else lit "32px")
         (if user then lit "0" else lit "12px")
         (thinkingStatus msg)
         (match thinkingStatus msg with Some _ => Some (content msg) | None => None end)
         (statusContent msg)
         (isStreaming msg).

Definition loading_item (avatarUrl : jsstr) (index : nat) : BubbleItem :=
  mkItem index Assistant AtStart (JStr text_thinking) true Filled
         (Some avatarUrl) (lit "32px") (lit "12px") None None None None.

Definition bubbleItems (messages : list Message) (isLoading : bool)
  (avatarUrl : jsstr) : list BubbleItem :=
  let items := map_indexed (item_of avatarUrl) 0 messages in
  if isLoading then items ++ [loading_item avatarUrl (length messages)]
  else items.

(** The [v-if] of the header slot: the Thinking component is shown. *)
Definition thinking_header (item : BubbleItem) : bool :=
  match item_thinkingStatus item, item_role item, item_isStreaming item with
  | Some _, Assistant, Some true => true
  | _, _, _ => false
  end.

Definition simpleStatusMessages : list jsstr :=
  [[24605; 32771; 23436; 25104]%N;
   [26597; 35426; 23436; 25104]%N;
   [27491; 22312; 34389; 29702; 24744; 30340; 21839; 38988; 46; 46; 46]%N].

Section WithNumbers.
Context {ops : NumberOps}.

(** [hasFinalContent]; [None] when [item.content.trim] is not a function. *)
Definition hasFinalContent (item : BubbleItem) : option bool :=
  match item_thinkingStatus item with
  | Some TEnd =>
      if truthy (Some (item_content item)) then
        match item_content item with
        | JStr s => Some (negb (existsb (str_eqb (trim s)) simpleStatusMessages))
        | _ => None
        end
      else Some false
  | _ => Some false
  end.

End WithNumbers.

End ChatList.

(** ** components/ConversationArea.vue *)

Module ConversationArea.

Record PromptsItem : Type := mkPrompt {
  prompt_key : jsstr;
  label : json
}.

Section WithNumbers.
Context {ops : NumberOps} {rel : RelationalOps}.

(** [shouldShowSuggestions], as the [v-if] reads it; [None] when
    [content.trim] is not a function. *)
Definition shouldShowSuggestions (isLoading : bool) (messages : list Message)
  : option bool :=
  if isLoading || (length messages =? 0) then Some false
  else
    match nth_error messages (length messages - 1) with
    | None => None
    | Some lastMessage =>
        match role lastMessage with
        | User => Some false
        | Assistant =>
            match isStreaming lastMessage with
            | Some true => Some false
            | _ =>
                if truthy (Some (content lastMessage)) then
                  match content lastMessage with
                  | JStr s => Some (0 <? length (trim s))
                  | _ => None
                  end
                else Some false
            end
        end
    end.

(** [suggestions]; [None] when it throws: the comparison of the length
    does, or [lastMessage.suggestions.map] is not a function. *)
Definition suggestions (messages : list Message) : option (list PromptsItem) :=
  if length messages =? 0 then Some []
  else
    match nth_error messages (length messages - 1) with
    | None => None
    | Some lastMessage =>
        match role lastMessage, suggestions lastMessage with
        | Assistant, Some v =>
            if truthy (Some v) then
              match has_length v with
              | Some true =>
                  match v with
                  | JArr l =>
                      Some (map_indexed
                              (fun suggestion index =>
                                 mkPrompt (lit "suggestion-" ++ decimal index)
                                          suggestion)
                              0 l)
                  | _ => None
                  end
              | Some false => Some []
              | None => None
              end
            else Some []
        | _, _ => Some []
        end
    end.

End WithNumbers.

(** [sendMessage]: the message emitted, if any. *)
Definition sendMessage (inputMessage : jsstr) (isLoading : bool) : option jsstr :=
  let message := trim inputMessage in
  match message with
  | [] => None
  | _ :: _ => if isLoading then None else Some message
  end.

Section Click.
Context {ops : NumberOps}.

(** [handleSuggestionClick]; [None] in the second place when [label.trim]
    is not a function. *)
Definition handleSuggestionClick (item : PromptsItem) (isLoading : bool)
  : option (option jsstr) :=
  if truthy (Some (label item)) then
    match label item with
    | JStr s => Some (sendMessage s isLoading)
    | _ => None
    end
  else Some None.

End Click.

End ConversationArea.

(** ** components/Chatbot.vue: the request headers of [callApiSSE] *)

Module Request.

(** [headers[name] = v] on a plain object, [v] a string. *)
Fixpoint set_header (headers : list (jsstr * jsstr)) (name v : jsstr)
  : list (jsstr * jsstr) :=
  match headers with
  | [] => [(name, v)]
  | (n, v') :: t =>
      if str_eqb name n then (n, v) :: t else (n, v') :: set_header t name v
  end.

Definition assign (headers : list (jsstr * jsstr)) (name v : jsstr)
  : list (jsstr * jsstr) :=
  if str_eqb name (lit "__proto__") then headers else set_header headers name v.

(** [headers[name]]: the property of the object spelled exactly so.  (What
    a request carries under a header name is another matter: header names
    do not tell upper from lower case.) *)
Fixpoint header (name : jsstr) (headers : list (jsstr * jsstr)) : option jsstr :=
  match headers with
  | [] => None
  | (n, v) :: t => if str_eqb name n then Some v else header name t
  end.

Definition or_string (a b : option jsstr) : option jsstr :=
  match a with
  | Some (_ :: _) => a
  | _ => b
  end.

Definition bearer (t : jsstr) : jsstr := lit "Bearer " ++ t.

(** The [headers] object [callApiSSE] hands to [fetch], from
    [currentToken], [props.token], [props.tokenHeaderName] and
    [props.apiKey]. *)
Definition headers (currentToken token : option jsstr) (tokenHeaderName : jsstr)
  (apiKey : option jsstr) : list (jsstr * jsstr) :=
  let h0 := [(lit "Content-Type", lit "application/json");
             (lit "Accept", lit "text/event-stream")] in
  let h1 :=
    match or_string currentToken token with
    | Some (c :: t) =>
        if str_eqb tokenHeaderName (lit "Authorization")
           && negb (startsWith (c :: t) (lit "Bearer "))
        then assign h0 tokenHeaderName (bearer (c :: t))
        else assign h0 tokenHeaderName (c :: t)
    | _ => h0
    end in
  match apiKey with
  | Some (c :: k) => assign h1 (lit "Authorization") (bearer (c :: k))
  | _ => h1
  end.

End Request.

(** ** components/Custom/CChart.vue: the ECharts option *)

Module EChartsOption.

(** [delete o.name] *)
Fixpoint obj_delete (ps : list (jsstr * json)) (k : jsstr) : list (jsstr * json) :=
  match ps with
  | [] => []
  | (k', v) :: t => if str_eqb k k' then t else (k', v) :: obj_delete t k
  end.

Definition str (s : string) : json := JStr (lit s).
Arguments str s%_string.

(** [l.map(f)] for a callback that may throw. *)
Fixpoint map_throwing {A B : Type} (f : A -> option B) (l : list A)
  : option (list B) :=
  match l with
  | [] => Some []
  | x :: t =>
      match f x with
      | Some y =>
          match map_throwing f t with
          | Some r => Some (y :: r)
          | None => None
          end
      | None => None
      end
  end.

Section WithNumbers.
Context {ops : NumberOps} {rel : RelationalOps}.

(** [a || d] *)
Definition or_json (a : value) (d : json) : json :=
  match a with
  | Some v => if truthy a then v else d
  | None => d
  end.

(** A slice of a pie: the value and the label at its index. *)
Definition pie_point (xAxisData : json) (v : json) (index : nat) : json :=
  JObj [(lit "value", v);
        (lit "name",
         or_json (at_index xAxisData index) (JStr (lit "Item " ++ decimal index)))].

(** The callback that builds one series; [None] when it throws: [item] is
    [null], or, for a pie, the comparison of the length of the labels
    does. *)
Definition series_of (chartType xAxisData item : json) : option json :=
  match get_field item (lit "name"), get_field item (lit "data") with
  | Some name, Some data =>
      let baseSeries :=
        [(lit "name", or_json name (str "Series"));
         (lit "data", or_json data (JArr []))] in
      if is_str (Some chartType) "line" then
        Some (JObj (obj_set (obj_set baseSeries (lit "type") (str "line"))
                            (lit "smooth") (JBool true)))
      else if is_str (Some chartType) "bar" then
        Some (JObj (obj_set baseSeries (lit "type") (str "bar")))
      else if is_str (Some chartType) "pie" then
        let typed := obj_set baseSeries (lit "type") (str "pie") in
        let plain := obj_set typed (lit "data") (or_json data (JArr [])) in
        match data with
        | Some (JArr values) =>
            match has_length xAxisData with
            | Some true =>
                Some (JObj (obj_set typed (lit "data")
                              (JArr (map_indexed (pie_point xAxisData) 0 values))))
            | Some false => Some (JObj plain)
            | None => None
            end
        | _ => Some (JObj plain)
        end
      else if is_str (Some chartType) "scatter" then
        Some (JObj (obj_set baseSeries (lit "type") (str "scatter")))
      else Some (JObj (obj_set baseSeries (lit "type") chartType))
  | _, _ => None
  end.

(** The callback of the legend; [None] when [item] is [null]. *)
Definition legend_of (item : json) : option json :=
  match get_field item (lit "name") with
  | Some name => Some (or_json name (str "Series"))
  | None => None
  end.

(** [seriesData.map(f)]: only an array has a [map] to call. *)
Definition map_data (f : json -> option json) (seriesData : json)
  : option (list json) :=
  match seriesData with
  | JArr items => map_throwing f items
  | _ => None
  end.

(** [convertToEChartsOption]; [None] when it throws. *)
Definition convertToEChartsOption (config : json) : option json :=
  match config with
  | JNull => None
  | _ =>
      let field := opt_field (Some config) in
      let chartType := or_json (field (lit "type")) (str "line") in
      let seriesData := or_json (field (lit "data")) (JArr []) in
      let xAxisData :=
        or_json (opt_field (field (lit "xAxis")) (lit "data")) (JArr []) in
      let xAxisType :=
        or_json (opt_field (field (lit "xAxis")) (lit "type")) (str "category") in
      let yAxisType :=
        or_json (opt_field (field (lit "yAxis")) (lit "type")) (str "value") in
      match map_data (series_of chartType xAxisData) seriesData with
      | None => None
      | Some series =>
          match map_data legend_of seriesData with
          | None => None
          | Some names =>
              let echartsOption :=
                [(lit "tooltip",
                  JObj [(lit "trigger", str "axis");
                        (lit "axisPointer", JObj [(lit "type", str "cross")])]);
                 (lit "legend", JObj [(lit "data", JArr names)]);
                 (lit "grid",
                  JObj [(lit "left", str "3%"); (lit "right", str "4%");
                        (lit "bottom", str "3%"); (lit "containLabel", JBool true)]);
                 (lit "xAxis",
                  JObj [(lit "type", xAxisType); (lit "data", xAxisData);
                        (lit "boundaryGap",
                         JBool (if is_str (Some chartType) "bar" then false else true))]);
                 (lit "yAxis", JObj [(lit "type", yAxisType)]);
                 (lit "series", JArr series)] in
              Some (JObj (
                if is_str (Some chartType) "pie" then
                  obj_set
                    (obj_set
                       (obj_delete (obj_delete echartsOption (lit "xAxis"))
                                   (lit "yAxis"))
                       (lit "tooltip") (JObj [(lit "trigger", str "item")]))
                    (lit "legend")
                    (JObj [(lit "orient", str "vertical"); (lit "left", str "left")])
                else echartsOption))
          end
      end
  end.

End WithNumbers.

End EChartsOption.

(** ** App.vue: the conversations *)

Module Conversations.

(** A [Conversation] as the interface declares it; the time stamp
    [updated_at] is left out. *)
Record Conversation : Type := mkConversation {
  id : jsstr;
  title : jsstr;
  messages : list Message;
  message_count : nat
}.

(** The two refs the functions below read and write. *)
Record store : Type := mkStore {
  conversations : list Conversation;
  currentConversationId : option jsstr
}.

Definition text_new_conversation : jsstr := [26032; 23565; 35441]%N.

(** [conversations.value.find((c) => c.id === currentConversationId.value)] *)
Definition currentConversation (s : store) : option Conversation :=
  match currentConversationId s with
  | Some i => find (fun c => str_eqb (id c) i) (conversations s)
  | None => None
  end.

Definition currentConversationTitle (s : store) : jsstr :=
  match currentConversation s with
  | Some c => match title c with [] => text_new_conversation | t => t end
  | None => text_new_conversation
  end.

Definition currentMessages (s : store) : list Message :=
  match currentConversation s with
  | Some c => messages c
  | None => []
  end.

(** A change made to the object [find] returned: the first conversation
    with that id. *)
Fixpoint update_found (i : jsstr) (f : Conversation -> Conversation)
  (l : list Conversation) : list Conversation :=
  match l with
  | [] => []
  | c :: t => if str_eqb (id c) i then f c :: t else c :: update_found i f t
  end.

Definition update_current (f : Conversation -> Conversation) (s : store) : store :=
  match currentConversationId s with
  | Some i => mkStore (update_found i f (conversations s)) (Some i)
  | None => s
  end.

Definition set_messages (l : list Message) (c : Conversation) : Conversation :=
  mkConversation (id c) (title c) l (message_count c).

(** [createNewConversation].  The id and the title of the new conversation
    are the backend's ([String(conversationId)] and [data.title || '...']),
    or, when the request fails or brings no id, [local-] followed by the
    time and the default title: either way a pair that comes from outside,
    here [conversationId] and [title].  The new conversation goes in front
    and becomes the current one. *)
Definition createNewConversation (fresh : jsstr * jsstr) (s : store) : store :=
  let (conversationId, title) := fresh in
  mkStore (mkConversation conversationId title [] 0 :: conversations s)
          (Some conversationId).

(** A message of the answer of [loadConversationMessages], with a role
    the [Message] interface declares. *)
Record loaded_message : Type := mkLoaded {
  loaded_role : Role;
  loaded_content : value
}.

(** What the request of [loadConversationMessages] came to: it failed (or
    its answer or an entry of its [messages] was [null], which ends in the
    same [catch]), its answer had no [messages] array, or it had one. *)
Inductive response : Type :=
| Failed
| Malformed
| Loaded (msgs : list loaded_message).

Section WithNumbers.
Context {ops : NumberOps}.

(** The callback of [data.messages.map]. *)
Definition message_of (msg : loaded_message) : Message :=
  mkMessage (loaded_role msg) (or_text (loaded_content msg) [])
            None (Some false) None None.

(** [loadConversationMessages]: given how its request ended, its change to
    the conversation of that id. *)
Definition loadConversationMessages (conversationId : jsstr) (r : response)
  (s : store) : store :=
  match conversationId with
  | [] => s
  | _ :: _ =>
      match r with
      | Failed => s
      | Malformed =>
          mkStore (update_found conversationId (set_messages []) (conversations s))
                  (currentConversationId s)
      | Loaded msgs =>
          mkStore (update_found conversationId
                     (set_messages (map message_of msgs)) (conversations s))
                  (currentConversationId s)
      end
  end.

(** [selectConversation]; a local conversation has nothing to load. *)
Definition selectConversation (i : jsstr) (r : response) (s : store) : store :=
  match i with
  | [] => s
  | _ :: _ =>
      let s1 := mkStore (conversations s) (Some i) in
      if negb (startsWith i (lit "local-")) then loadConversationMessages i r s1
      else s1
  end.

(** [deleteConversation], its changes to the two refs; [r] is how the
    request for the messages of the conversation selected next ended.  The
    request that deletes on the backend changes neither ref. *)
Definition deleteConversation (i : jsstr) (r : response) (s : store) : store :=
  match i with
  | [] => s
  | _ :: _ =>
      let wasCurrentConversation :=
        match currentConversationId s with
        | Some cur => str_eqb cur i
        | None => false
        end in
      let rest := filter (fun c => negb (str_eqb (id c) i)) (conversations s) in
      if wasCurrentConversation then
        match rest with
        | firstConversation :: _ =>
            match id firstConversation with
            | [] => mkStore rest None
            | _ :: _ =>
                loadConversationMessages (id firstConversation) r
                  (mkStore rest (Some (id firstConversation)))
            end
        | [] => mkStore rest None
        end
      else mkStore rest (currentConversationId s)
  end.

End WithNumbers.

(** [clearConversation] *)
Definition clearConversation (s : store) : store :=
  match currentConversation s with
  | Some _ =>
      update_current (fun c => mkConversation (id c) (title c) [] 0) s
  | None => s
  end.

(** How [sendMessage] begins. *)
Inductive beginning : Type :=
| Ignored                      (* a blank message: nothing happens *)
| Invalid (s : store)          (* no conversation to send in *)
| Started (s : store).         (* the user message is in; the request follows *)

Definition userMessage (message : jsstr) : Message :=
  mkMessage User (JStr message) None None None None.

(** [message.slice(0, 30) + (message.length > 30 ? '...' : '')] *)
Definition title_of (message : jsstr) : jsstr :=
  firstn 30 message ++ (if 30 <? length message then lit "..." else []).

(** The conversation a send goes to: without a current id one is created
    first. *)
Definition conversation_to_send_in (fresh : jsstr * jsstr) (s : store) : store :=
  match currentConversationId s with
  | None | Some [] => createNewConversation fresh s
  | Some (_ :: _) => s
  end.

(** [sendMessage] up to its request; [fresh] is the id and the title of
    the conversation [createNewConversation] makes when it is called. *)
Definition sendMessage (message : jsstr) (fresh : jsstr * jsstr) (s : store)
  : beginning :=
  match trim message with
  | [] => Ignored
  | _ :: _ =>
      let s1 := conversation_to_send_in fresh s in
      match currentConversationId s1 with
      | None | Some [] => Invalid s1
      | Some (_ :: _) =>
          match currentConversation s1 with
          | None => Invalid s1
          | Some _ =>
              Started
                (update_current
                   (fun c =>
                      let msgs := messages c ++ [userMessage message] in
                      mkConversation (id c)
                        (if length msgs =? 1 then title_of message else title c)
                        msgs (S (message_count c)))
                   s1)
          end
      end
  end.

End Conversations.
(** ** Definitions used to state the properties *)

(** A reading of number tokens to run the examples with: a token is truthy
    when a non-zero digit occurs before its exponent (exact but for tokens
    that underflow to zero), and prints as written (exact for integers in
    canonical form).  The theorems hold for every reading. *)
Definition sample_truthy (t : jsstr) : bool :=
  (fix go (s : jsstr) : bool :=
     match s with
     | [] => false
     | c :: r =>
         if ((c =? 101) || (c =? 69))%N then false
         else if ((49 <=? c) && (c <=? 57))%N then true
         else go r
     end) t.

Definition sample_ops : NumberOps :=
  {| num_truthy := sample_truthy; num_to_string := fun t => t |}.

(** The block of the round-trip example, and the object it denotes. *)
Definition table_block : jsstr :=
  lit "option = {columns:[{label:'Name',prop:'name'}], data:[{name:'A'}]}".

Definition table_object : json :=
  JObj [(lit "columns",
         JArr [JObj [(lit "label", JStr (lit "Name"));
                     (lit "prop", JStr (lit "name"))]]);
        (lit "data", JArr [JObj [(lit "name", JStr (lit "A"))]])].

(** The same object as strict JSON text: the block after normalisation. *)
Definition table_json_text : jsstr :=
  lit "{" ++ dquote :: lit "columns" ++ dquote :: lit ":[{"
  ++ dquote :: lit "label" ++ dquote :: lit ":" ++ dquote :: lit "Name"
  ++ dquote :: lit "," ++ dquote :: lit "prop" ++ dquote :: lit ":"
  ++ dquote :: lit "name" ++ dquote :: lit "}], " ++ dquote :: lit "data"
  ++ dquote :: lit ":[{" ++ dquote :: lit "name" ++ dquote :: lit ":"
  ++ dquote :: lit "A" ++ dquote :: lit "}]}".

(** A chart block with a type and no data. *)
Definition chart_block_no_data : jsstr := lit "option = {type:'line'}".

(** "The parsed chart configuration is non-null only if the option object
    has both a type field and a data field." *)
Definition chart_requires_type_and_data {ops : NumberOps} (code : jsstr) : Prop :=
  CChart.parseChartData code <> JNull ->
  opt_field (Some (CChart.parseChartData code)) (lit "type") <> None
  /\ opt_field (Some (CChart.parseChartData code)) (lit "data") <> None.


(** A JSON text written with an apostrophe for each double quote. *)
Definition json_lit (s : string) : jsstr :=
  map (fun c => if N.eqb c squote then dquote else c) (lit s).
Arguments json_lit s%_string.

Definition chunk_explanation (text : string) : jsstr :=
  json_lit "{'type':'explanation','content':'" ++ lit text ++ json_lit "'}".
Arguments chunk_explanation text%_string.

Definition chunk_error_boom : jsstr := json_lit "{'type':'error','error':'boom'}".

Definition chunk_status_working : jsstr :=
  json_lit "{'type':'status','status':{'type':'working'}}".

Definition chunk_status_done : jsstr :=
  json_lit "{'type':'status','status':{'type':'success','content':'Done'}}".

Definition chunk_status_top_content : jsstr :=
  json_lit "{'type':'status','status':{'type':'working'},'content':'top'}".

Definition chunk_other_type : jsstr := json_lit "{'type':'foo','content':'hi'}".

Definition chunk_legacy_text : jsstr := json_lit "{'text':'hi','reply':'yo'}".

(** A text field that has no string form. *)
Definition chunk_unconvertible_text : jsstr :=
  json_lit "{'text':{'toString':1}}".

Definition chunk_unconvertible_explanation : jsstr :=
  json_lit "{'type':'explanation','content':{'toString':1}}".

(** The display states no later event may undo. *)
Definition terminal (s : option ThinkingStatus) : Prop :=
  s = Some TEnd \/ s = Some TError.

(** The in-flight message of App.vue is the last one of the conversation. *)
Definition last_message (st : App.state) : option Message :=
  match rev (App.messages st) with
  | m :: _ => Some m
  | [] => None
  end.

Definition last_status (st : App.state) : option ThinkingStatus :=
  match last_message st with
  | Some m => thinkingStatus m
  | None => None
  end.

(** Events that are not a status update mapped to [start] or [thinking]. *)
Definition not_reviving (e : event) : Prop :=
  match e with
  | StatusUpdate s _ => s = TEnd \/ s = TError
  | _ => True
  end.

Section StreamStatements.
Context {ops : NumberOps}.

(** "Once the display state is error or end, no further chunk sets it back
    to start or thinking." *)
Definition stays_terminal (st : Chatbot.state) (chunk : jsstr) : Prop :=
  terminal (thinkingStatus (Chatbot.message st)) ->
  terminal (thinkingStatus (Chatbot.message (Chatbot.step st chunk))).

(** [v?.[0]] *)
Definition opt_index0 (v : value) : value :=
  match v with
  | None | Some JNull => None
  | Some c => match get_index0 c with Some r => r | None => None end
  end.

(** "status.content, defaulting to a generic processing text when absent." *)
Definition status_text_as_claimed (payload : json) : json :=
  or_text (opt_field (opt_field (Some payload) (lit "status")) (lit "content"))
          text_processing.

Definition status_claim (chunk : jsstr) : Prop :=
  forall json,
    JSON_parse chunk = Some json ->
    get_field json (lit "type") = Some (Some (JStr (lit "status"))) ->
    exists s, Chatbot.classify chunk = StatusUpdate s (status_text_as_claimed json).

(** The first truthy value of a priority list. *)
Definition first_truthy (l : list value) : value :=
  match find truthy l with
  | Some v => v
  | None => None
  end.

(** "choices[0].delta.content, content, delta.content, text, message,
    reply", in this order. *)
Definition legacy_fields_as_claimed (json : json) : list value :=
  let f := opt_field (Some json) in
  [opt_field (opt_field (opt_index0 (f (lit "choices"))) (lit "delta")) (lit "content");
   f (lit "content");
   opt_field (f (lit "delta")) (lit "content");
   f (lit "text"); f (lit "message"); f (lit "reply")].

(** The same list, with [content] counted only for a payload that has no
    truthy [type]. *)
Definition legacy_fields (json : json) : list value :=
  let f := opt_field (Some json) in
  [opt_field (opt_field (opt_index0 (f (lit "choices"))) (lit "delta")) (lit "content");
   if truthy (f (lit "type")) then None else f (lit "content");
   opt_field (f (lit "delta")) (lit "content");
   f (lit "text"); f (lit "message"); f (lit "reply")].

(** What the fall-back branch makes of the first truthy field of a chunk
    that parsed: a content delta of its string form, and, when the field
    has none, the raw text the [catch] takes the chunk for. *)
Definition legacy_event (chunk : jsstr) (fields : list value) : event :=
  match first_truthy fields with
  | Some v => content_delta v (RawTextDelta chunk)
  | None => NoEvent
  end.

(** A payload whose [type] is none of the five discriminators. *)
Definition other_type (ty : value) : Prop :=
  is_str ty "explanation" = false /\ is_str ty "status" = false
  /\ is_str ty "error" = false /\ is_str ty "suggestions" = false
  /\ is_str ty "done" = false.

Definition legacy_claim (chunk : jsstr) : Prop :=
  forall json ty,
    JSON_parse chunk = Some json ->
    get_field json (lit "type") = Some ty ->
    other_type ty ->
    Chatbot.classify chunk = legacy_event chunk (legacy_fields_as_claimed json).

End StreamStatements.

(** The values the example payloads parse to. *)
Definition payload_status_done : json :=
  JObj [(lit "type", JStr (lit "status"));
        (lit "status", JObj [(lit "type", JStr (lit "success"));
                             (lit "content", JStr (lit "Done"))])].

Definition payload_status_top_content : json :=
  JObj [(lit "type", JStr (lit "status"));
        (lit "status", JObj [(lit "type", JStr (lit "working"))]);
        (lit "content", JStr (lit "top"))].

Definition payload_other_type : json :=
  JObj [(lit "type", JStr (lit "foo")); (lit "content", JStr (lit "hi"))].

Definition payload_legacy_text : json :=
  JObj [(lit "text", JStr (lit "hi")); (lit "reply", JStr (lit "yo"))].

(** The lines of a table block: trimmed text, split at line feeds, blank
    lines dropped. *)
Definition table_lines (code : jsstr) : list jsstr :=
  filter (fun line => CTable.nonempty (trim line)) (split_on newline (trim code)).

(** "With at least two lines and a bar in the first, the parser returns an
    array of rows." *)
Definition markdown_claim {ops : NumberOps} (code : jsstr) : Prop :=
  CTable.parseTableConfig code = None ->
  2 <= length (table_lines code) ->
  includes_char (nth 0 (table_lines code) []) CTable.pipe = true ->
  exists rows, CTable.parseTableData code = JArr rows.

(** A header line and a separator line, no data line. *)
Definition table_header_only : jsstr :=
  lit "| a | b |" ++ newline :: lit "|---|---|".

(** A pipe table with two data lines, the second one short. *)
Definition table_two_rows : jsstr :=
  lit "| a | b |" ++ newline :: lit "|---|---|" ++ newline :: lit "| 1 | 2 |"
  ++ newline :: lit "| 3 |".

(** *** Reading a text with strings in mind

    The scan as the code makes it: a reader is outside any string or inside
    one opened by a double or a single quote; a backslash escapes the next
    character, whatever it is and wherever it stands, inside a string or
    outside one; braces count only outside strings and unescaped. *)
Inductive lexmode : Type := Outside | InDouble | InSingle.

Record lexer : Type := mkLexer {
  depth : Z;
  mode : lexmode;
  escaped : bool
}.

Definition lexer0 : lexer := mkLexer 0 Outside false.

Definition lex_step (l : lexer) (c : char) : lexer :=
  if escaped l then mkLexer (depth l) (mode l) false
  else if N.eqb c backslash then mkLexer (depth l) (mode l) true
  else
    match mode l with
    | Outside =>
        if N.eqb c dquote then mkLexer (depth l) InDouble false
        else if N.eqb c squote then mkLexer (depth l) InSingle false
        else if N.eqb c lbrace then mkLexer (depth l + 1) Outside false
        else if N.eqb c rbrace then mkLexer (depth l - 1) Outside false
        else l
    | InDouble => if N.eqb c dquote then mkLexer (depth l) Outside false else l
    | InSingle => if N.eqb c squote then mkLexer (depth l) Outside false else l
    end.

Definition lex_from (l : lexer) (s : jsstr) : lexer := fold_left lex_step s l.

Definition lex (s : jsstr) : lexer := lex_from lexer0 s.

(** In [t], the brace right after [body] is read outside strings and
    unescaped, and brings the depth back to 0 for the first time. *)
Definition closes_after (t body rest : jsstr) : Prop :=
  t = body ++ rbrace :: rest
  /\ lex body = mkLexer 1 Outside false
  /\ forall p q, body = p ++ q -> p <> [] -> (0 < depth (lex p))%Z.

(** The scan as the claim words it: the backslash is an escape of the
    string regions only, and a plain character outside them. *)
Definition lex_step_as_claimed (l : lexer) (c : char) : lexer :=
  match mode l with
  | Outside =>
      if N.eqb c dquote then mkLexer (depth l) InDouble false
      else if N.eqb c squote then mkLexer (depth l) InSingle false
      else if N.eqb c lbrace then mkLexer (depth l + 1) Outside false
      else if N.eqb c rbrace then mkLexer (depth l - 1) Outside false
      else l
  | _ => lex_step l c
  end.

Definition lex_as_claimed (s : jsstr) : lexer :=
  fold_left lex_step_as_claimed s lexer0.

Definition closes_after_as_claimed (t body rest : jsstr) : Prop :=
  t = body ++ rbrace :: rest
  /\ lex_as_claimed body = mkLexer 1 Outside false
  /\ forall p q, body = p ++ q -> p <> [] -> (0 < depth (lex_as_claimed p))%Z.

(** "Nothing but white space and semicolons is left." *)
Definition only_spaces_and_semicolons (rest : jsstr) : Prop :=
  Forall (fun c => is_space c = true \/ c = CTable.semicolon) rest.

(** Nothing but white space and at most one semicolon is left: trimmed, it
    is empty or one semicolon. *)
Definition at_most_one_semicolon (rest : jsstr) : Prop :=
  trim rest = [] \/ trim rest = [CTable.semicolon].

(** The completeness of the claim, and the one the code decides. *)
Definition complete_as_claimed (text : jsstr) : Prop :=
  startsWith (trim text) [lbrace] = true
  /\ exists body rest,
       closes_after_as_claimed (trim text) body rest
       /\ only_spaces_and_semicolons rest.

Definition complete (text : jsstr) : Prop :=
  startsWith (trim text) [lbrace] = true
  /\ exists body rest,
       closes_after (trim text) body rest /\ at_most_one_semicolon rest.

(** *** Balanced object literals *)

Definition is_quote (c : char) : bool := N.eqb c dquote || N.eqb c squote.

(** A character with no lexical role. *)
Definition plain (c : char) : bool :=
  negb (is_quote c || N.eqb c backslash || N.eqb c lbrace || N.eqb c rbrace).

(** The inside of a string literal delimited by [q]: any character but [q]
    and the backslash, or a backslash and the character it escapes. *)
Inductive string_body (q : char) : jsstr -> Prop :=
| sb_nil : string_body q []
| sb_char (c : char) (s : jsstr) :
    c <> q -> c <> backslash -> string_body q s -> string_body q (c :: s)
| sb_escape (c : char) (s : jsstr) :
    string_body q s -> string_body q (backslash :: c :: s).

(** What may stand between two matching braces: plain characters, string
    literals, and nested braces with the same inside. *)
Inductive balanced : jsstr -> Prop :=
| bal_nil : balanced []
| bal_plain (c : char) (s : jsstr) :
    plain c = true -> balanced s -> balanced (c :: s)
| bal_string (q : char) (b s : jsstr) :
    is_quote q = true -> string_body q b -> balanced s ->
    balanced (q :: b ++ q :: s)
| bal_braces (b s : jsstr) :
    balanced b -> balanced s -> balanced (lbrace :: b ++ rbrace :: s).

Definition object_literal (s : jsstr) : Prop :=
  exists b, s = lbrace :: b ++ [rbrace] /\ balanced b.

(** The literal of the specification's example: an object whose one value is
    a string made of a closing brace. *)
Definition literal_with_brace_in_string : jsstr :=
  json_lit "{'a': '}'}".

(** A literal with an escaped closing brace outside any string. *)
Definition literal_with_escaped_brace : jsstr :=
  [lbrace; backslash; rbrace; rbrace].

(** *** The option assignment *)

Definition spaces (w : jsstr) : Prop := forallb is_space w = true.

(** "[option], optional white space, [=], optional white space, [{]" occurs
    in the text. *)
Definition contains_assignment (text : jsstr) : Prop :=
  exists pre w1 w2 post,
    text = pre ++ lit "option" ++ w1 ++ lit "=" ++ w2 ++ lbrace :: post
    /\ spaces w1 /\ spaces w2.

(** The segment [r] of [text], after [pre] and before [tail], is such an
    occurrence up to a closing brace. *)
Definition assignment_at (text pre r tail : jsstr) : Prop :=
  text = pre ++ r ++ tail
  /\ exists w1 w2 body,
       r = lit "option" ++ w1 ++ lit "=" ++ w2 ++ lbrace :: body ++ [rbrace]
       /\ spaces w1 /\ spaces w2.

(** "The extractor returns a result exactly when the pattern occurs, and the
    result runs from the first [option] through the end of the text." *)
Definition extractor_claim (text : jsstr) : Prop :=
  (CTable.configMatch text <> None <-> contains_assignment text)
  /\ forall r, CTable.configMatch text = Some r -> exists pre, text = pre ++ r.

(** The depth stays at [d0] or above all along [s], read from state [l]. *)
Fixpoint above (d0 : Z) (l : lexer) (s : jsstr) : Prop :=
  (d0 <= depth l)%Z
  /\ match s with
     | [] => True
     | c :: t => above d0 (lex_step l c) t
     end.

Definition mode_of (q : char) : lexmode :=
  if N.eqb q dquote then InDouble else InSingle.

(** What follows the last closing brace of a string, if it has one. *)
Fixpoint after_last_rbrace (s : jsstr) : option jsstr :=
  match s with
  | [] => None
  | c :: t =>
      match after_last_rbrace t with
      | Some r => Some r
      | None => if N.eqb rbrace c then Some t else None
      end
  end.

(** The option-block pattern tried at the head of [aft], read off the
    subject: what is left after the match. *)
Definition block_tail (aft : jsstr) : option jsstr :=
  if startsWith aft (lit "option") then
    match trimStart (skipn 6 aft) with
    | c :: r1 =>
        if N.eqb 61 c then
          match trimStart r1 with
          | d :: r2 => if N.eqb lbrace d then after_last_rbrace r2 else None
          | [] => None
          end
        else None
    | [] => None
    end
  else None.

(** *** Auxiliary definitions for the proofs *)

(** A starred character class, read off the subject: the longest run
    first, then shorter ones. *)
Fixpoint star_chr (p : char -> bool) (k : cont) (bef aft : jsstr)
  (cs : list (nat * jsstr)) : option pos :=
  match aft with
  | c :: t =>
      if p c then
        match star_chr p k (c :: bef) t cs with
        | Some r => Some r
        | None => k (mkPos bef aft cs)
        end
      else k (mkPos bef aft cs)
  | [] => k (mkPos bef [] cs)
  end.

(** A semicolon at most, then white space only. *)
Definition tail_shape (s : jsstr) : bool :=
  forallb is_space s
  || match s with
     | c :: t => N.eqb c CTable.semicolon && forallb is_space t
     | [] => false
     end.

(** The continuation that asks for a closing brace next. *)
Definition then_rbrace (g : pos -> list (nat * jsstr)) : cont :=
  fun y =>
    match after y with
    | c :: t => if N.eqb rbrace c then Some (mkPos (c :: before y) t (g y)) else None
    | [] => None
    end.

(** The loop state that stands for a reader's state. *)
Definition scan_of (l : lexer) : CTable.scan :=
  CTable.mkScan (depth l)
    (match mode l with Outside => false | _ => true end)
    (match mode l with
     | Outside => None
     | InDouble => Some dquote
     | InSingle => Some squote
     end)
    (escaped l).

(** The brace that ends the scan. *)
Definition closing (l : lexer) (c : char) : bool :=
  negb (escaped l)
  && match mode l with Outside => true | _ => false end
  && N.eqb c rbrace && (depth l - 1 =? 0)%Z.

(** The test the loop makes on what follows the closing brace. *)
Definition tail_ok (rest : jsstr) : bool :=
  str_eqb (replace_first false CTable.re_tail [] (trim rest)) [].


(** ** Statement-side definitions: the theme colour *)

Definition is_hex (c : char) : bool :=
  match hex_val c with Some _ => true | None => false end.

(** The digits of a colour after the number sign: hexadecimal, and few
    enough to be read exactly. *)
Definition hex_colour (h : jsstr) : Prop :=
  forallb is_hex h = true /\ 1 <= length h <= 13.

Definition colour_value (h : jsstr) : Z := Z.of_N (Theme.hex_value h 0).

Definition red (n : Z) : Z := ((n / 65536) mod 256)%Z.
Definition green (n : Z) : Z := ((n / 256) mod 256)%Z.
Definition blue (n : Z) : Z := (n mod 256)%Z.

Definition darker (c percent : Z) : Z := Z.max 0 (c - percent).

(** One half, as a Number. *)
Definition half : Theme.number := Theme.Fin 1 (-1).

(** Two lower-case hexadecimal digits. *)
Definition hex2 (c : Z) : jsstr :=
  [Theme.hex_char (Z.to_N (c / 16)); Theme.hex_char (Z.to_N (c mod 16))].

(** [k] hexadecimal digits, the most significant first. *)
Fixpoint hexn (k : nat) (n : N) : jsstr :=
  match k with
  | O => []
  | S k' => hexn k' (n / 16) ++ [Theme.hex_char (n mod 16)]
  end.

(** ** Statement-side definitions: the stream watchers *)

(** The text an event adds to the content buffer. *)
Definition delta_text (e : event) : jsstr :=
  match e with
  | ContentDelta text => text
  | RawTextDelta t => t
  | _ => []
  end.

(** All the text a run of events adds, in order. *)
Definition received (es : list event) : jsstr := concat (map delta_text es).

(** The two events that end a stream. *)
Definition ends_stream (e : event) : bool :=
  match e with
  | StreamEnd | DoneMark => true
  | _ => false
  end.

(** The data array of the stream as successive watcher calls see it: each
    call sees all the chunks so far. *)
Fixpoint snapshots (seen : list jsstr) (batches : list (list jsstr))
  : list (list jsstr) :=
  match batches with
  | [] => []
  | b :: t => (seen ++ b) :: snapshots (seen ++ b) t
  end.

Definition done_marker : jsstr := lit "[DONE]".

Definition is_suggestions (e : event) : bool :=
  match e with
  | SuggestionsUpdate _ => true
  | _ => false
  end.

(** The prompt made of the suggestion at [index]. *)
Definition prompt_of (suggestion : json) (index : nat) : ConversationArea.PromptsItem :=
  ConversationArea.mkPrompt (lit "suggestion-" ++ decimal index)
                            suggestion.

(** A reading of [v > 0] to run the examples with: exact on number tokens
    (but for those that underflow to zero), booleans, [null] and
    [undefined]; on strings, arrays and objects it answers [false], which
    is exact for those that do not read as a positive number.  The theorems
    hold for every reading. *)
Definition sample_rel : RelationalOps :=
  {| gt_zero := fun v =>
       match v with
       | Some (JNum t) =>
           sample_truthy t && negb (startsWith t (lit "-"))
       | Some (JBool b) => b
       | _ => false
       end |}.

(** A conversation that ends in an answer with two suggestions. *)
Definition answered_with_suggestions : list Message :=
  [mkMessage User (JStr (lit "hi")) None None None None;
   mkMessage Assistant (JStr (lit "hello")) (Some TEnd) (Some false) None
             (Some (JArr [JStr (lit "a"); JStr (lit "b")]))].

(** ** Statement-side definitions: the request headers *)

(** An ASCII letter in lower case. *)
Definition lower (c : char) : char :=
  if (65 <=? c)%N && (c <=? 90)%N then (c + 32)%N else c.

(** Two header names are the same to a request: they differ in case at
    most. *)
Definition same_name (a b : jsstr) : bool :=
  str_eqb (map lower a) (map lower b).

(** The values [headers] holds for the header [name]: those of all the
    properties whose name is [name] in some spelling. *)
Definition values_of (name : jsstr) (headers : list (jsstr * jsstr))
  : list jsstr :=
  map snd (filter (fun kv => same_name (fst kv) name) headers).

(** Every property that counts as [Authorization] begins with [Bearer ]. *)
Definition all_bearer (h : list (jsstr * jsstr)) : Prop :=
  Forall (fun kv => same_name (fst kv) (lit "Authorization") = true ->
                    startsWith (snd kv) (lit "Bearer ") = true) h.

(** ** Statement-side definitions: a block as it streams in *)

(** An option assignment: [option], [=], and the text of the literal. *)
Definition assignment (w1 w2 literal : jsstr) : jsstr :=
  lit "option" ++ w1 ++ lit "=" ++ w2 ++ literal.

(** [p] is the text received so far of [text], and more is to come. *)
Definition received_part (p text : jsstr) : Prop :=
  exists z, text = p ++ z /\ z <> [].

(** ** Statement-side definitions: the chart option *)

Section ChartStatements.
Context {ops : NumberOps}.

(** [config.type || 'line'] and [config.data || []] *)
Definition chart_type (config : json) : json :=
  EChartsOption.or_json (opt_field (Some config) (lit "type"))
                        (EChartsOption.str "line").

Definition series_data (config : json) : json :=
  EChartsOption.or_json (opt_field (Some config) (lit "data")) (JArr []).

(** [config.xAxis?.data || []] *)
Definition x_axis_data (config : json) : json :=
  EChartsOption.or_json
    (opt_field (opt_field (Some config) (lit "xAxis")) (lit "data")) (JArr []).

(** The labels are an object whose [length] cannot be made a primitive: it
    holds an object with a [toString] entry of its own, or an array with
    such an object in it. *)
Definition length_unconvertible (labels : json) : Prop :=
  exists ps len,
    labels = JObj ps /\ lookup (lit "length") ps = Some len
    /\ to_string len = None.

(** The entry has an array for [data]. *)
Definition has_values (item : json) : Prop :=
  exists values, opt_field (Some item) (lit "data") = Some (JArr values).

End ChartStatements.

(** The line chart of the example document, as parsed. *)
Definition line_chart_config : json :=
  JObj [(lit "type", JStr (lit "line"));
        (lit "data",
         JArr [JObj [(lit "name", JStr (lit "Line 1"));
                     (lit "data", JArr [JNum (lit "1"); JNum (lit "2")])]]);
        (lit "xAxis",
         JObj [(lit "type", JStr (lit "category"));
               (lit "data", JArr [JStr (lit "Mon"); JStr (lit "Tue")])]);
        (lit "yAxis", JObj [(lit "type", JStr (lit "value"))])].

(** A chart whose data has a hole. *)
Definition chart_config_with_null : json :=
  JObj [(lit "type", JStr (lit "bar")); (lit "data", JArr [JNull])].

(** A pie whose labels have an object for length. *)
Definition pie_config_with_odd_labels : json :=
  JObj [(lit "type", JStr (lit "pie"));
        (lit "data",
         JArr [JObj [(lit "name", JStr (lit "Share"));
                     (lit "data", JArr [JNum (lit "1")])]]);
        (lit "xAxis",
         JObj [(lit "data",
                JObj [(lit "length",
                       JObj [(lit "toString", JNum (lit "1"))])])])].

(** ** Statement-side definitions: the conversations *)

(** The current id is unset or names a conversation of the list. *)
Definition current_exists (s : Conversations.store) : Prop :=
  match Conversations.currentConversationId s with
  | None => True
  | Some i =>
      exists c, In c (Conversations.conversations s) /\ Conversations.id c = i
  end.

Section ConversationStatements.
Context {ops : NumberOps}.

(** A conversation as [loadConversationMessages] leaves it when the
    request ended as [r]. *)
Definition reloaded (r : Conversations.response)
  (c : Conversations.Conversation) : Conversations.Conversation :=
  match r with
  | Conversations.Failed => c
  | Conversations.Malformed => Conversations.set_messages [] c
  | Conversations.Loaded msgs =>
      Conversations.set_messages (map Conversations.message_of msgs) c
  end.

End ConversationStatements.

(** The conversations that are left when those with id [i] are removed. *)
Definition without (i : jsstr) (l : list Conversations.Conversation)
  : list Conversations.Conversation :=
  filter (fun c => negb (str_eqb (Conversations.id c) i)) l.

(** The conversation [createNewConversation] puts in front. *)
Definition created (fresh : jsstr * jsstr) : Conversations.Conversation :=
  Conversations.mkConversation (fst fresh) (snd fresh) [] 0.

(** A list with two conversations, the first one current. *)
Definition two_conversations : Conversations.store :=
  Conversations.mkStore
    [Conversations.mkConversation (lit "7") (lit "first") [] 0;
     Conversations.mkConversation (lit "local-1") (lit "second") [] 0]
    (Some (lit "7")).

(** The same list with no conversation current. *)
Definition none_current : Conversations.store :=
  Conversations.mkStore (Conversations.conversations two_conversations) None.

(** An answer of the backend with one message of the assistant. *)
Definition one_loaded_message : Conversations.response :=
  Conversations.Loaded
    [Conversations.mkLoaded Assistant (Some (JStr (lit "earlier")))].
(** ** Strings: trimming *)

Lemma str_eqb_eq (a b : jsstr) : str_eqb a b = true <-> a = b.
Proof.
  revert b. induction a as [|x a IH]; intros [|y b]; simpl;
    try (split; [discriminate|discriminate]); try tauto.
  rewrite andb_true_iff, N.eqb_eq, IH. split.
  - intros [-> ->]. reflexivity.
  - intros H. injection H as -> ->. split; reflexivity.
Qed.

Lemma str_eqb_refl (a : jsstr) : str_eqb a a = true.
Proof. apply str_eqb_eq. reflexivity. Qed.

Lemma str_eqb_neq (a b : jsstr) : str_eqb a b = false <-> a <> b.
Proof.
  rewrite <- str_eqb_eq. destruct (str_eqb a b); split; congruence.
Qed.

Lemma trimStart_split (s : jsstr) :
  exists w, s = w ++ trimStart s /\ forallb is_space w = true.
Proof.
  induction s as [|c t [w [Hs Hw]]]; simpl.
  - exists []. split; reflexivity.
  - destruct (is_space c) eqn:Hc.
    + exists (c :: w). simpl. rewrite Hc, Hw. split; [f_equal; exact Hs|reflexivity].
    + exists []. split; reflexivity.
Qed.

Lemma trimStart_head (s : jsstr) (c : char) (t : jsstr) :
  trimStart s = c :: t -> is_space c = false.
Proof.
  induction s as [|x s IH]; simpl; [discriminate|].
  destruct (is_space x) eqn:Hx; [exact IH|].
  intros H. injection H as -> _. exact Hx.
Qed.

Lemma trimStart_nonspace (c : char) (t : jsstr) :
  is_space c = false -> trimStart (c :: t) = c :: t.
Proof. intros H. simpl. rewrite H. reflexivity. Qed.

Lemma trimStart_spaces (w s : jsstr) :
  forallb is_space w = true -> trimStart (w ++ s) = trimStart s.
Proof.
  induction w as [|c w IH]; simpl; [reflexivity|].
  rewrite andb_true_iff. intros [-> Hw]. exact (IH Hw).
Qed.

Lemma trimStart_all_space (w : jsstr) :
  forallb is_space w = true -> trimStart w = [].
Proof.
  intros H. rewrite <- (app_nil_r w), trimStart_spaces by exact H. reflexivity.
Qed.

Lemma trimStart_idem (s : jsstr) : trimStart (trimStart s) = trimStart s.
Proof.
  destruct (trimStart s) as [|c t] eqn:E; [reflexivity|].
  apply trimStart_nonspace. exact (trimStart_head _ _ _ E).
Qed.

Lemma forallb_rev (A : Type) (p : A -> bool) (l : list A) :
  forallb p (rev l) = forallb p l.
Proof.
  induction l as [|x l IH]; simpl; [reflexivity|].
  rewrite forallb_app, IH. simpl. rewrite andb_true_r. apply andb_comm.
Qed.

Lemma trimEnd_split (s : jsstr) :
  exists w, s = trimEnd s ++ w /\ forallb is_space w = true.
Proof.
  unfold trimEnd. destruct (trimStart_split (rev s)) as [w [Hs Hw]].
  exists (rev w). split.
  - rewrite <- rev_app_distr, <- Hs, rev_involutive. reflexivity.
  - rewrite forallb_rev. exact Hw.
Qed.

Lemma trimEnd_last (s t : jsstr) (c : char) :
  trimEnd s = t ++ [c] -> is_space c = false.
Proof.
  unfold trimEnd. intros H.
  apply (f_equal (@rev char)) in H. rewrite rev_involutive, rev_app_distr in H.
  simpl in H. exact (trimStart_head _ _ _ H).
Qed.

Lemma trimEnd_app_nonspace (s : jsstr) (c : char) :
  is_space c = false -> trimEnd (s ++ [c]) = s ++ [c].
Proof.
  intros H. unfold trimEnd. rewrite rev_app_distr. simpl. rewrite H.
  simpl. rewrite rev_involutive. reflexivity.
Qed.

Lemma trimEnd_spaces (s w : jsstr) :
  forallb is_space w = true -> trimEnd (s ++ w) = trimEnd s.
Proof.
  intros H. unfold trimEnd. rewrite rev_app_distr, trimStart_spaces;
    [reflexivity|]. rewrite forallb_rev. exact H.
Qed.

Lemma trimEnd_nil : trimEnd [] = [].
Proof. reflexivity. Qed.

(** A string is the trimmed string between two runs of white space. *)
Lemma trim_split (s : jsstr) :
  exists w1 w2, s = w1 ++ trim s ++ w2
                /\ forallb is_space w1 = true /\ forallb is_space w2 = true.
Proof.
  destruct (trimStart_split s) as [w1 [H1 Hw1]].
  destruct (trimEnd_split (trimStart s)) as [w2 [H2 Hw2]].
  exists w1, w2. unfold trim. rewrite <- H2, <- H1. auto.
Qed.

Lemma trim_head (s : jsstr) (c : char) (t : jsstr) :
  trim s = c :: t -> is_space c = false.
Proof.
  unfold trim. intros H.
  destruct (trimEnd_split (trimStart s)) as [w [Hs _]].
  rewrite H in Hs. simpl in Hs. exact (trimStart_head _ _ _ Hs).
Qed.

(** Trimming a string that has no white space at either end. *)
Lemma trim_tight (c : char) (t : jsstr) (d : char) :
  is_space c = false -> is_space d = false ->
  trim (c :: t ++ [d]) = c :: t ++ [d].
Proof.
  intros Hc Hd. unfold trim. rewrite trimStart_nonspace by exact Hc.
  change (c :: t ++ [d]) with ((c :: t) ++ [d]).
  apply trimEnd_app_nonspace. exact Hd.
Qed.

Lemma trim_single (c : char) : is_space c = false -> trim [c] = [c].
Proof.
  intros Hc. unfold trim. rewrite trimStart_nonspace by exact Hc.
  apply (trimEnd_app_nonspace []). exact Hc.
Qed.

Lemma startsWith_app (w s : jsstr) : startsWith (w ++ s) w = true.
Proof.
  induction w as [|c w IH]; [destruct s; reflexivity|].
  simpl. rewrite N.eqb_refl. exact IH.
Qed.

Lemma startsWith_split (s w : jsstr) :
  startsWith s w = true -> s = w ++ skipn (length w) s.
Proof.
  revert s. induction w as [|c w IH]; intros s; [reflexivity|].
  destruct s as [|a s]; [discriminate|].
  change (startsWith (a :: s) (c :: w)) with (N.eqb c a && startsWith s w).
  rewrite andb_true_iff, N.eqb_eq. intros [-> H]. simpl. f_equal. exact (IH s H).
Qed.


(** ** [JSON.parse]: the fuel is enough *)

Lemma skip_length (s : jsstr) : length (skip s) <= length s.
Proof.
  induction s as [|c t IH]; simpl; [lia|].
  destruct (json_ws c); simpl; lia.
Qed.

Lemma skip_cons_length (s : jsstr) (c : char) (t : jsstr) :
  skip s = c :: t -> length t < length s.
Proof.
  intros H. pose proof (skip_length s) as Hl. rewrite H in Hl. simpl in Hl. lia.
Qed.

Lemma hex4_length (s : jsstr) (u : char) (r : jsstr) :
  hex4 s = Some (u, r) -> length r < length s.
Proof.
  destruct s as [|a [|b [|c [|d t]]]]; try discriminate. simpl.
  destruct (hex_val a), (hex_val b), (hex_val c), (hex_val d); try discriminate.
  intros H. injection H as _ <-. lia.
Qed.

Lemma parse_string_length (fuel : nat) :
  forall acc s k r,
    parse_string fuel acc s = Some (k, r) -> length r < length s.
Proof.
  induction fuel as [|f IH]; intros acc s k r; [discriminate|].
  destruct s as [|c t]; [discriminate|]. cbn [parse_string].
  destruct (c =? 34)%N.
  { intros H. injection H as _ <-. simpl. lia. }
  destruct (c =? 92)%N.
  - destruct t as [|e t']; [discriminate|].
    destruct (e =? 117)%N.
    + destruct (hex4 t') as [[u t'']|] eqn:Eh; [|discriminate].
      intros H. apply IH in H. apply hex4_length in Eh. simpl. lia.
    + destruct (unescape e); [|discriminate].
      intros H. apply IH in H. simpl. lia.
  - destruct (c <? 32)%N; [discriminate|].
    intros H. apply IH in H. simpl. lia.
Qed.

Lemma digits_length (s d r : jsstr) :
  digits s = (d, r) -> length r <= length s.
Proof.
  revert d r. induction s as [|c t IH]; intros d r; simpl.
  - intros H. injection H as _ <-. simpl. lia.
  - destruct (is_digit c).
    + destruct (digits t) as [d' r'] eqn:E. intros H. injection H as _ <-.
      specialize (IH d' r' eq_refl). lia.
    + intros H. injection H as _ <-. simpl. lia.
Qed.

Lemma parse_number_length (s tok r : jsstr) :
  parse_number s = Some (tok, r) -> length r < length s.
Proof.
  unfold parse_number.
  set (sg := match s with
             | c :: t => if (c =? 45)%N then ([c], t) else ([], s)
             | [] => ([], s)
             end).
  assert (Hsg : length (snd sg) <= length s).
  { subst sg. destruct s as [|c t]; simpl; [lia|].
    destruct (c =? 45)%N; simpl; lia. }
  destruct sg as [sign s1]. simpl in Hsg.
  set (ip := match s1 with
             | c :: t =>
                 if (c =? 48)%N then Some ([c], t)
                 else if is_digit c
                      then let (d, r0) := digits t in Some (c :: d, r0)
                      else None
             | [] => None
             end).
  assert (Hip : forall i s2, ip = Some (i, s2) -> length s2 < length s1).
  { subst ip. intros i s2. destruct s1 as [|c t]; [discriminate|].
    destruct (c =? 48)%N.
    - intros H. injection H as _ <-. simpl. lia.
    - destruct (is_digit c); [|discriminate].
      destruct (digits t) as [d r0] eqn:E. intros H. injection H as _ <-.
      apply digits_length in E. simpl. lia. }
  destruct ip as [[i s2]|]; [|discriminate].
  specialize (Hip i s2 eq_refl).
  set (fp := match s2 with
             | c :: t =>
                 if (c =? 46)%N
                 then match digits t with
                      | ([], _) => None
                      | (d, r0) => Some (c :: d, r0)
                      end
                 else Some ([], s2)
             | [] => Some ([], s2)
             end).
  assert (Hfp : forall f s3, fp = Some (f, s3) -> length s3 <= length s2).
  { subst fp. intros f s3. destruct s2 as [|c t].
    - intros H. injection H as _ <-. lia.
    - destruct (c =? 46)%N.
      + destruct (digits t) as [d r0] eqn:E. apply digits_length in E.
        destruct d; [discriminate|]. intros H. injection H as _ <-. simpl. lia.
      + intros H. injection H as _ <-. lia. }
  destruct fp as [[f s3]|]; [|discriminate].
  specialize (Hfp f s3 eq_refl).
  set (ep := match s3 with
             | c :: t =>
                 if ((c =? 101) || (c =? 69))%N
                 then let (sg0, t') :=
                        match t with
                        | g :: u =>
                            if ((g =? 43) || (g =? 45))%N then ([g], u) else ([], t)
                        | [] => ([], t)
                        end in
                      match digits t' with
                      | ([], _) => None
                      | (d, r0) => Some (c :: sg0 ++ d, r0)
                      end
                 else Some ([], s3)
             | [] => Some ([], s3)
             end).
  assert (Hep : forall e s4, ep = Some (e, s4) -> length s4 <= length s3).
  { subst ep. intros e s4. destruct s3 as [|c t].
    - intros H. injection H as _ <-. lia.
    - destruct ((c =? 101) || (c =? 69))%N.
      + set (q := match t with
                  | g :: u =>
                      if ((g =? 43) || (g =? 45))%N then ([g], u) else ([], t)
                  | [] => ([], t)
                  end).
        assert (Hq : length (snd q) <= length t).
        { subst q. destruct t as [|g u]; simpl; [lia|].
          destruct ((g =? 43) || (g =? 45))%N; simpl; lia. }
        destruct q as [sg0 t']. simpl in Hq.
        destruct (digits t') as [d r0] eqn:E. apply digits_length in E.
        destruct d; [discriminate|]. intros H. injection H as _ <-. simpl. lia.
      + intros H. injection H as _ <-. lia. }
  destruct ep as [[e s4]|]; [|discriminate].
  specialize (Hep e s4 eq_refl).
  intros H. injection H as _ <-. lia.
Qed.

Lemma keyword_length (w : string) (v v' : json) (s r : jsstr) :
  0 < length (lit w) -> keyword w v s = Some (v', r) -> length r < length s.
Proof.
  unfold keyword. intros Hw. destruct (startsWith s (lit w)) eqn:E; [|discriminate].
  apply startsWith_split in E. intros H. injection H as _ <-.
  rewrite E at 2. rewrite length_app. lia.
Qed.

Lemma parse_rest_length (fuel : nat) :
  (forall s v r, parse_value fuel s = Some (v, r) -> length r < length s)
  /\ (forall acc s v r,
        parse_elements fuel acc s = Some (v, r) -> length r < length s)
  /\ (forall acc s v r,
        parse_members fuel acc s = Some (v, r) -> length r < length s).
Proof.
  induction fuel as [|f (IHv & IHe & IHm)].
  - repeat split; intros; discriminate.
  - split; [|split].
    + intros s v r. cbn [parse_value].
      destruct (skip s) as [|c t] eqn:Es; [discriminate|].
      pose proof (skip_cons_length _ _ _ Es) as Hs.
      destruct (c =? 123)%N.
      { destruct (skip t) as [|d r0] eqn:Et; [discriminate|].
        apply skip_cons_length in Et.
        destruct (d =? 125)%N.
        - intros H. injection H as _ <-. lia.
        - intros H. apply IHm in H. lia. }
      destruct (c =? 91)%N.
      { destruct (skip t) as [|d r0] eqn:Et; [discriminate|].
        apply skip_cons_length in Et.
        destruct (d =? 93)%N.
        - intros H. injection H as _ <-. lia.
        - intros H. apply IHe in H. lia. }
      destruct (c =? 34)%N.
      { destruct (parse_string (S (length t)) [] t) as [[str r0]|] eqn:Ep;
          [|discriminate].
        apply parse_string_length in Ep. intros H. injection H as _ <-. lia. }
      destruct (c =? 116)%N.
      { intros H. apply keyword_length in H; [simpl in H; lia|simpl; lia]. }
      destruct (c =? 102)%N.
      { intros H. apply keyword_length in H; [simpl in H; lia|simpl; lia]. }
      destruct (c =? 110)%N.
      { intros H. apply keyword_length in H; [simpl in H; lia|simpl; lia]. }
      destruct (parse_number (c :: t)) as [[tok r0]|] eqn:Ep; [|discriminate].
      apply parse_number_length in Ep. intros H. injection H as _ <-.
      simpl in Ep. lia.
    + intros acc s v r. cbn [parse_elements].
      destruct (parse_value f s) as [[v0 r0]|] eqn:Ev; [|discriminate].
      apply IHv in Ev.
      destruct (skip r0) as [|d r'] eqn:Er; [discriminate|].
      apply skip_cons_length in Er.
      destruct (d =? 44)%N.
      { intros H. apply IHe in H. lia. }
      destruct (d =? 93)%N; [|discriminate].
      intros H. injection H as _ <-. lia.
    + intros acc s v r. cbn [parse_members].
      destruct (skip s) as [|q t] eqn:Es; [discriminate|].
      apply skip_cons_length in Es.
      destruct (q =? 34)%N; [|discriminate].
      destruct (parse_string (S (length t)) [] t) as [[k r0]|] eqn:Ep;
        [|discriminate].
      apply parse_string_length in Ep.
      destruct (skip r0) as [|d r'] eqn:Er; [discriminate|].
      apply skip_cons_length in Er.
      destruct (d =? 58)%N; [|discriminate].
      destruct (parse_value f r') as [[v0 r'']|] eqn:Ev; [|discriminate].
      apply IHv in Ev.
      destruct (skip r'') as [|e r3] eqn:E3; [discriminate|].
      apply skip_cons_length in E3.
      destruct (e =? 44)%N.
      { intros H. apply IHm in H. lia. }
      destruct (e =? 125)%N; [|discriminate].
      intros H. injection H as _ <-. lia.
Qed.

(** Past twice the length of the text, more fuel changes nothing. *)
Lemma parse_stable (fuel : nat) :
  (forall s, 2 * length s <= fuel -> parse_value (S fuel) s = parse_value fuel s)
  /\ (forall acc s,
        2 * length s + 1 <= fuel ->
        parse_elements (S fuel) acc s = parse_elements fuel acc s)
  /\ (forall acc s,
        2 * length s + 1 <= fuel ->
        parse_members (S fuel) acc s = parse_members fuel acc s).
Proof.
  induction fuel as [|f (IHv & IHe & IHm)].
  - split; [|split; intros; lia].
    intros s Hs. destruct s; [reflexivity|simpl in Hs; lia].
  - destruct (parse_rest_length f) as (Lv & _ & _).
    split; [|split].
    + intros s Hs. set (g := S f) at 1.
      cbn [parse_value].
      destruct (skip s) as [|c t] eqn:Es; [reflexivity|].
      apply skip_cons_length in Es.
      destruct (c =? 123)%N.
      { destruct (skip t) as [|d r0]; [reflexivity|].
        destruct (d =? 125)%N; [reflexivity|]. subst g. apply IHm. lia. }
      destruct (c =? 91)%N.
      { destruct (skip t) as [|d r0]; [reflexivity|].
        destruct (d =? 93)%N; [reflexivity|]. subst g. apply IHe. lia. }
      reflexivity.
    + intros acc s Hs. set (g := S f) at 1.
      cbn [parse_elements]. subst g. rewrite IHv by lia.
      destruct (parse_value f s) as [[v0 r0]|] eqn:Ev; [|reflexivity].
      apply Lv in Ev.
      destruct (skip r0) as [|d r'] eqn:Er; [reflexivity|].
      apply skip_cons_length in Er.
      destruct (d =? 44)%N; [|reflexivity]. apply IHe. lia.
    + intros acc s Hs. set (g := S f) at 1.
      cbn [parse_members].
      destruct (skip s) as [|q t] eqn:Es; [reflexivity|].
      apply skip_cons_length in Es.
      destruct (q =? 34)%N; [|reflexivity].
      destruct (parse_string (S (length t)) [] t) as [[k r0]|] eqn:Ep;
        [|reflexivity].
      apply parse_string_length in Ep.
      destruct (skip r0) as [|d r'] eqn:Er; [reflexivity|].
      apply skip_cons_length in Er.
      destruct (d =? 58)%N; [|reflexivity].
      subst g. rewrite IHv by lia.
      destruct (parse_value f r') as [[v0 r'']|] eqn:Ev; [|reflexivity].
      apply Lv in Ev.
      destruct (skip r'') as [|e r3] eqn:E3; [reflexivity|].
      apply skip_cons_length in E3.
      destruct (e =? 44)%N; [|reflexivity]. apply IHm. lia.
Qed.

(** [JSON_parse] gives the answer of the parser with any larger fuel. *)
Lemma JSON_parse_fuel (s : jsstr) (fuel : nat) :
  2 * length s + 2 <= fuel ->
  parse_value fuel s = parse_value (2 * length s + 2) s.
Proof.
  intros H. induction H as [|f Hf IH]; [reflexivity|].
  rewrite <- IH. apply (proj1 (parse_stable f)). lia.
Qed.

Lemma parse_string_fuel (fuel : nat) :
  forall acc s,
    length s < fuel -> parse_string (S fuel) acc s = parse_string fuel acc s.
Proof.
  induction fuel as [|f IH]; intros acc s Hl; [lia|].
  set (g := S f) at 1. cbn [parse_string].
  destruct s as [|c t]; [reflexivity|]. simpl in Hl.
  destruct (c =? 34)%N; [reflexivity|].
  destruct (c =? 92)%N.
  - destruct t as [|e t']; [reflexivity|]. simpl in Hl.
    destruct (e =? 117)%N.
    + destruct (hex4 t') as [[u t'']|] eqn:Eh; [|reflexivity].
      apply hex4_length in Eh. subst g. apply IH. lia.
    + destruct (unescape e); [|reflexivity]. subst g. apply IH. lia.
  - destruct (c <? 32)%N; [reflexivity|]. subst g. apply IH. lia.
Qed.

(** ** The matcher on the patterns of the sources *)

Lemma star_loop_chr (ml : bool) (p : char -> bool) (k : cont) (fuel : nat) :
  forall bef aft cs,
    length aft <= fuel ->
    star_loop (m ml (Chr p)) k fuel (mkPos bef aft cs) = star_chr p k bef aft cs.
Proof.
  induction fuel as [|f IH]; intros bef aft cs Hlen.
  - destruct aft; [reflexivity|simpl in Hlen; lia].
  - destruct aft as [|c t]; [reflexivity|].
    simpl in Hlen. cbn [star_loop star_chr].
    change (m ml (Chr p) ?k' (mkPos bef (c :: t) cs))
      with (if p c then k' (mkPos (c :: bef) t cs) else None).
    destruct (p c); [|reflexivity].
    cbn [after length].
    destruct (Nat.ltb_spec (length t) (S (length t))) as [_|H]; [|lia].
    rewrite IH by lia. reflexivity.
Qed.

Lemma m_star_chr (ml : bool) (p : char -> bool) (k : cont) (x : pos) :
  m ml (Star (Chr p)) k x = star_chr p k (before x) (after x) (caps x).
Proof.
  destruct x as [bef aft cs].
  change (m ml (Star (Chr p)) k (mkPos bef aft cs))
    with (star_loop (m ml (Chr p)) k (length aft) (mkPos bef aft cs)).
  apply star_loop_chr. apply Nat.le_refl.
Qed.

(** When what follows cannot start with a character of the class, only the
    longest run is tried with success. *)
Lemma star_chr_longest (p : char -> bool) (k : cont) :
  (forall bef c t cs, p c = true -> k (mkPos bef (c :: t) cs) = None) ->
  forall aft bef cs,
    exists w r,
      aft = w ++ r /\ forallb p w = true
      /\ match r with c :: _ => p c = false | [] => True end
      /\ star_chr p k bef aft cs = k (mkPos (rev w ++ bef) r cs).
Proof.
  intros Hk. induction aft as [|c t IH]; intros bef cs.
  - exists [], []. repeat split.
  - simpl. destruct (p c) eqn:Hc.
    + destruct (IH (c :: bef) cs) as (w & r & Ht & Hw & Hr & Hs).
      exists (c :: w), r. simpl. rewrite Hc, Hw, <- app_assoc. simpl.
      repeat split; try assumption.
      * f_equal. exact Ht.
      * rewrite Hs. destruct (k (mkPos (rev w ++ c :: bef) r cs)) eqn:E;
          [reflexivity|]. apply Hk. exact Hc.
    + exists [], (c :: t). repeat split. exact Hc.
Qed.

(** The run of white space in front of a string is what [trimStart] drops. *)
Lemma longest_run_trimStart (w r : jsstr) :
  forallb is_space w = true ->
  match r with c :: _ => is_space c = false | [] => True end ->
  trimStart (w ++ r) = r.
Proof.
  intros Hw Hr. rewrite trimStart_spaces by exact Hw.
  destruct r as [|c t]; [reflexivity|]. apply trimStart_nonspace. exact Hr.
Qed.

(** A literal word in front of a pattern. *)
Lemma m_word (ml : bool) (w : jsstr) (r : re) (k : cont) :
  forall bef aft cs,
    m ml (word w r) k (mkPos bef aft cs)
    = if startsWith aft w
      then m ml r k (mkPos (rev w ++ bef) (skipn (length w) aft) cs)
      else None.
Proof.
  induction w as [|c w IH]; intros bef aft cs.
  - destruct aft; reflexivity.
  - cbn [word m after before caps startsWith].
    destruct aft as [|a t]; [reflexivity|].
    change (m ml (c1 c) (m ml (word w r) k) (mkPos bef (a :: t) cs))
      with (if N.eqb c a then m ml (word w r) k (mkPos (a :: bef) t cs) else None).
    change (startsWith (a :: t) (c :: w)) with (N.eqb c a && startsWith t w).
    destruct (N.eqb_spec c a) as [->|Hne]; cbn [andb]; [|reflexivity].
    rewrite IH. simpl. rewrite <- app_assoc. reflexivity.
Qed.

(** *** [/;?\s*$/] *)

Lemma star_space_eol (aft : jsstr) :
  forall bef cs,
    star_chr is_space (m false Eol (fun y => Some y)) bef aft cs
    = if forallb is_space aft then Some (mkPos (rev aft ++ bef) [] cs) else None.
Proof.
  induction aft as [|c t IH]; intros bef cs.
  - reflexivity.
  - simpl. destruct (is_space c) eqn:Hc; [|reflexivity].
    rewrite IH. destruct (forallb is_space t); simpl.
    + rewrite <- app_assoc. reflexivity.
    + reflexivity.
Qed.

Lemma m_spaces_eol (x : pos) :
  m false (Seq (Star ws) Eol) (fun y => Some y) x
  = if forallb is_space (after x)
    then Some (mkPos (rev (after x) ++ before x) [] (caps x)) else None.
Proof.
  change (m false (Seq (Star ws) Eol) (fun y => Some y) x)
    with (m false (Star (Chr is_space)) (m false Eol (fun y => Some y)) x).
  rewrite m_star_chr. apply star_space_eol.
Qed.

Lemma match_here_tail (bef aft : jsstr) :
  match_here false CTable.re_tail (mkPos bef aft [])
  = if tail_shape aft then Some (mkPos (rev aft ++ bef) [] []) else None.
Proof.
  unfold match_here, CTable.re_tail, tail_shape. cbn [before after].
  set (K := m false (Seq (Star ws) Eol) (fun y => Some y)).
  change (m false (Seq (Opt (c1 CTable.semicolon)) (Seq (Star ws) Eol))
            (fun y => Some y) (mkPos bef aft []))
    with (match m false (c1 CTable.semicolon) K (mkPos bef aft []) with
          | Some y => Some y
          | None => K (mkPos bef aft [])
          end).
  destruct aft as [|c t].
  - change (m false (c1 CTable.semicolon) K (mkPos bef [] [])) with (@None pos).
    unfold K. rewrite m_spaces_eol. reflexivity.
  - change (m false (c1 CTable.semicolon) K (mkPos bef (c :: t) []))
      with (if N.eqb CTable.semicolon c then K (mkPos (c :: bef) t []) else None).
    rewrite (N.eqb_sym CTable.semicolon c). unfold K. rewrite !m_spaces_eol.
    cbn [after before caps].
    destruct (N.eqb_spec c CTable.semicolon) as [->|Hne].
    + change (forallb is_space (CTable.semicolon :: t)) with false.
      cbn [andb orb].
      destruct (forallb is_space t).
      * simpl. rewrite <- app_assoc. reflexivity.
      * reflexivity.
    + cbn [andb]. rewrite orb_false_r. reflexivity.
Qed.

Lemma search_tail (aft : jsstr) :
  forall bef,
    exists x,
      search false CTable.re_tail bef aft = Some (x, mkPos (rev aft ++ bef) [] [])
      /\ length (after x) <= length aft
      /\ (length (after x) = length aft <-> tail_shape aft = true).
Proof.
  induction aft as [|c t IH]; intros bef.
  - exists (mkPos bef [] []). repeat split; reflexivity.
  - cbn [search]. rewrite match_here_tail.
    destruct (tail_shape (c :: t)) eqn:E.
    + exists (mkPos bef (c :: t) []). repeat split; auto.
    + destruct (IH (c :: bef)) as (x & Hx & Hl & _).
      exists x. simpl. rewrite <- app_assoc. simpl.
      repeat split; try (exact Hx); try lia; try discriminate.
Qed.

(** What is left of a string once the tail pattern is cut is empty exactly
    when the whole string is the tail: a semicolon at most, then white
    space. *)
Lemma replace_tail_empty (s : jsstr) :
  replace_first false CTable.re_tail [] s = [] <-> tail_shape s = true.
Proof.
  unfold replace_first. destruct (search_tail s []) as (x & Hx & Hl & Hiff).
  rewrite Hx. cbn [expand flat_map after app]. rewrite app_nil_r.
  rewrite <- Hiff. split.
  - intros H. apply (f_equal (@length char)) in H.
    rewrite length_firstn in H. simpl in H. lia.
  - intros H. rewrite H, Nat.sub_diag. reflexivity.
Qed.

Lemma tail_shape_trim (s : jsstr) :
  tail_shape (trim s) = true <-> trim s = [] \/ trim s = [CTable.semicolon].
Proof.
  unfold tail_shape. split.
  - intros H. apply orb_true_iff in H. destruct H as [H|H].
    + left. destruct (trim s) as [|c t] eqn:E; [reflexivity|].
      simpl in H. rewrite (trim_head _ _ _ E) in H. discriminate.
    + destruct (trim s) as [|c t] eqn:E; [discriminate|].
      apply andb_true_iff in H. destruct H as [Hc Ht].
      apply N.eqb_eq in Hc. subst c. right.
      destruct t as [|d t'] using rev_ind; [reflexivity|].
      rewrite forallb_app in Ht. simpl in Ht.
      unfold trim in E. change (CTable.semicolon :: t' ++ [d])
        with ((CTable.semicolon :: t') ++ [d]) in E.
      rewrite (trimEnd_last _ _ _ E), andb_false_r in Ht. discriminate.
  - intros [-> | ->]; reflexivity.
Qed.

(** *** The matcher only moves forward, and the replacement loop has fuel
    enough *)

Lemma star_loop_forward (body : cont -> cont) (k : cont) :
  (forall k' x y,
      body k' x = Some y ->
      exists z, k' z = Some y /\ length (after z) <= length (after x)) ->
  forall fuel x y,
    star_loop body k fuel x = Some y ->
    exists z, k z = Some y /\ length (after z) <= length (after x).
Proof.
  intros Hb. induction fuel as [|f IH]; intros x y; cbn [star_loop].
  - intros H. exists x. split; [exact H|lia].
  - destruct (body _ x) as [r|] eqn:E.
    + intros H. injection H as ->.
      destruct (Hb _ _ _ E) as (z1 & Hz1 & Hl1).
      destruct (length (after z1) <? length (after x)); [|discriminate].
      destruct (IH _ _ Hz1) as (z & Hz & Hl). exists z. split; [exact Hz|lia].
    + intros H. exists x. split; [exact H|lia].
Qed.

Lemma m_forward (ml : bool) (r : re) :
  forall k x y,
    m ml r k x = Some y ->
    exists z, k z = Some y /\ length (after z) <= length (after x).
Proof.
  induction r as [p|a IHa b IHb|a IHa b IHb|a IHa|a IHa|i a IHa| | |];
    intros k x y; cbn [m].
  - destruct (after x) as [|c t] eqn:E; [discriminate|].
    destruct (p c); [|discriminate].
    intros H. eexists. split; [exact H|]. simpl. lia.
  - intros H. destruct (IHa _ _ _ H) as (z1 & H1 & L1).
    destruct (IHb _ _ _ H1) as (z & Hz & L). exists z. split; [exact Hz|lia].
  - destruct (m ml a k x) as [r|] eqn:E.
    + intros H. injection H as ->. exact (IHa _ _ _ E).
    + exact (IHb _ _ _).
  - apply star_loop_forward. exact IHa.
  - destruct (m ml a k x) as [r|] eqn:E.
    + intros H. injection H as ->. exact (IHa _ _ _ E).
    + intros H. exists x. split; [exact H|lia].
  - intros H. destruct (IHa _ _ _ H) as (z1 & H1 & L1).
    eexists. split; [exact H1|]. simpl. exact L1.
  - destruct (at_bol ml x); [|discriminate].
    intros H. exists x. split; [exact H|lia].
  - destruct (at_eol ml x); [|discriminate].
    intros H. exists x. split; [exact H|lia].
  - destruct (at_wordb x); [|discriminate].
    intros H. exists x. split; [exact H|lia].
Qed.

Lemma search_forward (ml : bool) (r : re) (aft : jsstr) :
  forall bef x y,
    search ml r bef aft = Some (x, y) ->
    length (after y) <= length (after x) /\ length (after x) <= length aft.
Proof.
  induction aft as [|c t IH]; intros bef x y; cbn [search];
    destruct (match_here ml r _) as [y'|] eqn:E.
  - intros H. injection H as <- <-.
    destruct (m_forward _ _ _ _ _ E) as (z & Hz & L). injection Hz as ->.
    split; [exact L|simpl; lia].
  - discriminate.
  - intros H. injection H as <- <-.
    destruct (m_forward _ _ _ _ _ E) as (z & Hz & L). injection Hz as ->.
    split; [exact L|simpl; lia].
  - intros H. destruct (IH _ _ _ H) as [L1 L2]. split; [exact L1|simpl; lia].
Qed.

(** With a unit of fuel more than the subject is long, the replacement
    loop never runs dry: more fuel changes nothing. *)
Lemma replace_loop_fuel (ml : bool) (r : re) (tpl : list titem) (fuel : nat) :
  forall bef aft,
    length aft < fuel ->
    replace_loop (S fuel) ml r tpl bef aft = replace_loop fuel ml r tpl bef aft.
Proof.
  induction fuel as [|f IH]; intros bef aft Hl; [lia|].
  set (g := S f) at 1. cbn [replace_loop].
  destruct (search ml r bef aft) as [[x y]|] eqn:Es; [|reflexivity].
  destruct (search_forward _ _ _ _ _ _ Es) as [L1 L2].
  destruct (Nat.ltb_spec (length (after y)) (length (after x))) as [Hlt|Hge].
  - subst g. rewrite IH by lia. reflexivity.
  - destruct (after y) as [|c t] eqn:Ey; [reflexivity|].
    subst g. rewrite IH by (simpl in L1; lia). reflexivity.
Qed.

(** *** The option-block pattern *)

Lemma m_c1 (ml : bool) (c : char) (k : cont) (x : pos) :
  m ml (c1 c) k x
  = match after x with
    | a :: t => if N.eqb c a then k (mkPos (a :: before x) t (caps x)) else None
    | [] => None
    end.
Proof. reflexivity. Qed.

Lemma m_seq (ml : bool) (a b : re) (k : cont) (x : pos) :
  m ml (Seq a b) k x = m ml a (m ml b k) x.
Proof. reflexivity. Qed.

Lemma space_is_not (c a : char) :
  is_space a = true -> is_space c = false -> N.eqb c a = false.
Proof.
  intros Ha Hc. apply N.eqb_neq. intros ->. congruence.
Qed.

(** White space, then a character that is not white space, then the rest:
    the run of white space is skipped whole. *)
Lemma m_spaces_then (ml : bool) (c : char) (r : re) (k : cont) (x : pos) :
  is_space c = false ->
  exists w,
    forallb is_space w = true
    /\ after x = w ++ trimStart (after x)
    /\ m ml (Seq (Star ws) (Seq (c1 c) r)) k x
       = match trimStart (after x) with
         | a :: t =>
             if N.eqb c a
             then m ml r k (mkPos (a :: rev w ++ before x) t (caps x))
             else None
         | [] => None
         end.
Proof.
  intros Hc. rewrite m_seq. unfold ws. rewrite m_star_chr.
  destruct (star_chr_longest is_space (m ml (Seq (c1 c) r) k)) with
    (aft := after x) (bef := before x) (cs := caps x)
    as (w & s & Hs & Hw & Hh & He).
  { intros bef a t cs Ha. rewrite m_seq, m_c1. simpl.
    rewrite (space_is_not c a Ha Hc). reflexivity. }
  exists w. split; [exact Hw|].
  assert (Ht : trimStart (after x) = s).
  { rewrite Hs. apply longest_run_trimStart; assumption. }
  rewrite Ht. split; [exact Hs|].
  rewrite He, m_seq, m_c1. reflexivity.
Qed.

(** Any characters, then a closing brace: the match ends after the last
    closing brace. *)
Lemma star_any_rbrace (g : pos -> list (nat * jsstr)) (aft : jsstr) :
  forall bef cs,
    option_map after (star_chr (fun _ => true) (then_rbrace g) bef aft cs)
    = after_last_rbrace aft.
Proof.
  induction aft as [|c t IH]; intros bef cs.
  - reflexivity.
  - cbn [star_chr after_last_rbrace]. specialize (IH (c :: bef) cs).
    destruct (star_chr (fun _ => true) (then_rbrace g) (c :: bef) t cs) as [y|];
      cbn [option_map] in IH; rewrite <- IH; [reflexivity|].
    unfold then_rbrace. cbn [after before].
    destruct (N.eqb rbrace c); reflexivity.
Qed.

Lemma m_any_rbrace (ml : bool) (x : pos) :
  option_map after
    (m ml (Seq (Grp 1 (Star any)) (c1 rbrace)) (fun y => Some y) x)
  = after_last_rbrace (after x).
Proof.
  rewrite m_seq.
  change (m ml (Grp 1 (Star any)) (m ml (c1 rbrace) (fun y => Some y)) x)
    with (m ml (Star (Chr (fun _ => true)))
            (then_rbrace (fun y => (1, consumed x y) :: caps y)) x).
  rewrite m_star_chr. apply star_any_rbrace.
Qed.

(** The pattern tried at one position leaves what [block_tail] says. *)
Lemma match_here_block (bef aft : jsstr) :
  option_map after (match_here false CTable.re_option_block (mkPos bef aft []))
  = block_tail aft.
Proof.
  unfold match_here, CTable.re_option_block, block_tail. cbn [before after].
  rewrite m_word. destruct (startsWith aft (lit "option")); [|reflexivity].
  change (length (lit "option")) with 6.
  set (x1 := mkPos (rev (lit "option") ++ bef) (skipn 6 aft) []).
  destruct (m_spaces_then false 61%N
              (Seq (Star ws) (Seq (c1 lbrace) (Seq (Grp 1 (Star any)) (c1 rbrace))))
              (fun y => Some y) x1 eq_refl) as (w1 & _ & _ & ->).
  change (after x1) with (skipn 6 aft).
  destruct (trimStart (skipn 6 aft)) as [|c r1]; [reflexivity|].
  destruct (N.eqb 61 c); [|reflexivity].
  set (x2 := mkPos (c :: rev w1 ++ before x1) r1 (caps x1)).
  destruct (m_spaces_then false lbrace
              (Seq (Grp 1 (Star any)) (c1 rbrace))
              (fun y => Some y) x2 eq_refl) as (w2 & _ & _ & ->).
  change (after x2) with r1.
  destruct (trimStart r1) as [|d r2]; [reflexivity|].
  destruct (N.eqb lbrace d); [|reflexivity].
  apply m_any_rbrace.
Qed.

Lemma after_last_rbrace_some (s tail : jsstr) :
  after_last_rbrace s = Some tail ->
  exists body, s = body ++ rbrace :: tail /\ ~ In rbrace tail.
Proof.
  revert tail. induction s as [|c t IH]; intros tail; cbn [after_last_rbrace];
    [discriminate|].
  destruct (after_last_rbrace t) as [r|] eqn:E.
  - intros H. injection H as ->. destruct (IH tail eq_refl) as (body & Hb & Hn).
    subst t.
    exists (c :: body). split; [reflexivity|exact Hn].
  - destruct (N.eqb_spec rbrace c) as [<-|]; [|discriminate].
    intros H. injection H as ->. exists []. split; [reflexivity|].
    clear IH. revert E.
    induction tail as [|a tail IHt]; cbn [after_last_rbrace In]; [auto|].
    destruct (after_last_rbrace tail); [discriminate|].
    destruct (N.eqb_spec rbrace a); [discriminate|].
    intros _ [H|H]; [congruence|]. exact (IHt eq_refl H).
Qed.

Lemma after_last_rbrace_none (body tail : jsstr) :
  after_last_rbrace (body ++ rbrace :: tail) <> None.
Proof.
  induction body as [|c body IH]; cbn [app after_last_rbrace].
  - destruct (after_last_rbrace tail); [discriminate|].
    rewrite N.eqb_refl. discriminate.
  - destruct (after_last_rbrace (body ++ rbrace :: tail)); [discriminate|].
    contradiction.
Qed.

Lemma block_tail_some (aft tail : jsstr) :
  block_tail aft = Some tail ->
  exists w1 w2 body,
    aft = lit "option" ++ w1 ++ lit "=" ++ w2 ++ lbrace :: body ++ rbrace :: tail
    /\ spaces w1 /\ spaces w2 /\ ~ In rbrace tail.
Proof.
  unfold block_tail.
  destruct (startsWith aft (lit "option")) eqn:Hs; [|discriminate].
  apply startsWith_split in Hs. change (length (lit "option")) with 6 in Hs.
  destruct (trimStart_split (skipn 6 aft)) as (w1 & H1 & Hw1).
  destruct (trimStart (skipn 6 aft)) as [|c r1]; [discriminate|].
  destruct (N.eqb_spec 61 c) as [<-|]; [|discriminate].
  destruct (trimStart_split r1) as (w2 & H2 & Hw2).
  destruct (trimStart r1) as [|d r2]; [discriminate|].
  destruct (N.eqb_spec lbrace d) as [<-|]; [|discriminate].
  intros H. destruct (after_last_rbrace_some _ _ H) as (body & Hb & Hn).
  exists w1, w2, body. repeat split; try assumption.
  rewrite Hs at 1. rewrite H1. simpl. do 7 f_equal.
  rewrite H2, Hb. reflexivity.
Qed.

Lemma block_tail_none (w1 w2 body tail : jsstr) :
  spaces w1 -> spaces w2 ->
  block_tail (lit "option" ++ w1 ++ lit "=" ++ w2 ++ lbrace :: body ++ rbrace :: tail)
  <> None.
Proof.
  intros H1 H2. unfold block_tail. rewrite startsWith_app.
  change (skipn 6 (lit "option" ++ ?s)) with s.
  rewrite (trimStart_spaces w1 _ H1).
  change (trimStart (lit "=" ++ ?s)) with (61%N :: s).
  cbv iota. rewrite N.eqb_refl.
  rewrite (trimStart_spaces w2 _ H2).
  change (trimStart (lbrace :: ?s)) with (lbrace :: s).
  cbv iota. rewrite N.eqb_refl. apply after_last_rbrace_none.
Qed.

(** [search] finds the first position where the pattern matches. *)
Lemma search_some (ml : bool) (r : re) (aft : jsstr) :
  forall bef x y,
    search ml r bef aft = Some (x, y) ->
    exists pre post,
      aft = pre ++ post
      /\ x = mkPos (rev pre ++ bef) post []
      /\ match_here ml r x = Some y
      /\ forall pre' post',
           aft = pre' ++ post' -> length pre' < length pre ->
           match_here ml r (mkPos (rev pre' ++ bef) post' []) = None.
Proof.
  induction aft as [|c t IH]; intros bef x y; cbn [search].
  - destruct (match_here ml r (mkPos bef [] [])) as [y'|] eqn:E; [|discriminate].
    intros H. injection H as <- <-. exists [], []. repeat split; auto.
    intros pre' post' _ Hl. simpl in Hl. lia.
  - destruct (match_here ml r (mkPos bef (c :: t) [])) as [y'|] eqn:E.
    + intros H. injection H as <- <-. exists [], (c :: t). repeat split; auto.
      intros pre' post' _ Hl. simpl in Hl. lia.
    + intros H. destruct (IH _ _ _ H) as (pre & post & Ht & Hx & Hm & Hmin).
      exists (c :: pre), post. simpl. rewrite <- app_assoc. simpl.
      repeat split; auto.
      * f_equal. exact Ht.
      * intros pre' post' Hp Hl. destruct pre' as [|a pre'].
        -- simpl in Hp. subst post'. exact E.
        -- simpl in Hp. injection Hp as <- Hp. simpl. rewrite <- app_assoc.
           simpl. apply Hmin; [exact Hp|simpl in Hl; lia].
Qed.

Lemma search_none (ml : bool) (r : re) (aft : jsstr) :
  forall bef,
    search ml r bef aft = None ->
    forall pre post,
      aft = pre ++ post ->
      match_here ml r (mkPos (rev pre ++ bef) post []) = None.
Proof.
  induction aft as [|c t IH]; intros bef; cbn [search].
  - destruct (match_here ml r (mkPos bef [] [])) eqn:E; [discriminate|].
    intros _ pre post H. symmetry in H. apply app_eq_nil in H.
    destruct H as [-> ->]. exact E.
  - destruct (match_here ml r (mkPos bef (c :: t) [])) eqn:E; [discriminate|].
    intros H pre post Hp. destruct pre as [|a pre].
    + simpl in Hp. subst post. exact E.
    + simpl in Hp. injection Hp as <- Hp. simpl. rewrite <- app_assoc.
      simpl. exact (IH _ H _ _ Hp).
Qed.

(** ** The completeness scanner *)

(** One turn of the loop is one step of the reader, unless the turn
    returns. *)
Lemma scan_loop_step (l : lexer) (c : char) (rest : jsstr) :
  CTable.scan_loop (scan_of l) (c :: rest)
  = if closing l c then tail_ok rest
    else CTable.scan_loop (scan_of (lex_step l c)) rest.
Proof.
  destruct l as [d md e]. unfold closing, lex_step, scan_of.
  cbn [CTable.scan_loop CTable.escapeNext CTable.braceCount CTable.inString
       CTable.stringChar depth mode escaped].
  destruct e; [reflexivity|]. cbn [negb andb].
  destruct (N.eqb_spec c backslash) as [->|Hb].
  { destruct md; reflexivity. }
  destruct (N.eqb_spec c dquote) as [->|Hd].
  { destruct md; reflexivity. }
  destruct (N.eqb_spec c squote) as [->|Hs].
  { destruct md; reflexivity. }
  cbn [orb andb].
  destruct md; cbn [negb CTable.opt_char_eqb]; try reflexivity.
  destruct (N.eqb_spec c lbrace) as [->|Hl]; [reflexivity|].
  destruct (N.eqb_spec c rbrace) as [->|Hr]; [|reflexivity].
  cbn [CTable.braceCount andb].
  destruct (d - 1 =? 0)%Z; reflexivity.
Qed.

Lemma tail_ok_spec (rest : jsstr) :
  tail_ok rest = true <-> at_most_one_semicolon rest.
Proof.
  unfold tail_ok, at_most_one_semicolon.
  rewrite str_eqb_eq, replace_tail_empty. apply tail_shape_trim.
Qed.

Lemma closing_depth (l : lexer) (c : char) :
  closing l c = true ->
  l = mkLexer 1 Outside false /\ c = rbrace /\ depth (lex_step l c) = 0%Z.
Proof.
  destruct l as [d md e]. unfold closing. simpl.
  destruct e; [discriminate|]. destruct md; try discriminate. simpl.
  destruct (N.eqb_spec c rbrace) as [->|]; [|discriminate]. simpl.
  intros H. apply Z.eqb_eq in H. assert (d = 1%Z) by lia. subst d.
  repeat split.
Qed.

Lemma not_closing_depth (l : lexer) (c : char) :
  closing l c = false -> (0 < depth l)%Z -> (0 < depth (lex_step l c))%Z.
Proof.
  destruct l as [d md e]. unfold closing, lex_step. simpl.
  destruct e; simpl; [auto|].
  destruct (N.eqb c backslash); simpl; [auto|].
  destruct md; simpl.
  - destruct (N.eqb c dquote); simpl; [auto|].
    destruct (N.eqb c squote); simpl; [auto|].
    destruct (N.eqb_spec c lbrace) as [->|]; simpl; [intros; lia|].
    destruct (N.eqb c rbrace); simpl; [|auto].
    intros H Hd. apply Z.eqb_neq in H. lia.
  - destruct (N.eqb c dquote); auto.
  - destruct (N.eqb c squote); auto.
Qed.

Lemma closing_rbrace :
  closing (mkLexer 1 Outside false) rbrace = true.
Proof. reflexivity. Qed.

(** The loop from a reader's state of positive depth: it answers [true]
    exactly when a brace brings the depth back to 0 for the first time and
    the tail test passes on what follows. *)
Lemma scan_loop_spec (s : jsstr) :
  forall l,
    (0 < depth l)%Z ->
    CTable.scan_loop (scan_of l) s = true
    <-> exists body rest,
          s = body ++ rbrace :: rest
          /\ lex_from l body = mkLexer 1 Outside false
          /\ (forall p q, body = p ++ q -> (0 < depth (lex_from l p))%Z)
          /\ tail_ok rest = true.
Proof.
  induction s as [|c s IH]; intros l Hd.
  - simpl. split.
    + intros H. apply Z.eqb_eq in H. lia.
    + intros (body & rest & H & _). destruct body; discriminate.
  - rewrite scan_loop_step. destruct (closing l c) eqn:Hc.
    + destruct (closing_depth l c Hc) as (Hl & Hcr & Hz). split.
      * intros Ht. exists [], s. subst c. repeat split; auto.
        intros p q Hpq. destruct p; [exact Hd|discriminate].
      * intros (body & rest & Hs & _ & Hpos & Ht).
        destruct body as [|b body].
        -- simpl in Hs. injection Hs as _ ->. exact Ht.
        -- simpl in Hs. injection Hs as <- _.
           specialize (Hpos [c] body eq_refl). unfold lex_from in Hpos.
           simpl in Hpos. lia.
    + rewrite (IH (lex_step l c) (not_closing_depth l c Hc Hd)). split.
      * intros (body & rest & Hs & Hl & Hpos & Ht).
        exists (c :: body), rest. repeat split; auto.
        -- simpl. f_equal. exact Hs.
        -- intros p q Hpq. destruct p as [|x p]; [exact Hd|].
           simpl in Hpq. injection Hpq as <- Hpq.
           exact (Hpos p q Hpq).
      * intros (body & rest & Hs & Hl & Hpos & Ht).
        destruct body as [|b body].
        -- simpl in Hs. injection Hs as -> _. unfold lex_from in Hl.
           simpl in Hl. subst l. rewrite closing_rbrace in Hc. discriminate.
        -- simpl in Hs. injection Hs as <- Hs.
           exists body, rest. repeat split; auto.
           intros p q Hpq. apply (Hpos (c :: p) q). simpl. f_equal. exact Hpq.
Qed.

Lemma startsWith_lbrace (t : jsstr) :
  startsWith t [lbrace] = true <-> exists t', t = lbrace :: t'.
Proof.
  destruct t as [|c t'];
    [split; [discriminate|intros [? H]; discriminate]|].
  change (startsWith (c :: t') [lbrace]) with (N.eqb lbrace c && startsWith t' []).
  replace (startsWith t' []) with true by (destruct t'; reflexivity).
  rewrite andb_true_r, N.eqb_eq. split.
  - intros <-. eexists. reflexivity.
  - intros [? H]. injection H as -> _. reflexivity.
Qed.

(** What [isCompleteJSON] decides. *)
Lemma isCompleteJSON_spec (text : jsstr) :
  CTable.isCompleteJSON text = true <-> complete text.
Proof.
  unfold CTable.isCompleteJSON, complete. cbv zeta.
  destruct (startsWith (trim text) [lbrace]) eqn:Hs; cbn [negb].
  2:{ split; [discriminate|intros [H _]; discriminate]. }
  destruct (proj1 (startsWith_lbrace _) Hs) as [t' Ht]. rewrite Ht.
  change CTable.scan0 with (scan_of lexer0).
  rewrite scan_loop_step. change (closing lexer0 lbrace) with false. cbv iota.
  change (lex_step lexer0 lbrace) with (mkLexer 1 Outside false).
  rewrite scan_loop_spec by (simpl; lia). split.
  - intros (body & rest & Hb & Hl & Hpos & Ht'). split; [reflexivity|].
    exists (lbrace :: body), rest. split.
    + repeat split.
      * simpl. f_equal. exact Hb.
      * exact Hl.
      * intros p q Hpq Hne. destruct p as [|x p]; [congruence|].
        simpl in Hpq. injection Hpq as <- Hpq. exact (Hpos p q Hpq).
    + apply tail_ok_spec. exact Ht'.
  - intros (_ & body & rest & (Hb & Hl & Hpos) & Ht').
    destruct body as [|b body]; [discriminate Hl|].
    simpl in Hb. injection Hb as <- Hb.
    exists body, rest. repeat split; auto.
    + intros p q Hpq. apply (Hpos (lbrace :: p) q).
      * simpl. f_equal. exact Hpq.
      * discriminate.
    + apply tail_ok_spec. exact Ht'.
Qed.

(** ** Balanced literals under the reader *)

Lemma lex_from_app (l : lexer) (a b : jsstr) :
  lex_from l (a ++ b) = lex_from (lex_from l a) b.
Proof. apply fold_left_app. Qed.

Lemma above_app (d0 : Z) (a b : jsstr) :
  forall l,
    above d0 l (a ++ b) <-> above d0 l a /\ above d0 (lex_from l a) b.
Proof.
  induction a as [|c a IH]; intros l; simpl.
  - destruct b; simpl; tauto.
  - rewrite IH. unfold lex_from. simpl. tauto.
Qed.

Lemma above_depth (d0 : Z) (l : lexer) (s : jsstr) :
  above d0 l s -> (d0 <= depth l)%Z.
Proof. destruct s; simpl; tauto. Qed.

Lemma above_prefix (d0 : Z) (s p q : jsstr) (l : lexer) :
  above d0 l s -> s = p ++ q -> (d0 <= depth (lex_from l p))%Z.
Proof.
  intros Ha ->. apply above_app in Ha. destruct Ha as [_ Ha].
  exact (above_depth _ _ _ Ha).
Qed.

Lemma quote_cases (q : char) :
  is_quote q = true -> q = dquote \/ q = squote.
Proof.
  unfold is_quote. rewrite orb_true_iff, !N.eqb_eq. tauto.
Qed.

Lemma open_string (d : Z) (q : char) :
  is_quote q = true ->
  lex_step (mkLexer d Outside false) q = mkLexer d (mode_of q) false.
Proof. intros H. destruct (quote_cases q H) as [-> | ->]; reflexivity. Qed.

Lemma close_string (d : Z) (q : char) :
  is_quote q = true ->
  lex_step (mkLexer d (mode_of q) false) q = mkLexer d Outside false.
Proof. intros H. destruct (quote_cases q H) as [-> | ->]; reflexivity. Qed.

Lemma inside_string_char (d : Z) (q c : char) :
  is_quote q = true -> c <> q -> c <> backslash ->
  lex_step (mkLexer d (mode_of q) false) c = mkLexer d (mode_of q) false.
Proof.
  intros H Hq Hb. unfold lex_step. simpl.
  apply N.eqb_neq in Hb. rewrite Hb.
  destruct (quote_cases q H) as [-> | ->]; simpl;
    apply N.eqb_neq in Hq; rewrite Hq; reflexivity.
Qed.

(** The inside of a string leaves the reader inside it, at the same
    depth. *)
Lemma string_body_lex (q : char) (b : jsstr) (d : Z) :
  is_quote q = true -> string_body q b ->
  above d (mkLexer d (mode_of q) false) b
  /\ lex_from (mkLexer d (mode_of q) false) b = mkLexer d (mode_of q) false.
Proof.
  intros Hq Hb. induction Hb as [|c s Hc Hbs Hs [IH1 IH2]|c s Hs [IH1 IH2]].
  - simpl. split; [split; [lia|exact I]|reflexivity].
  - unfold lex_from. simpl. rewrite (inside_string_char d q c Hq Hc Hbs).
    split; [split; [lia|exact IH1]|exact IH2].
  - unfold lex_from. simpl.
    change (lex_step (mkLexer d (mode_of q) false) backslash)
      with (mkLexer d (mode_of q) true).
    change (lex_step (mkLexer d (mode_of q) true) c)
      with (mkLexer d (mode_of q) false).
    split; [split; [lia|split; [simpl; lia|exact IH1]]|exact IH2].
Qed.

Lemma plain_step (l : lexer) (c : char) :
  plain c = true -> escaped l = false -> mode l = Outside -> lex_step l c = l.
Proof.
  destruct l as [d md e]. simpl. intros Hp -> ->. unfold lex_step. simpl.
  unfold plain, is_quote in Hp. apply negb_true_iff in Hp.
  rewrite !orb_false_iff in Hp. destruct Hp as [[[[-> ->] ->] ->] ->].
  reflexivity.
Qed.

Lemma above_weaken (d0 d1 : Z) (s : jsstr) :
  (d0 <= d1)%Z -> forall l, above d1 l s -> above d0 l s.
Proof.
  intros Hd. induction s as [|c s IH]; intros l; simpl.
  - intros [H _]. split; [lia|exact I].
  - intros [H Hs]. split; [lia|exact (IH _ Hs)].
Qed.

(** Balanced text brings the reader back to where it was, outside any
    string, and never takes the depth below. *)
Lemma balanced_lex (b : jsstr) :
  balanced b ->
  forall d,
    above d (mkLexer d Outside false) b
    /\ lex_from (mkLexer d Outside false) b = mkLexer d Outside false.
Proof.
  intros Hb.
  induction Hb as [|c s Hc Hs IH|q b s Hq Hb Hs IH|b s Hb IHb Hs IHs]; intros d.
  - simpl. split; [split; [lia|exact I]|reflexivity].
  - destruct (IH d) as [IH1 IH2]. unfold lex_from. simpl.
    rewrite (plain_step (mkLexer d Outside false) c Hc eq_refl eq_refl).
    split; [split; [simpl; lia|exact IH1]|exact IH2].
  - destruct (IH d) as [IH1 IH2].
    destruct (string_body_lex q b d Hq Hb) as [S1 S2].
    change (q :: b ++ q :: s) with ([q] ++ b ++ [q] ++ s).
    rewrite !lex_from_app, !above_app.
    change (lex_from (mkLexer d Outside false) [q])
      with (lex_step (mkLexer d Outside false) q).
    rewrite (open_string d q Hq), S2.
    change (lex_from (mkLexer d (mode_of q) false) [q])
      with (lex_step (mkLexer d (mode_of q) false) q).
    rewrite (close_string d q Hq).
    repeat split; try assumption; simpl; try lia.
    + rewrite (open_string d q Hq). simpl. lia.
    + rewrite (close_string d q Hq). simpl. lia.
  - destruct (IHs d) as [IH1 IH2]. destruct (IHb (d + 1)%Z) as [B1 B2].
    change (lbrace :: b ++ rbrace :: s) with ([lbrace] ++ b ++ [rbrace] ++ s).
    rewrite !lex_from_app, !above_app.
    change (lex_from (mkLexer d Outside false) [lbrace])
      with (mkLexer (d + 1) Outside false).
    rewrite B2.
    change (lex_from (mkLexer (d + 1) Outside false) [rbrace])
      with (mkLexer (d + 1 - 1) Outside false).
    replace (d + 1 - 1)%Z with d by lia.
    repeat split; try assumption; simpl; try lia.
    apply (above_weaken d (d + 1)); [lia|exact B1].
Qed.

Lemma lbrace_not_space : is_space lbrace = false.
Proof. reflexivity. Qed.

Lemma rbrace_not_space : is_space rbrace = false.
Proof. reflexivity. Qed.

(** A literal closes at its last brace. *)
Lemma literal_closes (b : jsstr) :
  balanced b -> closes_after (lbrace :: b ++ [rbrace]) (lbrace :: b) [].
Proof.
  intros Hb. destruct (balanced_lex b Hb 1%Z) as [Ha Hl]. repeat split.
  - exact Hl.
  - intros p q Hpq Hne. destruct p as [|x p]; [congruence|].
    simpl in Hpq. injection Hpq as <- Hpq.
    pose proof (above_prefix 1 b p q _ Ha Hpq) as H.
    change (lex (lbrace :: p)) with (lex_from (mkLexer 1 Outside false) p).
    lia.
Qed.

(** No brace closes a scan inside the literal before its last one. *)
Lemma literal_prefix_open (b body z : jsstr) :
  balanced b ->
  lbrace :: b = (body ++ [rbrace]) ++ z ->
  lex body = mkLexer 1 Outside false ->
  False.
Proof.
  intros Hb Hp Hl. destruct (balanced_lex b Hb 1%Z) as [Ha _].
  destruct body as [|x body]; [discriminate Hl|].
  simpl in Hp. injection Hp as <- Hp.
  pose proof (above_prefix 1 b (body ++ [rbrace]) z _ Ha Hp) as H.
  rewrite lex_from_app in H.
  change (lex (lbrace :: body))
    with (lex_from (mkLexer 1 Outside false) body) in Hl.
  rewrite Hl in H. simpl in H. lia.
Qed.

Lemma prefix_of_snoc (A : Type) (p q l : list A) (x : A) :
  p ++ q = l ++ [x] -> q <> [] -> exists z, l = p ++ z.
Proof.
  revert l. induction p as [|a p IH]; intros l H Hq.
  - exists l. reflexivity.
  - destruct l as [|b l].
    + simpl in H. injection H as _ H.
      destruct p; [simpl in H; congruence|discriminate].
    + simpl in H. injection H as -> H. destruct (IH l H Hq) as [z ->].
      exists z. reflexivity.
Qed.

Lemma split_at_same (A : Type) (x : A) (a a' r r' : list A) :
  a ++ x :: r = a' ++ x :: r' ->
  (a = a' /\ r = r')
  \/ (exists z, a' = a ++ x :: z)
  \/ (exists z, a = a' ++ x :: z).
Proof.
  revert a'. induction a as [|y a IH]; intros [|y' a'] H; simpl in H.
  - left. injection H as ->. split; reflexivity.
  - right. left. injection H as -> _. exists a'. reflexivity.
  - right. right. injection H as -> _. exists a. reflexivity.
  - injection H as -> H. destruct (IH a' H) as [[-> ->]|[[z ->]|[z ->]]].
    + left. split; reflexivity.
    + right. left. exists z. reflexivity.
    + right. right. exists z. reflexivity.
Qed.

Lemma closes_then_zero (body : jsstr) :
  lex body = mkLexer 1 Outside false ->
  lex (body ++ [rbrace]) = mkLexer 0 Outside false.
Proof.
  intros H. unfold lex in *. rewrite lex_from_app, H. reflexivity.
Qed.

(** The brace that first brings the depth back to 0 is unique. *)
Lemma closes_unique (t body rest body' rest' : jsstr) :
  closes_after t body rest -> closes_after t body' rest' ->
  body = body' /\ rest = rest'.
Proof.
  intros (Ht & Hl & Hpos) (Ht' & Hl' & Hpos').
  rewrite Ht in Ht'.
  destruct (split_at_same _ _ _ _ _ _ Ht') as [H|[[z Hz]|[z Hz]]].
  - exact H.
  - exfalso.
    assert (Hp : (0 < depth (lex (body ++ [rbrace])))%Z).
    { apply (Hpos' (body ++ [rbrace]) z).
      - rewrite <- app_assoc. exact Hz.
      - destruct body; discriminate. }
    rewrite (closes_then_zero _ Hl) in Hp. simpl in Hp. lia.
  - exfalso.
    assert (Hp : (0 < depth (lex (body' ++ [rbrace])))%Z).
    { apply (Hpos (body' ++ [rbrace]) z).
      - rewrite <- app_assoc. exact Hz.
      - destruct body'; discriminate. }
    rewrite (closes_then_zero _ Hl') in Hp. simpl in Hp. lia.
Qed.

Lemma space_is_plain (c : char) : is_space c = true -> plain c = true.
Proof.
  unfold is_space, plain, is_quote, dquote, squote, backslash, lbrace, rbrace.
  rewrite !orb_true_iff, !andb_true_iff, !N.eqb_eq, !N.leb_le.
  intros H. apply negb_true_iff. rewrite !orb_false_iff, !N.eqb_neq.
  repeat split; lia.
Qed.

Lemma lex_from_plain (s : jsstr) (d : Z) :
  forallb plain s = true ->
  lex_from (mkLexer d Outside false) s = mkLexer d Outside false.
Proof.
  induction s as [|c s IH]; [reflexivity|].
  simpl. rewrite andb_true_iff. intros [Hc Hs].
  change (lex_from (mkLexer d Outside false) (c :: s))
    with (lex_from (lex_step (mkLexer d Outside false) c) s).
  rewrite (plain_step (mkLexer d Outside false) c Hc eq_refl eq_refl).
  exact (IH Hs).
Qed.

Lemma forallb_weaken (A : Type) (p p' : A -> bool) (l : list A) :
  (forall x, p x = true -> p' x = true) ->
  forallb p l = true -> forallb p' l = true.
Proof.
  intros H. induction l as [|x l IH]; simpl; [reflexivity|].
  rewrite !andb_true_iff. intros [Hx Hl]. auto.
Qed.

Lemma short_tail_is_plain (rest : jsstr) :
  at_most_one_semicolon rest -> forallb plain rest = true.
Proof.
  intros H. destruct (trim_split rest) as (w1 & w2 & Hr & Hw1 & Hw2).
  rewrite Hr, !forallb_app.
  rewrite (forallb_weaken _ _ _ w1 space_is_plain Hw1).
  rewrite (forallb_weaken _ _ _ w2 space_is_plain Hw2).
  destruct H as [-> | ->]; reflexivity.
Qed.

(** A complete text leaves the reader outside any string. *)
Lemma complete_ends_outside (text : jsstr) :
  complete text -> lex (trim text) = mkLexer 0 Outside false.
Proof.
  intros (_ & body & rest & (Ht & Hl & _) & Hr).
  rewrite Ht. change (body ++ rbrace :: rest) with (body ++ [rbrace] ++ rest).
  rewrite app_assoc. unfold lex. rewrite lex_from_app.
  fold (lex (body ++ [rbrace])). rewrite (closes_then_zero _ Hl).
  apply lex_from_plain. apply short_tail_is_plain. exact Hr.
Qed.

(** C1 (amended).  [isCompleteJSON] (the same function in CTable.vue and
    CChart.vue) answers [true] exactly when the trimmed text begins with an
    opening brace, a closing brace that counts brings the depth back to 0
    for the first time, and what follows that brace is white space with at
    most one semicolon.  In the scan a backslash makes the character after
    it pass unread, inside a string and outside one alike; an unescaped
    quote outside a string opens one, which the next unescaped quote of the
    same kind closes; the braces that count are those read outside the
    strings and unescaped.  The function answers [false] for a text that
    does not begin with a brace, for a text that ends inside a string, and
    for any other tail after the closing brace; it answers [true] for an
    opening brace, a backslash and two closing braces, the first of which
    is escaped. *)
Theorem isCompleteJSON_complete (text : jsstr) :
  (CTable.isCompleteJSON text = true <-> complete text)
  /\ CChart.isCompleteJSON text = CTable.isCompleteJSON text
  /\ (startsWith (trim text) [lbrace] = false ->
      CTable.isCompleteJSON text = false)
  /\ (mode (lex (trim text)) <> Outside -> CTable.isCompleteJSON text = false)
  /\ (forall body rest,
        closes_after (trim text) body rest ->
        ~ at_most_one_semicolon rest ->
        CTable.isCompleteJSON text = false)
  /\ CTable.isCompleteJSON literal_with_escaped_brace = true.
Proof.
  split; [apply isCompleteJSON_spec|]. split; [reflexivity|].
  split; [|split; [|split; [|reflexivity]]].
  - intros H. unfold CTable.isCompleteJSON. cbv zeta. rewrite H. reflexivity.
  - intros Hm. destruct (CTable.isCompleteJSON text) eqn:E; [|reflexivity].
    apply isCompleteJSON_spec in E. apply complete_ends_outside in E.
    rewrite E in Hm. simpl in Hm. congruence.
  - intros body rest Hc Hn.
    destruct (CTable.isCompleteJSON text) eqn:E; [|reflexivity].
    apply isCompleteJSON_spec in E.
    destruct E as (_ & body' & rest' & Hc' & Hr').
    destruct (closes_unique _ _ _ _ _ Hc Hc') as [_ ->]. contradiction.
Qed.

(** C4.  For every balanced object literal [s] (an opening brace, balanced
    text of plain characters, quoted strings with escapes and nested braces,
    a closing brace), such as the one with a closing brace inside a string,
    [isCompleteJSON s] is [true] and [isCompleteJSON p] is [false] for every
    non-empty strict prefix [p] of [s]. *)
Theorem balanced_literal_complete (s : jsstr) :
  object_literal s ->
  CTable.isCompleteJSON s = true
  /\ forall p q,
       s = p ++ q -> p <> [] -> q <> [] -> CTable.isCompleteJSON p = false.
Proof.
  intros (b & -> & Hb). split.
  - apply isCompleteJSON_spec. unfold complete.
    rewrite (trim_tight lbrace b rbrace lbrace_not_space rbrace_not_space).
    split.
    + apply startsWith_lbrace. eexists. reflexivity.
    + exists (lbrace :: b), []. split; [apply literal_closes; exact Hb|].
      left. reflexivity.
  - intros p q Hpq Hne Hq.
    destruct (CTable.isCompleteJSON p) eqn:E; [|reflexivity]. exfalso.
    apply isCompleteJSON_spec in E.
    destruct E as (_ & body & rest & (Ht & Hl & _) & _).
    change (lbrace :: b ++ [rbrace]) with ((lbrace :: b) ++ [rbrace]) in Hpq.
    symmetry in Hpq. destruct (prefix_of_snoc _ _ _ _ _ Hpq Hq) as [z Hz].
    destruct (trim_split p) as (w1 & w2 & Hp & Hw1 & _).
    rewrite Ht in Hp. rewrite Hp in Hz.
    destruct w1 as [|c w1].
    + simpl in Hz.
      apply (literal_prefix_open b body (rest ++ w2 ++ z) Hb); [|exact Hl].
      rewrite Hz, <- !app_assoc. reflexivity.
    + simpl in Hz. injection Hz as <- _. simpl in Hw1. discriminate.
Qed.

(** C1, the claim as stated fails: after the closing brace of [{};;] only
    semicolons are left, and the scanner answers [false]. *)
Lemma double_semicolon_is_rejected :
  ~ (CTable.isCompleteJSON (lit "{};;") = true
     <-> complete_as_claimed (lit "{};;")).
Proof.
  intros [_ H].
  assert (Hc : complete_as_claimed (lit "{};;")).
  { split; [reflexivity|]. exists [lbrace], (lit ";;"). split.
    - split; [reflexivity|]. split; [reflexivity|].
      intros p q Hpq Hne. destruct p as [|x p]; [congruence|].
      destruct p; [|destruct p; discriminate].
      simpl in Hpq. injection Hpq as <- _. simpl. lia.
    - constructor; [right; reflexivity|].
      constructor; [right; reflexivity|]. constructor. }
  specialize (H Hc). vm_compute in H. discriminate.
Qed.

(** The escape holds outside the strings too: in an opening brace, a
    backslash and two closing braces the first closing brace passes
    unread and the second one closes, so the scanner answers [true]; a scan
    that knew the backslash inside strings only would stop at the first
    closing brace and find the second one left over. *)
Example escaped_brace_is_skipped :
  CTable.isCompleteJSON literal_with_escaped_brace = true
  /\ CChart.isCompleteJSON literal_with_escaped_brace = true
  /\ closes_after literal_with_escaped_brace [lbrace; backslash; rbrace] []
  /\ ~ complete_as_claimed literal_with_escaped_brace.
Proof.
  split; [reflexivity|]. split; [reflexivity|]. split.
  - split; [reflexivity|]. split; [reflexivity|].
    intros p q Hpq Hne.
    destruct p as [|a [|b [|c [|d p]]]]; try congruence;
      simpl in Hpq; injection Hpq; intros; subst; try discriminate;
      vm_compute; reflexivity.
  - intros (_ & body & rest & (Ht & Hl & _) & Hr).
    change (trim literal_with_escaped_brace)
      with [lbrace; backslash; rbrace; rbrace] in Ht.
    destruct body as [|a [|b [|c [|d body]]]];
      simpl in Ht; injection Ht; intros; subst; try discriminate;
      vm_compute in Hl; try discriminate.
    + inversion Hr as [|x l [Hx|Hx] _]; subst; vm_compute in Hx; discriminate.
    + destruct body; discriminate.
Qed.

(** The literal with a brace inside a string is complete. *)
Lemma isCompleteJSON_complete_witness :
  complete literal_with_brace_in_string.
Proof.
  apply (proj1 (isCompleteJSON_complete literal_with_brace_in_string)).
  reflexivity.
Defined.

(** The literal with a brace inside a string is a balanced literal, hence
    complete. *)
Lemma balanced_literal_complete_witness :
  object_literal literal_with_brace_in_string
  /\ CTable.isCompleteJSON literal_with_brace_in_string = true.
Proof.
  assert (H : object_literal literal_with_brace_in_string).
  { exists (json_lit "'a': '}'"). split; [reflexivity|].
    apply (bal_string dquote (lit "a") _ eq_refl).
    { apply sb_char; [discriminate|discriminate|apply sb_nil]. }
    apply bal_plain; [reflexivity|]. apply bal_plain; [reflexivity|].
    apply (bal_string dquote [rbrace] [] eq_refl).
    { apply sb_char; [discriminate|discriminate|apply sb_nil]. }
    apply bal_nil. }
  split; [exact H|].
  exact (proj1 (balanced_literal_complete literal_with_brace_in_string H)).
Defined.

(** The escape flag lasts one character: a doubled backslash before the
    closing quote leaves the quote in force, a single one escapes it and
    the string never ends. *)
Example escaped_backslash_then_quote :
  CTable.isCompleteJSON (json_lit "{'a':'x\\'}") = true
  /\ CTable.isCompleteJSON (json_lit "{'a':'x\'}") = false
  /\ lex (json_lit "{'a':'x\\'") = mkLexer 1 Outside false
  /\ lex (json_lit "{'a':'x\'}") = mkLexer 1 InDouble false.
Proof. repeat split. Qed.

(** A quote of the other kind inside a string does not end it. *)
Example other_quote_inside_string :
  CTable.isCompleteJSON (lit "{a: 'say ") = false
  /\ CTable.isCompleteJSON (lit "{a: 'it' }") = true
  /\ CTable.isCompleteJSON (dquote :: lit "{}") = false
  /\ CTable.isCompleteJSON (lit "{a: '" ++ dquote :: lit "}' }") = true.
Proof. repeat split. Qed.

(** The tails the scanner accepts and refuses. *)
Example tails_after_the_closing_brace :
  CTable.isCompleteJSON (lit "  {} ") = true
  /\ CTable.isCompleteJSON (lit "{};") = true
  /\ CTable.isCompleteJSON (lit "{} ; ") = true
  /\ CTable.isCompleteJSON (lit "{};;") = false
  /\ CTable.isCompleteJSON (lit "{}; ;") = false
  /\ CTable.isCompleteJSON (lit "{} x") = false
  /\ CTable.isCompleteJSON (lit "{}{}") = false
  /\ CTable.isCompleteJSON (lit "x{}") = false.
Proof. repeat split. Qed.

(** ** The block extractor *)

Lemma assignment_shape (w1 w2 body tail : jsstr) :
  (lit "option" ++ w1 ++ lit "=" ++ w2 ++ lbrace :: body ++ [rbrace]) ++ tail
  = lit "option" ++ w1 ++ lit "=" ++ w2 ++ lbrace :: body ++ rbrace :: tail.
Proof.
  rewrite <- !app_assoc. do 3 f_equal. simpl. do 2 f_equal.
  rewrite <- app_assoc. reflexivity.
Qed.

(** Where the text has an assignment up to a closing brace, the pattern
    matches. *)
Lemma assignment_matches (text pre r tail bef : jsstr) :
  assignment_at text pre r tail ->
  match_here false CTable.re_option_block (mkPos bef (r ++ tail) []) <> None.
Proof.
  intros (_ & w1 & w2 & body & -> & H1 & H2) Hm.
  pose proof (match_here_block bef
    ((lit "option" ++ w1 ++ lit "=" ++ w2 ++ lbrace :: body ++ [rbrace]) ++ tail))
    as Hb.
  rewrite Hm in Hb. rewrite assignment_shape in Hb.
  apply (block_tail_none w1 w2 body tail H1 H2). symmetry. exact Hb.
Qed.

(** Where the pattern matches, the text has an assignment up to its last
    closing brace, and that is what the match covers. *)
Lemma match_is_assignment (bef post : jsstr) (y : pos) :
  match_here false CTable.re_option_block (mkPos bef post []) = Some y ->
  exists w1 w2 body,
    post = (lit "option" ++ w1 ++ lit "=" ++ w2 ++ lbrace :: body ++ [rbrace])
           ++ after y
    /\ spaces w1 /\ spaces w2 /\ ~ In rbrace (after y)
    /\ consumed (mkPos bef post []) y
       = lit "option" ++ w1 ++ lit "=" ++ w2 ++ lbrace :: body ++ [rbrace].
Proof.
  intros Hm. pose proof (match_here_block bef post) as Hb. rewrite Hm in Hb.
  symmetry in Hb. destruct (block_tail_some _ _ Hb) as (w1 & w2 & body & Hp & H1 & H2 & Hn).
  exists w1, w2, body. rewrite assignment_shape. repeat split; try assumption.
  unfold consumed. cbn [after]. rewrite Hp at 1 2.
  rewrite <- assignment_shape, length_app, Nat.add_sub.
  rewrite firstn_app, Nat.sub_diag, firstn_all. cbn [firstn]. apply app_nil_r.
Qed.

(** C3 (amended).  The extractor (the same pattern in CTable.vue and
    CChart.vue) returns [null] exactly when nowhere in the text does
    [option], white space, [=], white space, [{] occur with a closing brace
    somewhere after it.  Otherwise it returns the text from the first such
    [option] through the last closing brace of the text, and what follows
    that brace is left out. *)
Theorem configMatch_spec (text : jsstr) :
  (CTable.configMatch text = None
   <-> forall pre r tail, ~ assignment_at text pre r tail)
  /\ (forall r,
        CTable.configMatch text = Some r ->
        exists pre tail,
          assignment_at text pre r tail
          /\ ~ In rbrace tail
          /\ forall pre' r' tail',
               assignment_at text pre' r' tail' -> length pre <= length pre').
Proof.
  assert (Hsome : forall r,
    CTable.configMatch text = Some r ->
    exists pre tail,
      assignment_at text pre r tail
      /\ ~ In rbrace tail
      /\ forall pre' r' tail',
           assignment_at text pre' r' tail' -> length pre <= length pre').
  { intros r. unfold CTable.configMatch, match0.
    destruct (search false CTable.re_option_block [] text) as [[x y]|] eqn:Es;
      [|discriminate].
    intros H. injection H as <-.
    destruct (search_some _ _ _ _ _ _ Es) as (pre & post & Ht & Hx & Hm & Hmin).
    subst x. rewrite app_nil_r in Hm.
    destruct (match_is_assignment _ _ _ Hm) as (w1 & w2 & body & Hp & H1 & H2 & Hn & Hc).
    exists pre, (after y). rewrite app_nil_r, Hc. repeat split.
    - rewrite Ht, Hp. reflexivity.
    - exists w1, w2, body. repeat split; assumption.
    - exact Hn.
    - intros pre' r' tail' Ha.
      destruct (Nat.le_gt_cases (length pre) (length pre')) as [Hle|Hlt];
        [exact Hle|]. exfalso.
      apply (assignment_matches text pre' r' tail' (rev pre' ++ []) Ha).
      apply Hmin; [exact (proj1 Ha)|exact Hlt]. }
  split; [|exact Hsome]. split.
  - intros Hnone pre r tail Ha.
    unfold CTable.configMatch, match0 in Hnone.
    destruct (search false CTable.re_option_block [] text) as [[x y]|] eqn:Es;
      [discriminate|].
    apply (assignment_matches text pre r tail (rev pre ++ []) Ha).
    exact (search_none _ _ _ _ Es _ _ (proj1 Ha)).
  - intros Hall. destruct (CTable.configMatch text) as [r|] eqn:E; [|reflexivity].
    destruct (Hsome r eq_refl) as (pre & tail & Ha & _).
    elim (Hall pre r tail Ha).
Qed.

(** C3, the claim as stated fails: in [option = {] the pattern occurs and
    the extractor returns [null], for no closing brace follows. *)
Lemma open_assignment_is_not_extracted :
  ~ extractor_claim (lit "option = {").
Proof.
  intros [H _].
  assert (Hc : contains_assignment (lit "option = {")).
  { exists [], (lit " "), (lit " "), []. repeat split. }
  apply H in Hc. apply Hc. vm_compute. reflexivity.
Qed.

(** The match runs from [option] to the last closing brace. *)
Lemma configMatch_spec_witness :
  exists pre tail,
    assignment_at (lit "see option = {a} b} c") pre (lit "option = {a} b}") tail
    /\ ~ In rbrace tail.
Proof.
  destruct (proj2 (configMatch_spec (lit "see option = {a} b} c"))
              (lit "option = {a} b}") eq_refl) as (pre & tail & Ha & Hn & _).
  exists pre, tail. split; assumption.
Defined.
(** ** Properties *)

Section Blocks.
Context {ops : NumberOps}.

(** C7.  Round trip.  On the block
    [option = {columns:[{label:'Name',prop:'name'}], data:[{name:'A'}]}] the
    extractor returns the whole block, the normaliser turns its literal into
    the strict JSON text of the same object, and [parseTableOption] and
    [parseTableData] both yield that object, with string values [Name],
    [name] and [A]; a line break before the block and a semicolon after it
    change nothing. *)
Theorem table_block_roundtrip :
  CTable.configMatch table_block = Some table_block
  /\ CTable.normalize (CTable.strip_assignment table_block) = table_json_text
  /\ CTable.parseTableOption table_block = table_object
  /\ CTable.parseTableData table_block = table_object
  /\ CTable.parseTableData (newline :: table_block ++ lit ";" ++ [newline])
     = table_object.
Proof.
  repeat split; vm_compute; reflexivity.
Qed.

(** C9 (amended).  A chart block yields a configuration only through the
    option assignment, and only when the normalised object has a truthy
    [type]; nothing is asked of [data]. *)
Theorem parseChartData_requires_type (code : jsstr) :
  CChart.parseChartData code <> JNull ->
  (exists fullOptionStr,
      CTable.configMatch code = Some fullOptionStr
      /\ CChart.parseChartData code = CChart.parseChartOption fullOptionStr)
  /\ truthy (opt_field (Some (CChart.parseChartData code)) (lit "type")) = true.
Proof.
  unfold CChart.parseChartData.
  destruct (CTable.configMatch code) as [full|]; [|intros H; now elim H].
  cbv zeta.
  destruct (truthy (Some (CChart.parseChartOption full))) eqn:Hc;
    [|intros H; now elim H].
  destruct (truthy (opt_field (Some (CChart.parseChartOption full)) (lit "type")))
    eqn:Ht; [|intros H; now elim H].
  cbn [andb].
  intros _. split; [exists full; split; reflexivity | exact Ht].
Qed.

End Blocks.

(** C9, the claim as stated fails: [option = {type:'line'}] yields a
    configuration although the object has no [data]. *)
Lemma chart_without_data_is_accepted :
  ~ chart_requires_type_and_data (ops := sample_ops) chart_block_no_data.
Proof.
  unfold chart_requires_type_and_data. intros H.
  assert (Hn : CChart.parseChartData (ops := sample_ops) chart_block_no_data <> JNull)
    by (vm_compute; discriminate).
  destruct (H Hn) as [_ Hd]. apply Hd. vm_compute. reflexivity.
Qed.

(** The chart block without data yields a configuration with a type. *)
Lemma parseChartData_requires_type_witness :
  CChart.parseChartData (ops := sample_ops) chart_block_no_data <> JNull
  /\ truthy (ops := sample_ops)
       (opt_field (Some (CChart.parseChartData (ops := sample_ops) chart_block_no_data))
                  (lit "type")) = true.
Proof.
  assert (Hn : CChart.parseChartData (ops := sample_ops) chart_block_no_data <> JNull)
    by (vm_compute; discriminate).
  split; [exact Hn|].
  exact (proj2 (parseChartData_requires_type (ops := sample_ops) chart_block_no_data Hn)).
Defined.


(** The normaliser at work: the three tokens, trailing commas, quotes and
    bare keys, also at the start of a line. *)
Example normalize_steps :
  CTable.strip_assignment (lit "option={a:1};  ") = lit "{a:1}"
  /\ CTable.normalize (lit "{a: None, b: [True,False,], c: 'x',}")
     = json_lit "{'a': null, 'b': [true,false], 'c': 'x'}"
  /\ CTable.normalize (lit "{a: Nonesuch, None_: 1}")
     = json_lit "{'a': Nonesuch, 'None_': 1}"
  /\ CTable.normalize (lit "{" ++ newline :: lit "  type : 'bar'," ++ newline :: lit "}")
     = json_lit "{" ++ newline :: json_lit "  'type': 'bar'" ++ newline :: lit "}".
Proof. repeat split; vm_compute; reflexivity. Qed.

(** The replacements do not look at strings: a token or an apostrophe
    inside a value is rewritten too, and the result may not parse. *)
Example normalize_inside_strings :
  CTable.parseTableOption (lit "option = {a: 'True'}")
  = JObj [(lit "a", JStr (lit "true"))]
  /\ CTable.parseTableOption (lit "option = {a: 'it''s'}") = JNull.
Proof. repeat split; vm_compute; reflexivity. Qed.

(** An incomplete block is no error: [null] until the closing brace is
    there. *)
Example incomplete_block_is_null :
  CTable.parseTableOption (lit "option = {columns:[{label:'Na") = JNull
  /\ CTable.configMatch (lit "option = {columns:[{label:'Na") = None
  /\ CTable.configMatch (lit "option = {columns:[{label:'Name'}") 
     = Some (lit "option = {columns:[{label:'Name'}")
  /\ CTable.parseTableOption (lit "option = {columns:[{label:'Name'}") = JNull.
Proof. repeat split; vm_compute; reflexivity. Qed.

(** ** The Markdown pipe table *)

Lemma lookup_obj_set_same (ps : list (jsstr * json)) (k : jsstr) (v : json) :
  lookup k (obj_set ps k v) = Some v.
Proof.
  induction ps as [|[k' v'] ps IH]; simpl.
  - rewrite str_eqb_refl. reflexivity.
  - destruct (str_eqb k k') eqn:E; simpl; rewrite E; [reflexivity|exact IH].
Qed.

Lemma lookup_obj_set_other (ps : list (jsstr * json)) (k k0 : jsstr) (v : json) :
  k <> k0 -> lookup k (obj_set ps k0 v) = lookup k ps.
Proof.
  intros Hne. apply str_eqb_neq in Hne.
  induction ps as [|[k' v'] ps IH]; simpl.
  - rewrite Hne. reflexivity.
  - destruct (str_eqb k0 k') eqn:E; simpl.
    + apply str_eqb_eq in E. subst k'. rewrite Hne. reflexivity.
    + rewrite IH. reflexivity.
Qed.

Lemma lookup_row_set_other (row : list (jsstr * json)) (k h v : jsstr) :
  k <> h -> lookup k (CTable.row_set row h v) = lookup k row.
Proof.
  intros Hne. unfold CTable.row_set.
  destruct (str_eqb h (lit "__proto__")); [reflexivity|].
  apply lookup_obj_set_other. exact Hne.
Qed.

Lemma lookup_row_set_same (row : list (jsstr * json)) (h v : jsstr) :
  h <> lit "__proto__" -> lookup h (CTable.row_set row h v) = Some (JStr v).
Proof.
  intros Hne. unfold CTable.row_set.
  apply str_eqb_neq in Hne. rewrite Hne. apply lookup_obj_set_same.
Qed.

(** A name that is not a header is left as it was. *)
Lemma fill_row_other (headers : list jsstr) (k : jsstr) :
  ~ In k headers ->
  forall row index values,
    lookup k (CTable.fill_row row headers index values) = lookup k row.
Proof.
  induction headers as [|h hs IH]; intros Hn row index values; simpl.
  - reflexivity.
  - rewrite IH by (intros H; apply Hn; right; exact H).
    apply lookup_row_set_other. intros ->. apply Hn. left. reflexivity.
Qed.

(** The last header of a name decides the cell stored under it. *)
Lemma fill_row_lookup (headers : list jsstr) (h : jsstr) :
  h <> lit "__proto__" ->
  forall i row index values,
    nth_error headers i = Some h ->
    (forall j, i < j -> nth_error headers j <> Some h) ->
    lookup h (CTable.fill_row row headers index values)
    = Some (JStr (nth (index + i) values [])).
Proof.
  intros Hp. induction headers as [|h0 hs IH]; intros i row index values Hi Hl.
  - destruct i; discriminate.
  - destruct i as [|i]; simpl in *.
    + injection Hi as ->. rewrite fill_row_other.
      * rewrite Nat.add_0_r. apply lookup_row_set_same. exact Hp.
      * intros Hin. apply In_nth_error in Hin. destruct Hin as [j Hj].
        apply (Hl (S j)); [lia|exact Hj].
    + rewrite (IH i _ (S index) values Hi).
      * f_equal. f_equal. f_equal. lia.
      * intros j Hj. apply (Hl (S j)). lia.
Qed.

Section TableTheorems.
Context {ops : NumberOps}.

(** C10 (amended).  When the option assignment yields no configuration, the
    block has at least two non-blank lines and the first contains a bar:
    with exactly two lines the parser returns [null]; with more it returns
    one row object per line after the second, which the template shows as
    the table of a plain array.  Headers and cells are the
    bar-separated pieces, trimmed, the empty ones dropped; a row maps the
    header at position [i] (the last one of its name, and not [__proto__])
    to the line's cell at position [i], or to the empty string when the line
    has no such cell, and has no other property. *)
Theorem markdown_table_fallback (code : jsstr) :
  CTable.parseTableConfig code = None ->
  2 <= length (table_lines code) ->
  includes_char (nth 0 (table_lines code) []) CTable.pipe = true ->
  let headers := CTable.cells (nth 0 (table_lines code) []) in
  (length (table_lines code) = 2 -> CTable.parseTableData code = JNull)
  /\ (3 <= length (table_lines code) ->
      exists rows,
        CTable.parseTableData code = JArr rows
        /\ CTable.template (JArr rows) = CTable.LegacyTable
        /\ length rows = length (table_lines code) - 2
        /\ forall r line,
             nth_error (skipn 2 (table_lines code)) r = Some line ->
             exists props,
               nth_error rows r = Some (JObj props)
               /\ (forall i h,
                     nth_error headers i = Some h ->
                     h <> lit "__proto__" ->
                     (forall j, i < j -> nth_error headers j <> Some h) ->
                     lookup h props = Some (JStr (nth i (CTable.cells line) [])))
               /\ (forall k, ~ In k headers -> lookup k props = None)).
Proof.
  intros Hcfg Hlen Hpipe headers.
  unfold CTable.parseTableData. rewrite Hcfg.
  unfold CTable.parseMarkdownTable. fold (table_lines code). cbv zeta.
  destruct (Nat.ltb_spec (length (table_lines code)) 2) as [Hlt|_]; [lia|].
  rewrite Hpipe. fold headers. rewrite length_map, length_skipn.
  split.
  - intros H2. rewrite H2. reflexivity.
  - intros H3.
    destruct (Nat.ltb_spec 0 (length (table_lines code) - 2)) as [_|Hz]; [|lia].
    eexists. split; [reflexivity|].
    assert (Hrows : length (map (fun line =>
              JObj (CTable.fill_row [] headers 0 (CTable.cells line)))
              (skipn 2 (table_lines code))) = length (table_lines code) - 2)
      by (rewrite length_map, length_skipn; reflexivity).
    split.
    { destruct (map _ (skipn 2 (table_lines code))) as [|row rows'];
        [simpl in Hrows; lia|reflexivity]. }
    split; [exact Hrows|].
    intros r line Hr.
    exists (CTable.fill_row [] headers 0 (CTable.cells line)). split.
    + rewrite nth_error_map, Hr. reflexivity.
    + split.
      * intros i h Hi Hp Hl.
        rewrite (fill_row_lookup headers h Hp i [] 0 _ Hi Hl). reflexivity.
      * intros k Hk. rewrite fill_row_other by exact Hk. reflexivity.
Qed.

End TableTheorems.

(** C10, the claim as stated fails: a header line and a separator line make
    two lines with a bar in the first, and the parser returns [null]. *)
Lemma header_only_table_is_null :
  ~ markdown_claim (ops := sample_ops) table_header_only.
Proof.
  intros H.
  assert (H1 : CTable.parseTableConfig (ops := sample_ops) table_header_only = None)
    by (vm_compute; reflexivity).
  assert (H2 : 2 <= length (table_lines table_header_only))
    by (vm_compute; lia).
  assert (H3 : includes_char (nth 0 (table_lines table_header_only) []) CTable.pipe = true)
    by (vm_compute; reflexivity).
  destruct (H H1 H2 H3) as [rows Hr]. vm_compute in Hr. discriminate.
Qed.

(** A header, a separator and two data lines give two rows. *)
Lemma markdown_table_fallback_witness :
  exists rows,
    CTable.parseTableData (ops := sample_ops) table_two_rows = JArr rows
    /\ length rows = 2.
Proof.
  assert (H1 : CTable.parseTableConfig (ops := sample_ops) table_two_rows = None)
    by (vm_compute; reflexivity).
  assert (H2 : 2 <= length (table_lines table_two_rows))
    by (vm_compute; lia).
  assert (H3 : includes_char (nth 0 (table_lines table_two_rows) []) CTable.pipe = true)
    by (vm_compute; reflexivity).
  assert (H4 : 3 <= length (table_lines table_two_rows))
    by (vm_compute; lia).
  destruct (proj2 (markdown_table_fallback (ops := sample_ops) table_two_rows H1 H2 H3) H4)
    as (rows & Hr & _ & Hl & _).
  exists rows. split; [exact Hr|]. rewrite Hl. vm_compute. reflexivity.
Defined.

(** ** The stream watchers *)

Lemma space_is_no_value_start (c : char) :
  is_space c = true ->
  (c =? 123)%N = false /\ (c =? 91)%N = false /\ (c =? 34)%N = false
  /\ (c =? 116)%N = false /\ (c =? 102)%N = false /\ (c =? 110)%N = false
  /\ (c =? 45)%N = false /\ (c =? 48)%N = false /\ is_digit c = false.
Proof.
  unfold is_space, is_digit.
  rewrite !orb_true_iff, !andb_true_iff, !N.eqb_eq, !N.leb_le.
  intros H. repeat split; try (apply N.eqb_neq; lia).
  apply andb_false_iff. rewrite !N.leb_gt. lia.
Qed.

Lemma skip_over_spaces (w r : jsstr) :
  forallb is_space w = true ->
  skip (w ++ 91%N :: r) = 91%N :: r
  \/ exists c t, skip (w ++ 91%N :: r) = c :: t /\ is_space c = true.
Proof.
  induction w as [|c w IH]; simpl.
  - intros _. left. reflexivity.
  - rewrite andb_true_iff. intros [Hc Hw].
    destruct (json_ws c); [exact (IH Hw)|].
    right. exists c, (w ++ 91%N :: r). split; [reflexivity|exact Hc].
Qed.

Lemma parse_value_space (fuel : nat) (s : jsstr) (c : char) (t : jsstr) :
  skip s = c :: t -> is_space c = true -> parse_value fuel s = None.
Proof.
  intros Hs Hc. destruct fuel as [|f]; [reflexivity|].
  destruct (space_is_no_value_start c Hc)
    as (H1 & H2 & H3 & H4 & H5 & H6 & H7 & H8 & H9).
  simpl. rewrite Hs, H1, H2, H3, H4, H5, H6.
  unfold parse_number. rewrite H7, H8, H9. reflexivity.
Qed.

Lemma parse_value_sentinel (fuel : nat) (s r : jsstr) :
  skip s = lit "[DONE]" ++ r -> parse_value fuel s = None.
Proof.
  intros Hs. destruct fuel as [|[|[|f]]]; simpl; try reflexivity;
    rewrite Hs; reflexivity.
Qed.

(** The end marker is not JSON text, however it is padded. *)
Lemma sentinel_is_not_json (chunk : jsstr) :
  trim chunk = lit "[DONE]" -> JSON_parse chunk = None.
Proof.
  intros Ht. destruct (trim_split chunk) as (w1 & w2 & Hc & Hw1 & _).
  rewrite Ht in Hc. unfold JSON_parse.
  assert (Hp : parse_value (2 * length chunk + 2) chunk = None).
  { rewrite Hc at 2. change (lit "[DONE]" ++ w2) with (91%N :: lit "DONE]" ++ w2).
    destruct (skip_over_spaces w1 (lit "DONE]" ++ w2) Hw1) as [H|(c & t & H & Hs)].
    - exact (parse_value_sentinel _ _ w2 H).
    - exact (parse_value_space _ _ _ _ H Hs). }
  rewrite Hp. reflexivity.
Qed.

Lemma parsed_is_not_sentinel (chunk : jsstr) (payload : json) :
  JSON_parse chunk = Some payload ->
  str_eqb (trim chunk) (lit "[DONE]") = false.
Proof.
  intros Hp. apply str_eqb_neq. intros Ht.
  rewrite (sentinel_is_not_json _ Ht) in Hp. discriminate.
Qed.

Lemma parsed_is_nonempty (payload : json) : JSON_parse [] <> Some payload.
Proof. discriminate. Qed.

Lemma opt_field_get (payload : json) (name : jsstr) :
  opt_field (Some payload) name
  = match get_field payload name with Some r => r | None => None end.
Proof. destruct payload; reflexivity. Qed.

Lemma rev_update_last (f : Message -> Message) (l : list Message) :
  rev (App.update_last f l)
  = match rev l with
    | [] => []
    | x :: r => f x :: r
    end.
Proof.
  unfold App.update_last. destruct (rev l) as [|x r] eqn:E.
  - exact E.
  - apply rev_involutive.
Qed.

Lemma last_status_update (f : Message -> Message) (l : list Message)
  (b b' : jsstr) :
  (forall m, terminal (thinkingStatus m) -> terminal (thinkingStatus (f m))) ->
  terminal (last_status (App.mkState l b)) ->
  terminal (last_status (App.mkState (App.update_last f l) b')).
Proof.
  unfold last_status, last_message. simpl. rewrite rev_update_last.
  destruct (rev l) as [|x r]; auto.
Qed.

Lemma advance_terminal (m : Message) :
  terminal (thinkingStatus m) -> terminal (thinkingStatus (advance m)).
Proof.
  unfold advance. intros [H|H]; rewrite H; simpl; [left|right]; exact H.
Qed.

Section StreamTheorems.
Context {ops : NumberOps}.

Lemma chatbot_apply_terminal (st : Chatbot.state) (e : event) :
  not_reviving e ->
  terminal (thinkingStatus (Chatbot.message st)) ->
  terminal (thinkingStatus (Chatbot.message (Chatbot.apply st e))).
Proof.
  intros He Ht. destruct e; simpl in *;
    try exact Ht; try (left; reflexivity); try (right; reflexivity).
  - apply advance_terminal. exact Ht.
  - destruct He as [->| ->]; [left|right]; reflexivity.
Qed.

Lemma app_apply_terminal (st : App.state) (e : event) :
  not_reviving e ->
  terminal (last_status st) ->
  terminal (last_status (App.apply st e)).
Proof.
  intros He Ht. destruct st as [l b].
  destruct e; simpl in *; try exact Ht;
    apply (last_status_update _ l b); try exact Ht; intros m Hm; simpl;
    try exact Hm; try (left; reflexivity); try (right; reflexivity);
    try (apply advance_terminal; exact Hm).
  destruct He as [->| ->]; [left|right]; reflexivity.
Qed.

(** C2 (amended).  Once the in-flight message is in state [end] or
    [error], no sequence of events without a status update mapped to
    [start] or [thinking] takes it out of these two states, in Chatbot.vue
    as in App.vue; and after [ErrorUpdate boom], [ContentDelta ignored] the
    state is still [error].  A status update always sets the state to the
    one it is mapped to, also from [end] and [error]. *)
Theorem terminal_is_kept (st : Chatbot.state) (ast : App.state)
  (es : list event) :
  Forall not_reviving es ->
  terminal (thinkingStatus (Chatbot.message st)) ->
  terminal (last_status ast) ->
  terminal (thinkingStatus (Chatbot.message (fold_left Chatbot.apply es st)))
  /\ terminal (last_status (fold_left App.apply es ast))
  /\ thinkingStatus
       (Chatbot.message
          (fold_left Chatbot.apply
             [ErrorUpdate (JStr (lit "boom")); ContentDelta (lit "ignored")]
             Chatbot.init)) = Some TError
  /\ last_status
       (fold_left App.apply
          [ErrorUpdate (JStr (lit "boom")); ContentDelta (lit "ignored")]
          (App.mkState [placeholder] [])) = Some TError
  /\ (forall s text,
        thinkingStatus (Chatbot.message (Chatbot.apply st (StatusUpdate s text)))
        = Some s)
  /\ (forall s text,
        last_status (App.apply ast (StatusUpdate s text)) = Some s).
Proof.
  intros Hes Hc0 Ha0.
  assert (forall s text,
            thinkingStatus
              (Chatbot.message (Chatbot.apply st (StatusUpdate s text)))
            = Some s) as Hsc by (intros s text; reflexivity).
  assert (forall s text,
            last_status (App.apply ast (StatusUpdate s text)) = Some s) as Hsa.
  { intros s text. destruct ast as [l b].
    unfold last_status, last_message in *. simpl in *.
    rewrite rev_update_last.
    destruct (rev l) as [|x r]; [destruct Ha0; discriminate|reflexivity]. }
  revert st ast Hc0 Ha0 Hsc Hsa.
  induction Hes as [|e es He Hes IH]; intros st ast Hc Ha Hsc Hsa.
  - repeat split; try assumption; reflexivity.
  - simpl fold_left at 1 2.
    assert (forall s text,
              thinkingStatus
                (Chatbot.message
                   (Chatbot.apply (Chatbot.apply st e) (StatusUpdate s text)))
              = Some s) as Hsc' by (intros s text; reflexivity).
    pose proof (app_apply_terminal ast e He Ha) as Ha'.
    assert (forall s text,
              last_status (App.apply (App.apply ast e) (StatusUpdate s text))
              = Some s) as Hsa'.
    { intros s text. destruct (App.apply ast e) as [l b].
      unfold last_status, last_message in *. simpl in *.
      rewrite rev_update_last.
      destruct (rev l) as [|x r]; [destruct Ha'; discriminate|reflexivity]. }
    destruct (IH (Chatbot.apply st e) (App.apply ast e)
                 (chatbot_apply_terminal st e He Hc) Ha' Hsc' Hsa')
      as (H1 & H2 & H3 & H4 & _).
    repeat split; assumption.
Qed.

(** C6.  After the deltas [Hel] and [lo], a chunk that trims to the end
    marker leaves the message with content [Hello], state [end] and
    [isStreaming] false, in Chatbot.vue and in App.vue; with an empty buffer
    the marker sets the content to the completion text instead. *)
Theorem sentinel_ends_stream (chunk : jsstr) :
  trim chunk = lit "[DONE]" ->
  Chatbot.classify (chunk_explanation "Hel") = ContentDelta (lit "Hel")
  /\ Chatbot.classify (chunk_explanation "lo") = ContentDelta (lit "lo")
  /\ Chatbot.classify chunk = StreamEnd
  /\ Chatbot.message
       (fold_left Chatbot.step
          [chunk_explanation "Hel"; chunk_explanation "lo"; chunk] Chatbot.init)
     = mkMessage Assistant (JStr (lit "Hello")) (Some TEnd) (Some false) None None
  /\ (forall st,
        Chatbot.contentBuffer st = [] ->
        Chatbot.step st chunk
        = Chatbot.mkState
            (set_isStreaming false
               (set_thinkingStatus TEnd
                  (set_content (JStr text_query_done) (Chatbot.message st))))
            [])
  /\ App.loop (App.mkState [placeholder] [])
       [chunk_explanation "Hel"; chunk_explanation "lo"; chunk]
     = (App.mkState
          [mkMessage Assistant (JStr (lit "Hello")) (Some TEnd) (Some false)
                     None None]
          (lit "Hello"), true).
Proof.
  intros Ht.
  assert (Hc : Chatbot.classify chunk = StreamEnd).
  { unfold Chatbot.classify. rewrite Ht. reflexivity. }
  assert (H1 : Chatbot.classify (chunk_explanation "Hel")
               = ContentDelta (lit "Hel")) by (vm_compute; reflexivity).
  assert (H2 : Chatbot.classify (chunk_explanation "lo")
               = ContentDelta (lit "lo")) by (vm_compute; reflexivity).
  repeat split; try assumption.
  - simpl fold_left. unfold Chatbot.step. rewrite H1, H2, Hc. reflexivity.
  - intros st Hb. unfold Chatbot.step. rewrite Hc. simpl. rewrite Hb. reflexivity.
  - assert (Ha : App.classify chunk = StreamEnd).
    { unfold App.classify. rewrite Ht. reflexivity. }
    assert (A1 : App.classify (chunk_explanation "Hel")
                 = ContentDelta (lit "Hel")) by (vm_compute; reflexivity).
    assert (A2 : App.classify (chunk_explanation "lo")
                 = ContentDelta (lit "lo")) by (vm_compute; reflexivity).
    cbn [App.loop].
    change (App.step ?st (chunk_explanation ?w))
      with (Some (App.apply st (App.classify (chunk_explanation w)))).
    rewrite A1, A2. destruct chunk as [|c chunk']; [discriminate Ht|].
    cbn [App.step]. rewrite Ha. reflexivity.
Qed.

End StreamTheorems.

(** C2, the claim as stated fails: after the error payload the state is
    [error], and a status payload of type [working] sets it to
    [thinking]. *)
Lemma status_update_revives_error :
  ~ stays_terminal (ops := sample_ops)
      (Chatbot.step (ops := sample_ops) Chatbot.init chunk_error_boom)
      chunk_status_working.
Proof.
  unfold stays_terminal. intros H.
  assert (Ht : terminal (thinkingStatus (Chatbot.message
            (Chatbot.step (ops := sample_ops) Chatbot.init chunk_error_boom))))
    by (right; vm_compute; reflexivity).
  destruct (H Ht) as [E|E]; vm_compute in E; discriminate.
Qed.

(** After an error, a late delta, a status of success, suggestions and raw
    text leave the state terminal. *)
Lemma terminal_is_kept_witness :
  terminal (thinkingStatus (Chatbot.message
     (fold_left (Chatbot.apply)
        [ContentDelta (lit "late"); StatusUpdate TEnd (JStr (lit "ok"));
         SuggestionsUpdate (JArr []); RawTextDelta (lit "x")]
        (Chatbot.apply Chatbot.init
           (ErrorUpdate (JStr (lit "boom"))))))).
Proof.
  refine (proj1 (terminal_is_kept
           (Chatbot.apply Chatbot.init
              (ErrorUpdate (JStr (lit "boom"))))
           (App.apply (App.mkState [placeholder] [])
              (ErrorUpdate (JStr (lit "boom"))))
           [ContentDelta (lit "late"); StatusUpdate TEnd (JStr (lit "ok"));
            SuggestionsUpdate (JArr []); RawTextDelta (lit "x")]
           _ _ _)).
  - repeat constructor.
  - right. reflexivity.
  - right. reflexivity.
Defined.

(** The end marker with blanks around it ends the stream. *)
Lemma sentinel_ends_stream_witness :
  trim (lit "  [DONE] ") = lit "[DONE]"
  /\ Chatbot.classify (ops := sample_ops) (lit "  [DONE] ") = StreamEnd.
Proof.
  assert (Ht : trim (lit "  [DONE] ") = lit "[DONE]") by reflexivity.
  split; [exact Ht|].
  exact (proj1 (proj2 (proj2 (sentinel_ends_stream (ops := sample_ops) _ Ht)))).
Defined.

Section PayloadTheorems.
Context {ops : NumberOps}.

Lemma classify_status (chunk : jsstr) (payload : json) :
  JSON_parse chunk = Some payload ->
  get_field payload (lit "type") = Some (Some (JStr (lit "status"))) ->
  Chatbot.classify chunk = status_event payload
  /\ App.classify chunk = status_event payload.
Proof.
  intros Hp Hty. unfold Chatbot.classify, App.classify.
  rewrite (parsed_is_not_sentinel _ _ Hp), Hp, Hty. split; reflexivity.
Qed.

Lemma or_text_cases (a : value) (t : jsstr) :
  (truthy a = true -> Some (or_text a t) = a)
  /\ (truthy a = false -> or_text a t = JStr t).
Proof.
  unfold or_text. destruct a as [v|].
  - destruct (truthy (Some v)) eqn:E; split; congruence.
  - split; [discriminate|reflexivity].
Qed.

(** C5 (amended).  A payload that parses as JSON with [type] [status] makes
    both watchers take the status branch.  The state is that of
    [status.type]: [idle] gives [start], [error] gives [error], [success]
    gives [end], [working], a missing type and anything else give
    [thinking].  The text is
    [status.content] when truthy, else the top-level [content] when truthy,
    else the processing text.  Chatbot.vue sets the content and the state to
    them and keeps the buffer; App.vue sets the content, [statusContent] and
    the state of the last message.  The payload with [success] and [Done]
    leaves the placeholder in state [end] with content [Done]. *)
Theorem status_payload (chunk : jsstr) (payload : json) (st : Chatbot.state)
  (ast : App.state) :
  JSON_parse chunk = Some payload ->
  get_field payload (lit "type") = Some (Some (JStr (lit "status"))) ->
  let status := opt_field (Some payload) (lit "status") in
  let ty := opt_field status (lit "type") in
  let sc := opt_field status (lit "content") in
  let tc := opt_field (Some payload) (lit "content") in
  exists s text,
    Chatbot.classify chunk = StatusUpdate s text
    /\ App.classify chunk = StatusUpdate s text
    /\ (ty = Some (JStr (lit "idle")) -> s = TStart)
    /\ (truthy ty = false \/ ty = Some (JStr (lit "working")) -> s = TThinking)
    /\ (ty = Some (JStr (lit "error")) -> s = TError)
    /\ (ty = Some (JStr (lit "success")) -> s = TEnd)
    /\ (is_str ty "idle" = false -> is_str ty "error" = false ->
        is_str ty "success" = false -> s = TThinking)
    /\ (truthy sc = true -> Some text = sc)
    /\ (truthy sc = false -> truthy tc = true -> Some text = tc)
    /\ (truthy sc = false -> truthy tc = false -> text = JStr text_processing)
    /\ Chatbot.step st chunk
       = Chatbot.mkState (set_thinkingStatus s (set_content text (Chatbot.message st)))
                         (Chatbot.contentBuffer st)
    /\ App.step ast chunk
       = Some (App.mkState
                 (App.update_last
                    (fun m => set_thinkingStatus s
                                (set_statusContent text (set_content text m)))
                    (App.messages ast))
                 (App.contentBuffer ast))
    /\ Chatbot.message (Chatbot.step Chatbot.init chunk_status_done)
       = mkMessage Assistant (JStr (lit "Done")) (Some TEnd) (Some true) None None.
Proof.
  intros Hp Hty status ty sc tc.
  destruct (classify_status chunk payload Hp Hty) as [Hc Ha].
  assert (Hst : status = match get_field payload (lit "status") with
                         | Some v => v | None => None end)
    by apply opt_field_get.
  pose (statusType := or_text ty (lit "working")).
  pose (text := or_text (or_else sc tc) text_processing).
  pose (s := if is_str (Some statusType) "idle" then TStart
             else if is_str (Some statusType) "working" then TThinking
             else if is_str (Some statusType) "error" then TError
             else if is_str (Some statusType) "success" then TEnd
             else TThinking).
  assert (He : status_event payload = StatusUpdate s text).
  { unfold status_event. rewrite <- Hst. reflexivity. }
  exists s, text. rewrite Hc, Ha, He.
  assert (Hk : forall w, ty = Some (JStr (lit w)) ->
                         match lit w with [] => False | _ => True end ->
                         statusType = JStr (lit w)).
  { intros w Hw Hne. unfold statusType, or_text. rewrite Hw. simpl.
    destruct (lit w); [contradiction|reflexivity]. }
  repeat split.
  - intros H. unfold s. rewrite (Hk "idle"%string H I). reflexivity.
  - intros [H|H]; unfold s.
    + destruct (or_text_cases ty (lit "working")) as [_ Hd].
      fold statusType in Hd. rewrite (Hd H). reflexivity.
    + rewrite (Hk "working"%string H I). reflexivity.
  - intros H. unfold s. rewrite (Hk "error"%string H I). reflexivity.
  - intros H. unfold s. rewrite (Hk "success"%string H I). reflexivity.
  - intros Hi He' Hs'. unfold s.
    destruct (or_text_cases ty (lit "working")) as [Ht Hf].
    fold statusType in Ht, Hf.
    destruct (truthy ty) eqn:Et.
    + rewrite (Ht eq_refl), Hi, He', Hs'.
      destruct (is_str ty "working"); reflexivity.
    + rewrite (Hf eq_refl). reflexivity.
  - intros H. unfold text, or_else. rewrite H.
    apply (or_text_cases sc text_processing). exact H.
  - intros H1 H2. unfold text, or_else. rewrite H1.
    apply (or_text_cases tc text_processing). exact H2.
  - intros H1 H2. unfold text, or_else. rewrite H1.
    apply (or_text_cases tc text_processing). exact H2.
  - unfold Chatbot.step. rewrite Hc, He. reflexivity.
  - unfold App.step. destruct chunk as [|c chunk'].
    + discriminate Hp.
    + rewrite Ha, He. reflexivity.
Qed.

Lemma opt_index0_truthy (choices : value) :
  (if truthy choices
   then match choices with
        | Some c => match get_index0 c with
                    | Some c0 => opt_field (opt_field c0 (lit "delta")) (lit "content")
                    | None => None
                    end
        | None => None
        end
   else None)
  = opt_field (opt_field (if truthy choices then opt_index0 choices else None)
                         (lit "delta")) (lit "content").
Proof.
  destruct (truthy choices) eqn:E; [|reflexivity].
  destruct choices as [[| | | | |]|]; reflexivity.
Qed.

Lemma opt_index0_falsy (choices : value) :
  truthy choices = false ->
  truthy (opt_field (opt_field (opt_index0 choices) (lit "delta")) (lit "content"))
  = false.
Proof.
  destruct choices as [[| | | | |]|]; simpl; try reflexivity; try discriminate.
  destruct s; [reflexivity|discriminate].
Qed.

Lemma first_truthy_chain (F : json -> event) (a b c d e g : value) :
  match (if truthy a then a
         else if truthy b then b
         else if truthy c then c
         else if truthy d then d
         else if truthy e then e
         else if truthy g then g
         else None) with
  | Some v => if truthy (Some v) then F v else NoEvent
  | None => NoEvent
  end
  = match first_truthy [a; b; c; d; e; g] with
    | Some v => F v
    | None => NoEvent
    end.
Proof.
  unfold first_truthy. cbn [find].
  destruct (truthy a) eqn:Ea.
  { destruct a; [rewrite Ea; reflexivity|discriminate]. }
  destruct (truthy b) eqn:Eb.
  { destruct b; [rewrite Eb; reflexivity|discriminate]. }
  destruct (truthy c) eqn:Ec.
  { destruct c; [rewrite Ec; reflexivity|discriminate]. }
  destruct (truthy d) eqn:Ed.
  { destruct d; [rewrite Ed; reflexivity|discriminate]. }
  destruct (truthy e) eqn:Ee.
  { destruct e; [rewrite Ee; reflexivity|discriminate]. }
  destruct (truthy g) eqn:Eg.
  { destruct g; [rewrite Eg; reflexivity|discriminate]. }
  reflexivity.
Qed.

Lemma legacy_content_is_first_truthy (F : json -> event) (payload : json) :
  match Chatbot.legacy_content payload with
  | Some v => if truthy (Some v) then F v else NoEvent
  | None => NoEvent
  end
  = match first_truthy (legacy_fields payload) with
    | Some v => F v
    | None => NoEvent
    end.
Proof.
  unfold legacy_fields. cbv zeta. rewrite <- first_truthy_chain.
  unfold Chatbot.legacy_content. cbv zeta. rewrite opt_index0_truthy.
  set (f := opt_field (Some payload)).
  assert (H1 : forall X : value,
    (if truthy (f (lit "choices"))
        && truthy (opt_field (opt_field
             (if truthy (f (lit "choices")) then opt_index0 (f (lit "choices"))
              else None) (lit "delta")) (lit "content"))
     then opt_field (opt_field
             (if truthy (f (lit "choices")) then opt_index0 (f (lit "choices"))
              else None) (lit "delta")) (lit "content")
     else X)
    = (if truthy (opt_field (opt_field (opt_index0 (f (lit "choices")))
                                       (lit "delta")) (lit "content"))
       then opt_field (opt_field (opt_index0 (f (lit "choices")))
                                 (lit "delta")) (lit "content")
       else X)).
  { intros X. destruct (truthy (f (lit "choices"))) eqn:Ech.
    - reflexivity.
    - rewrite (opt_index0_falsy _ Ech). reflexivity. }
  rewrite H1.
  assert (H2 : forall X : value,
    (if truthy (f (lit "content")) && negb (truthy (f (lit "type")))
     then f (lit "content") else X)
    = (if truthy (if truthy (f (lit "type")) then None else f (lit "content"))
       then (if truthy (f (lit "type")) then None else f (lit "content"))
       else X)).
  { intros X. destruct (truthy (f (lit "type")));
      destruct (truthy (f (lit "content"))); reflexivity. }
  rewrite H2. reflexivity.
Qed.

Lemma parsed_chunk_nonempty (chunk : jsstr) (payload : json) :
  JSON_parse chunk = Some payload -> CTable.nonempty chunk = true.
Proof.
  destruct chunk; [intros H; elim (parsed_is_nonempty payload H)|reflexivity].
Qed.

(** C8 (amended).  For a payload that is not [null] and whose [type] is none
    of [explanation], [status], [error], [suggestions], [done], Chatbot.vue
    takes the first truthy of [choices[0].delta.content], [content] (counted
    only when the payload has no truthy [type]), [delta.content], [text],
    [message], [reply].  The string form of that value is appended to the
    buffer, the content becomes the buffer and the state moves from [start]
    to [thinking].  When the value has no string form (an object with a
    property [toString], by itself or in an array) the conversion throws
    and the [catch] appends the text of the chunk instead and leaves the
    state as it is.  When no field is truthy the chunk changes nothing. *)
Theorem legacy_fallback (chunk : jsstr) (payload : json) (ty : value)
  (st : Chatbot.state) :
  JSON_parse chunk = Some payload ->
  get_field payload (lit "type") = Some ty ->
  other_type ty ->
  Chatbot.classify chunk = legacy_event chunk (legacy_fields payload)
  /\ match first_truthy (legacy_fields payload) with
     | Some v =>
         match to_string v with
         | Some text =>
             let buf := Chatbot.contentBuffer st ++ text in
             Chatbot.contentBuffer (Chatbot.step st chunk) = buf
             /\ content (Chatbot.message (Chatbot.step st chunk)) = JStr buf
             /\ thinkingStatus (Chatbot.message (Chatbot.step st chunk))
                = match thinkingStatus (Chatbot.message st) with
                  | Some TStart => Some TThinking
                  | other => other
                  end
         | None =>
             let buf := Chatbot.contentBuffer st ++ chunk in
             Chatbot.contentBuffer (Chatbot.step st chunk) = buf
             /\ content (Chatbot.message (Chatbot.step st chunk)) = JStr buf
             /\ thinkingStatus (Chatbot.message (Chatbot.step st chunk))
                = thinkingStatus (Chatbot.message st)
         end
     | None => Chatbot.step st chunk = st
     end.
Proof.
  intros Hp Hty (He & Hs & Her & _ & Hd).
  assert (Hc : Chatbot.classify chunk = legacy_event chunk (legacy_fields payload)).
  { unfold Chatbot.classify.
    rewrite (parsed_is_not_sentinel _ _ Hp), Hp, Hty, He, Hs, Her, Hd.
    cbn [andb]. rewrite (parsed_chunk_nonempty _ _ Hp).
    apply (legacy_content_is_first_truthy
             (fun v => content_delta v (RawTextDelta chunk))). }
  split; [exact Hc|].
  unfold Chatbot.step. rewrite Hc. unfold legacy_event, content_delta.
  destruct (first_truthy (legacy_fields payload)) as [v|]; [|reflexivity].
  destruct (to_string v) as [text|];
    destruct st as [[r c [[| | |]|] i sc sg] b]; repeat split; reflexivity.
Qed.

End PayloadTheorems.

(** C5, the claim as stated fails: with no [status.content] but a top-level
    [content], the text is that content, not the processing text. *)
Lemma status_text_falls_back_to_content :
  ~ status_claim (ops := sample_ops) chunk_status_top_content.
Proof.
  intros H.
  assert (Hp : JSON_parse chunk_status_top_content = Some payload_status_top_content)
    by (vm_compute; reflexivity).
  destruct (H payload_status_top_content Hp eq_refl) as [s Hs].
  vm_compute in Hs. discriminate.
Qed.

(** The status payload of the example gives [end] and [Done]. *)
Lemma status_payload_witness :
  exists s text,
    Chatbot.classify (ops := sample_ops) chunk_status_done = StatusUpdate s text
    /\ s = TEnd /\ Some text = Some (JStr (lit "Done")).
Proof.
  assert (Hp : JSON_parse chunk_status_done = Some payload_status_done)
    by (vm_compute; reflexivity).
  destruct (status_payload (ops := sample_ops) chunk_status_done
              payload_status_done Chatbot.init (App.mkState [placeholder] [])
              Hp eq_refl)
    as (s & text & Hc & _ & _ & _ & _ & Hs & _ & Ht & _).
  exists s, text. split; [exact Hc|]. split.
  - apply Hs. reflexivity.
  - apply Ht. reflexivity.
Defined.

(** C8, the claim as stated fails: a payload of type [foo] with a [content]
    produces no event, for [content] is passed over when a type is there. *)
Lemma typed_payload_content_is_skipped :
  ~ legacy_claim (ops := sample_ops) chunk_other_type.
Proof.
  intros H.
  assert (Hp : JSON_parse chunk_other_type = Some payload_other_type)
    by (vm_compute; reflexivity).
  assert (Ho : other_type (Some (JStr (lit "foo"))))
    by (repeat split; reflexivity).
  specialize (H payload_other_type (Some (JStr (lit "foo"))) Hp eq_refl Ho).
  vm_compute in H. discriminate.
Qed.

(** With [text] and [reply] and no type, [text] comes first. *)
Lemma legacy_fallback_witness :
  Chatbot.classify (ops := sample_ops) chunk_legacy_text
  = legacy_event (ops := sample_ops) chunk_legacy_text
      (legacy_fields (ops := sample_ops) payload_legacy_text).
Proof.
  assert (Hp : JSON_parse chunk_legacy_text = Some payload_legacy_text)
    by (vm_compute; reflexivity).
  assert (Ho : other_type None) by (repeat split; reflexivity).
  exact (proj1 (legacy_fallback (ops := sample_ops) chunk_legacy_text
                  payload_legacy_text None Chatbot.init Hp eq_refl Ho)).
Defined.

(** A text field that is an object with a property [toString] cannot be
    appended: the chunk itself is, as raw text, and the state stays at
    [start]. *)
Example unconvertible_text_is_taken_raw :
  Chatbot.classify (ops := sample_ops) chunk_unconvertible_text
  = RawTextDelta chunk_unconvertible_text
  /\ Chatbot.step (ops := sample_ops) Chatbot.init chunk_unconvertible_text
     = Chatbot.mkState
         (set_content (JStr chunk_unconvertible_text) placeholder)
         chunk_unconvertible_text
  /\ Chatbot.classify (ops := sample_ops) chunk_unconvertible_explanation
     = RawTextDelta chunk_unconvertible_explanation
  /\ App.classify (ops := sample_ops) chunk_unconvertible_explanation
     = RawTextDelta chunk_unconvertible_explanation.
Proof. repeat split; vm_compute; reflexivity. Qed.

(** * The theme colour *)

Lemma hex_val_range (c : char) (d : N) :
  hex_val c = Some d ->
  (d < 16)%N /\ ((48 <= c <= 57) \/ (97 <= c <= 102) \/ (65 <= c <= 70))%N.
Proof.
  unfold hex_val, is_digit.
  destruct (N.leb_spec 48 c), (N.leb_spec c 57); cbn [andb].
  - intros [= <-]. lia.
  - destruct (N.leb_spec 97 c), (N.leb_spec c 102); cbn [andb];
      try (intros [= <-]; lia);
      destruct (N.leb_spec 65 c), (N.leb_spec c 70); cbn [andb];
      try (intros [= <-]; lia); discriminate.
  - destruct (N.leb_spec 97 c), (N.leb_spec c 102); cbn [andb];
      try (intros [= <-]; lia);
      destruct (N.leb_spec 65 c), (N.leb_spec c 70); cbn [andb];
      try (intros [= <-]; lia); discriminate.
  - destruct (N.leb_spec 97 c), (N.leb_spec c 102); cbn [andb];
      try (intros [= <-]; lia);
      destruct (N.leb_spec 65 c), (N.leb_spec c 70); cbn [andb];
      try (intros [= <-]; lia); discriminate.
Qed.

Lemma is_hex_val (c : char) :
  is_hex c = true -> exists d, hex_val c = Some d /\ (d < 16)%N.
Proof.
  unfold is_hex. destruct (hex_val c) as [d|] eqn:E; [|discriminate].
  intros _. exists d. split; [reflexivity|].
  exact (proj1 (hex_val_range c d E)).
Qed.

Lemma hex_value_app (h : jsstr) (acc : N) :
  forallb is_hex h = true ->
  Theme.hex_value h acc
  = (acc * 16 ^ N.of_nat (length h) + Theme.hex_value h 0)%N
  /\ (Theme.hex_value h 0 < 16 ^ N.of_nat (length h))%N.
Proof.
  revert acc. induction h as [|c h IH]; intros acc H.
  - cbn. split; lia.
  - cbn [forallb] in H. apply andb_prop in H as [Hc Hh].
    destruct (is_hex_val c Hc) as (d & Hd & Hlt).
    cbn [Theme.hex_value length]. rewrite Hd.
    destruct (IH (acc * 16 + d)%N Hh) as [E1 B].
    destruct (IH (0 * 16 + d)%N Hh) as [E2 _].
    rewrite E1, E2. rewrite Nat2N.inj_succ, N.pow_succ_r'.
    split; nia.
Qed.

Lemma hex_value_bound (h : jsstr) :
  forallb is_hex h = true -> length h <= 13 ->
  (Theme.hex_value h 0 < 2 ^ 52)%N.
Proof.
  intros H L. destruct (hex_value_app h 0 H) as [_ B].
  eapply N.lt_le_trans; [exact B|].
  change (2 ^ 52)%N with (16 ^ 13)%N.
  apply N.pow_le_mono_r; lia.
Qed.

(** A number of at most 53 bits is a double: nothing is rounded. *)
Lemma nearest_exact (m e : Z) :
  (Z.abs m < 2 ^ 53)%Z -> Theme.nearest m e = Theme.Fin m e.
Proof.
  intros H. unfold Theme.nearest. cbv zeta.
  assert (N.size (Z.abs_N m) <= 53)%N as L.
  { assert (Z.abs_N m < 2 ^ 53)%N as B.
    { apply N2Z.inj_lt. rewrite N2Z.inj_abs_N.
      change (Z.of_N (2 ^ 53)) with (2 ^ 53)%Z. exact H. }
    destruct (N.eq_dec (Z.abs_N m) 0) as [->|Hn]; [cbn; lia|].
    rewrite N.size_log2 by exact Hn.
    assert (N.log2 (Z.abs_N m) < 53)%N by (apply N.log2_lt_pow2; lia). lia. }
  apply N.leb_le in L. rewrite L. reflexivity.
Qed.

(** What is below zero stays below zero when it is rounded, so that the
    maximum with zero is zero. *)
Lemma max0_negative (m : Z) :
  (m < 0)%Z -> Theme.to_int32 (Theme.max0 (Theme.nearest m 0)) = 0%Z.
Proof.
  intros H. unfold Theme.nearest. cbv zeta.
  assert ((m <? 0)%Z = true) as Hm by (apply Z.ltb_lt; exact H).
  destruct (N.size (Z.abs_N m) <=? 53)%N.
  - cbn [Theme.max0]. rewrite Hm. reflexivity.
  - rewrite Hm.
    match goal with
    | |- context [Theme.Fin (- Z.of_N ?q) ?e] => set (q' := q); set (e' := e)
    end.
    destruct (1025 <=? Z.of_N (N.size q') + e')%Z; [reflexivity|].
    cbn [Theme.max0].
    destruct (Z.ltb_spec (- Z.of_N q') 0) as [_|G]; [reflexivity|].
    assert (Z.of_N q' = 0%Z) as E by lia.
    unfold Theme.to_int32. rewrite E. cbn [Z.opp].
    rewrite Z.mul_0_l. destruct (0 <=? e')%Z; reflexivity.
Qed.

Lemma parseInt16_hex (h : jsstr) :
  hex_colour h -> Theme.parseInt16 h = Theme.int (colour_value h).
Proof.
  intros [H [L1 L2]]. destruct h as [|c h]; [cbn in L1; lia|].
  pose proof H as H0. cbn [forallb] in H0. apply andb_prop in H0 as [Hc Hh].
  destruct (is_hex_val c Hc) as (d & Hd & _).
  destruct (hex_val_range c d Hd) as [_ R].
  assert (is_space c = false) as Hs.
  { unfold is_space.
    repeat match goal with
           | |- context [N.leb ?a ?b] => destruct (N.leb_spec a b)
           | |- context [N.eqb ?a ?b] => destruct (N.eqb_spec a b)
           end; cbn; try reflexivity; lia. }
  unfold Theme.parseInt16. rewrite (trimStart_nonspace c h Hs).
  destruct (N.eqb_spec c 45); [lia|]. destruct (N.eqb_spec c 43); [lia|].
  assert (Theme.nearest (Z.of_N (Theme.hex_value (c :: h) 0)) 0
          = Theme.int (colour_value (c :: h))) as Hr.
  { apply nearest_exact.
    pose proof (hex_value_bound (c :: h) H L2) as B.
    apply N2Z.inj_lt in B. change (Z.of_N (2 ^ 52)) with (2 ^ 52)%Z in B.
    lia. }
  destruct h as [|b t].
  - cbv beta iota. rewrite Hd, Hr. reflexivity.
  - cbn [forallb] in Hh. apply andb_prop in Hh as [Hb _].
    destruct (is_hex_val b Hb) as (e & He & _).
    destruct (hex_val_range b e He) as [_ Rb].
    destruct (N.eqb_spec b 120); [lia|]. destruct (N.eqb_spec b 88); [lia|].
    rewrite andb_false_r. cbv beta iota. rewrite Hd, Hr. reflexivity.
Qed.

Lemma to_int32_int (z : Z) :
  Theme.to_int32 (Theme.int z)
  = ((z + 2147483648) mod 4294967296 - 2147483648)%Z.
Proof.
  unfold Theme.to_int32, Theme.int. cbn [Z.leb Z.compare].
  change (2 ^ 0)%Z with 1%Z. rewrite Z.mul_1_r. reflexivity.
Qed.

Lemma to_int32_small (z : Z) :
  (0 <= z < 2147483648)%Z -> Theme.to_int32 (Theme.int z) = z.
Proof.
  intros H. rewrite to_int32_int.
  rewrite Z.mod_small by lia. lia.
Qed.

(** A channel lowered by a whole number, as the code computes it. *)
Lemma darken_channel (c p : Z) :
  (0 <= c < 256)%Z -> (0 <= p)%Z ->
  Theme.to_int32 (Theme.max0 (Theme.sub_int c (Theme.int p))) = darker c p.
Proof.
  intros Hc Hp. unfold Theme.sub_int, Theme.int. cbn [Z.leb Z.compare].
  change (2 ^ 0)%Z with 1%Z. rewrite Z.mul_1_r. unfold darker.
  destruct (Z.lt_ge_cases (c - p) 0) as [L|G].
  - rewrite (max0_negative _ L). lia.
  - rewrite nearest_exact by lia. cbn [Theme.max0].
    destruct (Z.ltb_spec (c - p) 0) as [L|_]; [lia|].
    fold (Theme.int (c - p)). rewrite to_int32_small by lia. lia.
Qed.

(** A channel of the 32-bit reading is the channel of the number read. *)
Lemma channel_of_int32 (n k : Z) :
  (0 <= k <= 16)%Z ->
  Theme.band (Theme.sar (Theme.to_int32 (Theme.int n)) k) 255
  = ((n / 2 ^ k) mod 256)%Z.
Proof.
  intros Hk. rewrite to_int32_int. unfold Theme.band, Theme.sar.
  change 255%Z with (Z.ones 8). rewrite Z.land_ones by lia.
  rewrite Z.shiftr_div_pow2 by lia.
  change (2 ^ 8)%Z with 256%Z.
  set (q := ((n + 2147483648) / 4294967296)%Z).
  assert (((n + 2147483648) mod 4294967296 - 2147483648
           = n + (- q * 2 ^ (24 - k) * 256) * 2 ^ k)%Z) as ->.
  { assert (2 ^ (24 - k) * 256 * 2 ^ k = 4294967296)%Z as E.
    { replace (2 ^ (24 - k) * 256 * 2 ^ k)%Z
        with (2 ^ (24 - k) * 2 ^ k * 2 ^ 8)%Z by (change (2 ^ 8)%Z with 256%Z; ring).
      rewrite <- !Z.pow_add_r by lia.
      replace (24 - k + k + 8)%Z with 32%Z by lia. reflexivity. }
    pose proof (Z.div_mod (n + 2147483648) 4294967296 ltac:(lia)) as D.
    fold q in D.
    replace (- q * 2 ^ (24 - k) * 256 * 2 ^ k)%Z
      with (- q * (2 ^ (24 - k) * 256 * 2 ^ k))%Z by ring.
    rewrite E. lia. }
  rewrite Z.div_add by (apply Z.pow_nonzero; lia).
  replace (n / 2 ^ k + - q * 2 ^ (24 - k) * 256)%Z
    with (n / 2 ^ k + (- q * 2 ^ (24 - k)) * 256)%Z by ring.
  apply Z.mod_add. lia.
Qed.

Lemma land_shifted (a b k : Z) :
  (0 <= k)%Z -> (0 <= b < 2 ^ k)%Z -> Z.land (a * 2 ^ k) b = 0%Z.
Proof.
  intros Hk Hb. apply Z.bits_inj'. intros i Hi.
  rewrite Z.land_spec, Z.bits_0.
  destruct (Z.lt_ge_cases i k) as [L|G].
  - rewrite Z.mul_pow2_bits_low by lia. reflexivity.
  - destruct (Z.eq_dec b 0) as [->|Hz].
    + rewrite Z.bits_0. apply andb_false_r.
    + rewrite (Z.bits_above_log2 b i); [apply andb_false_r|lia|].
      assert (Z.log2 b < k)%Z by (apply Z.log2_lt_pow2; lia). lia.
Qed.

Lemma lor_channels (r g b : Z) :
  (0 <= r < 256)%Z -> (0 <= g < 256)%Z -> (0 <= b < 256)%Z ->
  Theme.bor (Theme.bor (Theme.shl r 16) (Theme.shl g 8)) b
  = (r * 65536 + g * 256 + b)%Z.
Proof.
  intros Hr Hg Hb. unfold Theme.bor, Theme.shl.
  rewrite !Z.shiftl_mul_pow2 by lia.
  change (2 ^ 16)%Z with 65536%Z. change (2 ^ 8)%Z with 256%Z.
  rewrite (to_int32_small (r * 65536)), (to_int32_small (g * 256)) by lia.
  assert (Z.lor (r * 65536) (g * 256) = r * 65536 + g * 256)%Z as ->.
  { rewrite <- Z.add_lor_land.
    replace (r * 65536)%Z with (r * 2 ^ 16)%Z by reflexivity.
    rewrite (land_shifted r (g * 256) 16) by lia. lia. }
  rewrite <- (Z.add_lor_land (r * 65536 + g * 256) b).
  replace (r * 65536 + g * 256)%Z with ((r * 256 + g) * 2 ^ 8)%Z
    by (change (2 ^ 8)%Z with 256%Z; ring).
  rewrite (land_shifted (r * 256 + g) b 8) by lia. lia.
Qed.

Lemma hex_char_zero : Theme.hex_char 0 = 48%N.
Proof. reflexivity. Qed.

Lemma hexn_zero (k : nat) : hexn k 0 = repeat 48%N k.
Proof.
  induction k as [|k IH]; [reflexivity|].
  cbn [hexn]. change (0 / 16)%N with 0%N. change (0 mod 16)%N with 0%N.
  rewrite IH, hex_char_zero.
  clear IH. induction k as [|k IH]; [reflexivity|].
  cbn [repeat app]. rewrite IH. reflexivity.
Qed.

Lemma hexn_length (k : nat) (n : N) : length (hexn k n) = k.
Proof.
  revert n. induction k as [|k IH]; intros n; [reflexivity|].
  cbn [hexn]. rewrite length_app, IH. cbn. lia.
Qed.

(** The digit loop, padded in front, gives the fixed-width digits. *)
Lemma hex_digits_padded (f : nat) :
  forall (k : nat) (n : N) (acc : jsstr),
    f <> 0 -> (n < 2 ^ N.of_nat f)%N -> k <> 0 -> (n < 16 ^ N.of_nat k)%N ->
    length (Theme.hex_digits f n acc) <= k + length acc
    /\ repeat 48%N (k + length acc - length (Theme.hex_digits f n acc))
       ++ Theme.hex_digits f n acc
       = hexn k n ++ acc.
Proof.
  induction f as [|f IH]; intros k n acc Hf Hn Hk Hb; [congruence|].
  destruct k as [|k]; [congruence|].
  cbn [Theme.hex_digits hexn]. cbv zeta.
  destruct (N.eqb_spec (n / 16) 0) as [E|E].
  - rewrite E, hexn_zero. cbn [length].
    split; [lia|].
    replace (S k + length acc - S (length acc)) with k by lia.
    rewrite <- app_assoc. reflexivity.
  - assert (16 <= n)%N as Hge.
    { destruct (N.lt_ge_cases n 16) as [L|G]; [|exact G].
      elim E. apply N.div_small. exact L. }
    assert (f <> 0) as Hf'.
    { intros ->. cbn in Hn. lia. }
    assert (k <> 0) as Hk'.
    { intros ->. cbn in Hb. lia. }
    assert (n / 16 < 2 ^ N.of_nat f)%N as Hn'.
    { rewrite Nat2N.inj_succ, N.pow_succ_r' in Hn.
      apply N.Div0.div_lt_upper_bound. lia. }
    assert (n / 16 < 16 ^ N.of_nat k)%N as Hb'.
    { rewrite Nat2N.inj_succ, N.pow_succ_r' in Hb.
      apply N.Div0.div_lt_upper_bound. lia. }
    destruct (IH k (n / 16)%N (Theme.hex_char (n mod 16) :: acc) Hf' Hn' Hk' Hb')
      as [L R].
    cbn [length] in L, R.
    split; [lia|].
    replace (S k + length acc) with (k + S (length acc)) by lia.
    rewrite R, <- app_assoc. reflexivity.
Qed.

Lemma size_nat_size (n : N) : N.of_nat (N.size_nat n) = N.size n.
Proof.
  destruct n as [|p]; [reflexivity|]. cbn [N.size_nat N.size].
  assert (Pos.size_nat p = Pos.to_nat (Pos.size p)) as ->.
  { induction p as [p IH|p IH|]; cbn [Pos.size_nat Pos.size];
      rewrite ?Pos2Nat.inj_succ, ?IH; reflexivity. }
  apply positive_nat_N.
Qed.

Lemma toString16_padded (m : Z) :
  (0 <= m < 16777216)%Z ->
  Theme.padStart (Theme.toString16 m) 6 48%N = hexn 6 (Z.to_N m).
Proof.
  intros H. unfold Theme.toString16, Theme.padStart.
  destruct (Z.ltb_spec m 0) as [L|_]; [lia|].
  set (n := Z.to_N m).
  assert (n < 16 ^ N.of_nat 6)%N as Hb by (change (16 ^ N.of_nat 6)%N with 16777216%N; lia).
  assert (n < 2 ^ N.of_nat (S (N.size_nat n)))%N as Hn.
  { rewrite Nat2N.inj_succ, size_nat_size, N.pow_succ_r'.
    pose proof (N.size_gt n). lia. }
  destruct (hex_digits_padded (S (N.size_nat n)) 6 n []
              ltac:(discriminate) Hn ltac:(discriminate) Hb) as [_ R].
  cbn [length] in R. rewrite Nat.add_0_r, app_nil_r in R. exact R.
Qed.

Lemma hexn_byte (k : nat) (x c : N) :
  (c < 256)%N ->
  hexn (S (S k)) (x * 256 + c)
  = hexn k x ++ [Theme.hex_char (c / 16); Theme.hex_char (c mod 16)].
Proof.
  intros Hc. cbn [hexn].
  assert ((x * 256 + c) mod 16 = c mod 16)%N as ->.
  { replace (x * 256 + c)%N with (c + (x * 16) * 16)%N by lia.
    apply N.Div0.mod_add. }
  assert ((x * 256 + c) / 16 = x * 16 + c / 16)%N as ->.
  { replace (x * 256 + c)%N with (c + (x * 16) * 16)%N by lia.
    rewrite N.div_add by lia. lia. }
  assert ((x * 16 + c / 16) mod 16 = c / 16)%N as ->.
  { replace (x * 16 + c / 16)%N with (c / 16 + x * 16)%N by lia.
    rewrite N.Div0.mod_add. apply N.mod_small.
    apply N.Div0.div_lt_upper_bound. lia. }
  assert ((x * 16 + c / 16) / 16 = x)%N as ->.
  { replace (x * 16 + c / 16)%N with (c / 16 + x * 16)%N by lia.
    rewrite N.div_add by lia. rewrite (N.div_small (c / 16)); [lia|].
    apply N.Div0.div_lt_upper_bound. lia. }
  rewrite <- app_assoc. reflexivity.
Qed.

Lemma hex2_of_N (c : Z) :
  (0 <= c)%Z ->
  hex2 c = [Theme.hex_char (Z.to_N c / 16); Theme.hex_char (Z.to_N c mod 16)].
Proof.
  intros H. unfold hex2.
  rewrite Z2N.inj_div, Z2N.inj_mod by lia. reflexivity.
Qed.

Lemma hexn_channels (r g b : Z) :
  (0 <= r < 256)%Z -> (0 <= g < 256)%Z -> (0 <= b < 256)%Z ->
  hexn 6 (Z.to_N (r * 65536 + g * 256 + b)) = hex2 r ++ hex2 g ++ hex2 b.
Proof.
  intros Hr Hg Hb.
  replace (Z.to_N (r * 65536 + g * 256 + b))
    with (((0 * 256 + Z.to_N r) * 256 + Z.to_N g) * 256 + Z.to_N b)%N by lia.
  rewrite !hexn_byte by lia.
  rewrite !hex2_of_N by lia. reflexivity.
Qed.

Lemma darker_range (c percent : Z) :
  (0 <= c < 256)%Z -> (0 <= percent)%Z -> (0 <= darker c percent < 256)%Z.
Proof. unfold darker. lia. Qed.

Lemma channel_ranges (n : Z) :
  (0 <= red n < 256)%Z /\ (0 <= green n < 256)%Z /\ (0 <= blue n < 256)%Z.
Proof.
  unfold red, green, blue.
  pose proof (Z.mod_pos_bound (n / 65536) 256 ltac:(lia)).
  pose proof (Z.mod_pos_bound (n / 256) 256 ltac:(lia)).
  pose proof (Z.mod_pos_bound n 256 ltac:(lia)). lia.
Qed.

(** What [darkenColor] computes on hexadecimal digits. *)
Lemma darkenColor_value (h : jsstr) (percent : Z) :
  hex_colour h -> (0 <= percent)%Z ->
  Theme.darkenColor (Theme.hash :: h) (Theme.int percent)
  = Theme.hash
      :: hexn 6 (Z.to_N (darker (red (colour_value h)) percent * 65536
                         + darker (green (colour_value h)) percent * 256
                         + darker (blue (colour_value h)) percent)).
Proof.
  intros Hh Hp. unfold Theme.darkenColor.
  assert (startsWith (Theme.hash :: h) [Theme.hash] = true) as ->.
  { cbn. destruct h; reflexivity. }
  assert (Theme.remove_first Theme.hash (Theme.hash :: h) = h) as -> by reflexivity.
  rewrite (parseInt16_hex h Hh). cbv zeta.
  set (n := colour_value h).
  pose proof (channel_of_int32 n 16 ltac:(lia)) as Er.
  pose proof (channel_of_int32 n 8 ltac:(lia)) as Eg.
  pose proof (channel_of_int32 n 0 ltac:(lia)) as Eb.
  change (2 ^ 16)%Z with 65536%Z in Er. change (2 ^ 8)%Z with 256%Z in Eg.
  change (2 ^ 0)%Z with 1%Z in Eb. rewrite Z.div_1_r in Eb.
  unfold Theme.sar in Eb. rewrite Z.shiftr_0_r in Eb.
  rewrite Er, Eg, Eb.
  fold (red n) (green n) (blue n).
  destruct (channel_ranges n) as (Rr & Rg & Rb).
  rewrite (darken_channel (red n) percent Rr Hp).
  rewrite (darken_channel (green n) percent Rg Hp).
  rewrite (darken_channel (blue n) percent Rb Hp).
  pose proof (darker_range _ _ Rr Hp). pose proof (darker_range _ _ Rg Hp).
  pose proof (darker_range _ _ Rb Hp).
  rewrite lor_channels by assumption.
  rewrite toString16_padded by lia. reflexivity.
Qed.

Lemma hex_val_hex_char (d : N) :
  (d < 16)%N -> hex_val (Theme.hex_char d) = Some d.
Proof.
  intros H.
  assert (d = 0 \/ d = 1 \/ d = 2 \/ d = 3 \/ d = 4 \/ d = 5 \/ d = 6 \/ d = 7
          \/ d = 8 \/ d = 9 \/ d = 10 \/ d = 11 \/ d = 12 \/ d = 13 \/ d = 14
          \/ d = 15)%N as C by lia.
  repeat (destruct C as [->|C]; [reflexivity|]). subst d. reflexivity.
Qed.

Lemma hexn_is_hex (k : nat) (n : N) : forallb is_hex (hexn k n) = true.
Proof.
  revert n. induction k as [|k IH]; intros n; [reflexivity|].
  cbn [hexn]. rewrite forallb_app, IH. cbn [forallb andb].
  unfold is_hex. rewrite hex_val_hex_char; [reflexivity|].
  apply N.mod_lt. lia.
Qed.

(** Reading back the fixed-width digits gives the number. *)
Lemma hex_value_hexn (k : nat) (n : N) :
  (n < 16 ^ N.of_nat k)%N -> Theme.hex_value (hexn k n) 0 = n.
Proof.
  revert n. induction k as [|k IH]; intros n H.
  - cbn in H. cbn. lia.
  - cbn [hexn].
    assert (n / 16 < 16 ^ N.of_nat k)%N as Hq.
    { rewrite Nat2N.inj_succ, N.pow_succ_r' in H.
      apply N.Div0.div_lt_upper_bound. lia. }
    assert (forall a b acc, forallb is_hex a = true ->
              Theme.hex_value (a ++ b) acc
              = Theme.hex_value b (Theme.hex_value a acc)) as App.
    { clear. induction a as [|c a IHa]; intros b acc Ha; [reflexivity|].
      cbn [forallb] in Ha. apply andb_prop in Ha as [Hc Ha].
      destruct (is_hex_val c Hc) as (d & Hd & _).
      cbn [app Theme.hex_value]. rewrite Hd. apply IHa. exact Ha. }
    rewrite App by apply hexn_is_hex. rewrite (IH _ Hq).
    cbn [Theme.hex_value]. rewrite hex_val_hex_char by (apply N.mod_lt; lia).
    pose proof (N.div_mod n 16 ltac:(lia)). lia.
Qed.

Lemma channels_of_sum (r g b : Z) :
  (0 <= r < 256)%Z -> (0 <= g < 256)%Z -> (0 <= b < 256)%Z ->
  red (r * 65536 + g * 256 + b) = r
  /\ green (r * 65536 + g * 256 + b) = g
  /\ blue (r * 65536 + g * 256 + b) = b.
Proof.
  intros Hr Hg Hb. unfold red, green, blue. repeat split.
  - replace (r * 65536 + g * 256 + b)%Z with (g * 256 + b + r * 65536)%Z by ring.
    rewrite Z.div_add by lia. rewrite (Z.div_small (g * 256 + b)) by lia.
    apply Z.mod_small. lia.
  - replace (r * 65536 + g * 256 + b)%Z with (b + (r * 256 + g) * 256)%Z by ring.
    rewrite Z.div_add by lia. rewrite (Z.div_small b) by lia.
    replace (0 + (r * 256 + g))%Z with (g + r * 256)%Z by ring.
    rewrite Z.mod_add by lia. apply Z.mod_small. lia.
  - replace (r * 65536 + g * 256 + b)%Z with (b + (r * 256 + g) * 256)%Z by ring.
    rewrite Z.mod_add by lia. apply Z.mod_small. lia.
Qed.

(** ** Properties *)

(** X1.  [darkenColor] on a number sign followed by one to thirteen
    hexadecimal digits, with a percentage that is a whole number and not
    negative: the result is the number sign and exactly six lower-case
    hexadecimal digits, two for each of the red, green and blue channels of
    the number the digits denote, each channel lowered by [percent] and not
    below zero. (The percentage is subtracted as a channel value, and the
    channels are the low 24 bits of the number: the digits are not read as a
    CSS short form.) *)
Theorem darkenColor_channels (h : jsstr) (percent : Z) :
  hex_colour h -> (0 <= percent)%Z ->
  Theme.darkenColor (Theme.hash :: h) (Theme.int percent)
  = Theme.hash
      :: hex2 (darker (red (colour_value h)) percent)
      ++ hex2 (darker (green (colour_value h)) percent)
      ++ hex2 (darker (blue (colour_value h)) percent).
Proof.
  intros Hh Hp. rewrite (darkenColor_value h percent Hh Hp).
  destruct (channel_ranges (colour_value h)) as (Rr & Rg & Rb).
  rewrite hexn_channels by (apply darker_range; assumption).
  reflexivity.
Qed.

(** The default primary colour, darkened by 15. *)
Lemma darkenColor_channels_witness :
  Theme.darkenColor (lit "#409EFF") (Theme.int 15) = lit "#318ff0".
Proof.
  assert (H : hex_colour (lit "409EFF")) by (split; [reflexivity|cbn; lia]).
  change (lit "#409EFF") with (Theme.hash :: lit "409EFF").
  rewrite (darkenColor_channels (lit "409EFF") 15 H ltac:(lia)).
  reflexivity.
Defined.

(** X2.  For percentages that are whole numbers and not negative, darkening
    in two steps is darkening once by the sum: the colour [darkenColor]
    returns is read back by [darkenColor] as the channels it wrote. (For a
    percentage with a fraction it is not so, as [darkenColor_by_halves]
    shows: each step cuts the fraction off.) *)
Theorem darkenColor_twice (h : jsstr) (p q : Z) :
  hex_colour h -> (0 <= p)%Z -> (0 <= q)%Z ->
  Theme.darkenColor (Theme.darkenColor (Theme.hash :: h) (Theme.int p))
                    (Theme.int q)
  = Theme.darkenColor (Theme.hash :: h) (Theme.int (p + q)).
Proof.
  intros Hh Hp Hq.
  rewrite (darkenColor_value h p Hh Hp).
  rewrite (darkenColor_value h (p + q) Hh ltac:(lia)).
  destruct (channel_ranges (colour_value h)) as (Rr & Rg & Rb).
  pose proof (darker_range _ _ Rr Hp) as Dr.
  pose proof (darker_range _ _ Rg Hp) as Dg.
  pose proof (darker_range _ _ Rb Hp) as Db.
  set (m := (darker (red (colour_value h)) p * 65536
             + darker (green (colour_value h)) p * 256
             + darker (blue (colour_value h)) p)%Z) in *.
  assert (hex_colour (hexn 6 (Z.to_N m))) as Hm.
  { split; [apply hexn_is_hex|]. rewrite hexn_length. lia. }
  rewrite (darkenColor_value _ q Hm Hq).
  assert (colour_value (hexn 6 (Z.to_N m)) = m) as ->.
  { unfold colour_value. rewrite hex_value_hexn.
    - apply Z2N.id. unfold m. lia.
    - change (16 ^ N.of_nat 6)%N with 16777216%N. unfold m. lia. }
  destruct (channels_of_sum _ _ _ Dr Dg Db) as (Er & Eg & Eb).
  fold m in Er, Eg, Eb. rewrite Er, Eg, Eb.
  unfold darker.
  replace (Z.max 0 (Z.max 0 (red (colour_value h) - p) - q))
    with (Z.max 0 (red (colour_value h) - (p + q))) by lia.
  replace (Z.max 0 (Z.max 0 (green (colour_value h) - p) - q))
    with (Z.max 0 (green (colour_value h) - (p + q))) by lia.
  replace (Z.max 0 (Z.max 0 (blue (colour_value h) - p) - q))
    with (Z.max 0 (blue (colour_value h) - (p + q))) by lia.
  reflexivity.
Qed.

Lemma darkenColor_twice_witness :
  Theme.darkenColor (Theme.darkenColor (lit "#409EFF") (Theme.int 15))
                    (Theme.int 20)
  = Theme.darkenColor (lit "#409EFF") (Theme.int 35).
Proof.
  assert (H : hex_colour (lit "409EFF")) by (split; [reflexivity|cbn; lia]).
  exact (darkenColor_twice (lit "409EFF") 15 20 H ltac:(lia) ltac:(lia)).
Defined.

(** A half is cut off at each step: [#0a0a0a] darkened by one half is
    [#090909], and darkened by one half again it is [#080808], while
    darkened once by one it is [#090909]. *)
Example darkenColor_by_halves :
  Theme.darkenColor (lit "#0a0a0a") half = lit "#090909"
  /\ Theme.darkenColor (Theme.darkenColor (lit "#0a0a0a") half) half
     = lit "#080808"
  /\ Theme.darkenColor (lit "#0a0a0a") (Theme.int 1) = lit "#090909".
Proof. repeat split; vm_compute; reflexivity. Qed.

(** X3.  A colour written with at most four hexadecimal digits is not
    expanded as a CSS short form: its digits are the low digits of the
    number, so, whatever whole number that is not negative the percentage
    is, the result has a red channel of zero and begins with [#00]. *)
Theorem darkenColor_short_form (h : jsstr) (percent : Z) :
  forallb is_hex h = true -> 1 <= length h <= 4 -> (0 <= percent)%Z ->
  exists rest,
    Theme.darkenColor (Theme.hash :: h) (Theme.int percent) = lit "#00" ++ rest
    /\ length rest = 4.
Proof.
  intros Hh Hl Hp.
  assert (hex_colour h) as Hc by (split; [exact Hh|lia]).
  rewrite (darkenColor_value h percent Hc Hp).
  assert (red (colour_value h) = 0%Z) as Er.
  { unfold red, colour_value.
    destruct (hex_value_app h 0 Hh) as [_ B].
    assert (Theme.hex_value h 0 < 65536)%N as B'.
    { eapply N.lt_le_trans; [exact B|].
      change 65536%N with (16 ^ 4)%N. apply N.pow_le_mono_r; lia. }
    rewrite Z.div_small by lia. reflexivity. }
  rewrite Er.
  destruct (channel_ranges (colour_value h)) as (_ & Rg & Rb).
  assert (0 <= darker 0 percent < 256)%Z as R0 by (unfold darker; lia).
  rewrite hexn_channels by (try exact R0; apply darker_range; assumption).
  assert (darker 0 percent = 0%Z) as -> by (unfold darker; lia).
  exists (hex2 (darker (green (colour_value h)) percent)
          ++ hex2 (darker (blue (colour_value h)) percent)).
  split; reflexivity.
Qed.

(** White in its short form comes out as a blue. *)
Lemma darkenColor_short_form_witness :
  exists rest,
    Theme.darkenColor (lit "#fff") (Theme.int 15) = lit "#00" ++ rest
    /\ length rest = 4.
Proof.
  exact (darkenColor_short_form (lit "fff") 15 eq_refl
           ltac:(cbn; lia) ltac:(lia)).
Defined.

(** * The stream watchers: buffer, cursor and frame *)

Section Watchers.
Context {ops : NumberOps}.

Lemma chatbot_buffer_apply (st : Chatbot.state) (e : event) :
  Chatbot.contentBuffer (Chatbot.apply st e)
  = Chatbot.contentBuffer st ++ delta_text e.
Proof.
  destruct e; cbn [Chatbot.apply Chatbot.contentBuffer delta_text];
    rewrite ?app_nil_r; reflexivity.
Qed.

Lemma chatbot_buffer (chunks : list jsstr) (st : Chatbot.state) :
  Chatbot.contentBuffer (fold_left Chatbot.step chunks st)
  = Chatbot.contentBuffer st ++ received (map Chatbot.classify chunks).
Proof.
  revert st. induction chunks as [|c chunks IH]; intros st.
  - cbn. rewrite app_nil_r. reflexivity.
  - cbn [fold_left map]. rewrite IH. unfold Chatbot.step.
    rewrite chatbot_buffer_apply. unfold received. cbn [map concat].
    rewrite app_assoc. reflexivity.
Qed.

Lemma classify_done_chatbot (done : jsstr) :
  trim done = done_marker -> Chatbot.classify done = StreamEnd.
Proof.
  intros H. unfold Chatbot.classify. rewrite H. reflexivity.
Qed.

Lemma classify_done_app (done : jsstr) :
  trim done = done_marker -> App.classify done = StreamEnd.
Proof.
  intros H. unfold App.classify. rewrite H. reflexivity.
Qed.

(** X4.  Chatbot.vue, [callApiSSE]: when the [DONE] marker arrives, the
    message shows exactly the text received so far, in order, whatever
    status and error updates came in between: for each content chunk the
    string form of its content, and the chunk itself for a chunk that is no
    JSON or whose content has no string form (the append throws and the
    [catch] takes the chunk as text). When there was no text it shows the
    query-done text. The display state is then [end] and the message no
    longer streams. *)
Theorem chatbot_done_shows_received (st : Chatbot.state) (chunks : list jsstr)
  (done : jsstr) :
  trim done = done_marker ->
  let m := Chatbot.message (fold_left Chatbot.step (chunks ++ [done]) st) in
  content m
  = JStr (buffer_or (Chatbot.contentBuffer st
                     ++ received (map Chatbot.classify chunks))
                    text_query_done)
  /\ thinkingStatus m = Some TEnd
  /\ isStreaming m = Some false.
Proof.
  intros H. cbv zeta. rewrite fold_left_app. cbn [fold_left].
  unfold Chatbot.step at 1 3 5. rewrite (classify_done_chatbot done H).
  cbn [Chatbot.apply Chatbot.message]. rewrite chatbot_buffer.
  repeat split.
Qed.

Lemma update_last_length (f : Message -> Message) (l : list Message) :
  length (App.update_last f l) = length l.
Proof.
  unfold App.update_last. destruct (rev l) as [|x r] eqn:E; [reflexivity|].
  rewrite length_rev. cbn [length].
  rewrite <- (length_rev l), E. reflexivity.
Qed.

Lemma update_last_snoc (f : Message -> Message) (l : list Message) (x : Message) :
  App.update_last f (l ++ [x]) = l ++ [f x].
Proof.
  unfold App.update_last. rewrite rev_app_distr. cbn [rev app].
  rewrite rev_involutive. reflexivity.
Qed.

Lemma app_buffer_apply (st : App.state) (e : event) :
  App.contentBuffer (App.apply st e) = App.contentBuffer st ++ delta_text e.
Proof.
  destruct e; cbn [App.apply App.contentBuffer delta_text];
    rewrite ?app_nil_r; reflexivity.
Qed.

(** What one event does to the messages: the last one is rewritten, the
    others stay. *)
Lemma app_apply_snoc (init : list Message) (x : Message) (buf : jsstr) (e : event) :
  exists y,
    App.messages (App.apply (App.mkState (init ++ [x]) buf) e) = init ++ [y]
    /\ role y = role x
    /\ isStreaming y = (if ends_stream e then Some false else isStreaming x)
    /\ (thinkingStatus x <> None -> thinkingStatus y <> None)
    /\ (e = StreamEnd ->
        content y = JStr (buffer_or buf text_query_done)
        /\ thinkingStatus y = Some TEnd).
Proof.
  destruct e; cbn [App.apply App.messages App.contentBuffer];
    rewrite ?update_last_snoc;
    try (eexists; split; [reflexivity|]; cbn [ends_stream];
         repeat split; try discriminate; try (intros; assumption);
         unfold advance;
         cbn [set_content set_thinkingStatus set_isStreaming set_statusContent
              set_suggestions role isStreaming thinkingStatus content];
         try reflexivity;
         try (destruct (thinkingStatus x) as [[| | |]|]; reflexivity);
         try (destruct (thinkingStatus x) as [[| | |]|]; cbn; congruence)).
  all: intros Hn; destruct (thinkingStatus x) as [[| | |]|] eqn:E;
    cbn [set_content set_thinkingStatus thinkingStatus]; rewrite ?E; congruence.
Qed.

Lemma app_loop_nonempty (chunks : list jsstr) (st : App.state) :
  Forall (fun c => c <> []) chunks ->
  App.loop st chunks
  = (fold_left (fun s c => App.apply s (App.classify c)) chunks st, true).
Proof.
  intros H. revert st. induction H as [|c chunks Hc _ IH]; intros st.
  - reflexivity.
  - cbn [App.loop fold_left]. unfold App.step.
    destruct c as [|a c]; [congruence|]. apply IH.
Qed.

Lemma app_buffer (chunks : list jsstr) (st : App.state) :
  App.contentBuffer (fold_left (fun s c => App.apply s (App.classify c)) chunks st)
  = App.contentBuffer st ++ received (map App.classify chunks).
Proof.
  revert st. induction chunks as [|c chunks IH]; intros st.
  - cbn. rewrite app_nil_r. reflexivity.
  - cbn [fold_left map]. rewrite IH, app_buffer_apply.
    unfold received. cbn [map concat]. rewrite app_assoc. reflexivity.
Qed.

Lemma state_eta (st : App.state) :
  st = App.mkState (App.messages st) (App.contentBuffer st).
Proof. destruct st. reflexivity. Qed.

(** Any run of events rewrites the last message and keeps the others. *)
Lemma app_fold_snoc (es : list event) :
  forall (init : list Message) (x : Message) (buf : jsstr),
  exists y,
    App.messages (fold_left App.apply es (App.mkState (init ++ [x]) buf))
    = init ++ [y]
    /\ role y = role x
    /\ isStreaming y = (if existsb ends_stream es then Some false else isStreaming x)
    /\ (thinkingStatus x <> None -> thinkingStatus y <> None).
Proof.
  induction es as [|e es IH]; intros init x buf.
  - exists x. cbn. repeat split. intros H; exact H.
  - cbn [fold_left existsb].
    destruct (app_apply_snoc init x buf e) as (y & Hy & Hr & Hs & Ht & _).
    rewrite (state_eta (App.apply _ e)), Hy.
    destruct (IH init y (App.contentBuffer (App.apply (App.mkState (init ++ [x]) buf) e)))
      as (z & Hz & Hzr & Hzs & Hzt).
    exists z. split; [exact Hz|]. split; [congruence|]. split.
    + rewrite Hzs, Hs. destruct (ends_stream e), (existsb ends_stream es); reflexivity.
    + intros H. apply Hzt, Ht, H.
Qed.

Lemma fold_classify (chunks : list jsstr) (st : App.state) :
  fold_left (fun s c => App.apply s (App.classify c)) chunks st
  = fold_left App.apply (map App.classify chunks) st.
Proof.
  revert st. induction chunks as [|c chunks IH]; intros st; [reflexivity|].
  cbn [fold_left map]. apply IH.
Qed.

Lemma app_apply_nil (buf : jsstr) (e : event) :
  App.messages (App.apply (App.mkState [] buf) e) = [].
Proof. destruct e; reflexivity. Qed.

(** The loop, stopped or not, is a run of events. *)
Lemma app_loop_events (chunks : list jsstr) (st : App.state) :
  exists k,
    fst (App.loop st chunks)
    = fold_left App.apply (map App.classify (firstn k chunks)) st.
Proof.
  revert st. induction chunks as [|c chunks IH]; intros st.
  - exists 0. reflexivity.
  - cbn [App.loop]. unfold App.step. destruct c as [|a c].
    + exists 0. reflexivity.
    + destruct (IH (App.apply st (App.classify (a :: c)))) as [k Hk].
      exists (S k). rewrite Hk. reflexivity.
Qed.

Lemma app_fold_nil (es : list event) (buf : jsstr) :
  App.messages (fold_left App.apply es (App.mkState [] buf)) = [].
Proof.
  revert buf. induction es as [|e es IH]; intros buf; [reflexivity|].
  cbn [fold_left]. rewrite (state_eta (App.apply _ e)), app_apply_nil.
  apply IH.
Qed.

Lemma app_fold_frame (es : list event) (st : App.state) :
  length (App.messages (fold_left App.apply es st)) = length (App.messages st)
  /\ removelast (App.messages (fold_left App.apply es st))
     = removelast (App.messages st)
  /\ map role (App.messages (fold_left App.apply es st))
     = map role (App.messages st).
Proof.
  destruct st as [msgs buf]. cbn [App.messages].
  destruct msgs as [|m0 ms].
  - rewrite app_fold_nil. repeat split.
  - destruct (exists_last (l := m0 :: ms) ltac:(discriminate)) as (init & x & ->).
    destruct (app_fold_snoc es init x buf) as (y & -> & Hr & _).
    rewrite !length_app, !removelast_last, !map_app. cbn [map length].
    rewrite Hr. repeat split.
Qed.

(** X5.  App.vue, [sendMessage]: the watcher never adds, removes or reorders
    messages and never touches a message other than the last one of the
    conversation, whose role it keeps; this holds for every data array and
    cursor, also when an iteration throws. *)
Theorem sendMessage_frame (st : App.state) (n : nat) (newData : list jsstr) :
  let st' := fst (App.sendMessage (st, n) newData) in
  length (App.messages st') = length (App.messages st)
  /\ removelast (App.messages st') = removelast (App.messages st)
  /\ map role (App.messages st') = map role (App.messages st).
Proof.
  cbv zeta. unfold App.sendMessage. cbn [fst snd].
  destruct newData as [|c data]; [repeat split|].
  destruct (app_loop_events (skipn n (c :: data)) st) as [k Hk].
  destruct (App.loop st (skipn n (c :: data))) as [st' b].
  cbn [fst] in Hk |- *. rewrite Hk. apply app_fold_frame.
Qed.

(** X6.  App.vue, [sendMessage]: when the [DONE] marker arrives after chunks
    that all carry data, the loop ends normally and the last message of the
    conversation shows exactly the text received, in order (the query-done
    text when there was none): for each explanation chunk the string form of
    its content, and the chunk itself for a chunk that is no JSON or whose
    content has no string form. The display state is [end] and streaming is
    off; the messages before it are as they were. *)
Theorem app_done_shows_received (init : list Message) (x : Message)
  (buf : jsstr) (chunks : list jsstr) (done : jsstr) :
  Forall (fun c => c <> []) chunks ->
  trim done = done_marker ->
  exists y st',
    App.loop (App.mkState (init ++ [x]) buf) (chunks ++ [done]) = (st', true)
    /\ App.messages st' = init ++ [y]
    /\ content y
       = JStr (buffer_or (buf ++ received (map App.classify chunks))
                         text_query_done)
    /\ thinkingStatus y = Some TEnd
    /\ isStreaming y = Some false
    /\ role y = role x.
Proof.
  intros Hc Hd.
  assert (done <> []) as Hne.
  { intros ->. vm_compute in Hd. discriminate. }
  rewrite app_loop_nonempty by (apply Forall_app; split; [exact Hc|repeat constructor; exact Hne]).
  rewrite fold_left_app. cbn [fold_left]. rewrite (classify_done_app done Hd).
  set (s1 := fold_left (fun s c => App.apply s (App.classify c)) chunks
                       (App.mkState (init ++ [x]) buf)).
  assert (App.contentBuffer s1 = buf ++ received (map App.classify chunks)) as Hb
    by (unfold s1; rewrite app_buffer; reflexivity).
  destruct (app_fold_snoc (map App.classify chunks) init x buf)
    as (y & Hy & Hr & _).
  rewrite <- fold_classify in Hy. fold s1 in Hy.
  destruct (app_apply_snoc init y (App.contentBuffer s1) StreamEnd)
    as (z & Hz & Hzr & Hzs & _ & Hzc).
  destruct (Hzc eq_refl) as [Hc1 Hc2].
  rewrite <- Hy, <- state_eta in Hz.
  exists z, (App.apply s1 StreamEnd).
  split; [reflexivity|]. split; [exact Hz|].
  split; [rewrite Hc1, Hb; reflexivity|].
  split; [exact Hc2|]. split; [exact Hzs|]. congruence.
Qed.

Lemma skipn_seen (A : Type) (seen b : list A) :
  skipn (length seen) (seen ++ b) = b.
Proof.
  rewrite skipn_app, skipn_all, Nat.sub_diag. reflexivity.
Qed.

Lemma chatbot_cursor (batches : list (list jsstr)) :
  forall (seen : list jsstr) (st : Chatbot.state),
    fold_left Chatbot.callApiSSE (snapshots seen batches) (st, length seen)
    = (fold_left Chatbot.step (concat batches) st,
       length (seen ++ concat batches)).
Proof.
  induction batches as [|b batches IH]; intros seen st.
  - cbn. rewrite app_nil_r. reflexivity.
  - cbn [snapshots fold_left concat].
    assert (Chatbot.callApiSSE (st, length seen) (seen ++ b)
            = (fold_left Chatbot.step b st, length (seen ++ b))) as ->.
    { unfold Chatbot.callApiSSE. cbn [fst snd].
      destruct (seen ++ b) as [|c r] eqn:E.
      - apply app_eq_nil in E as [-> ->]. reflexivity.
      - rewrite <- E, skipn_seen. reflexivity. }
    rewrite IH, fold_left_app, app_assoc. reflexivity.
Qed.

(** X7.  Chatbot.vue, [callApiSSE]: however the data array of the stream
    grows between calls of the watcher, every chunk goes through the loop
    body exactly once and in arrival order: the calls together do what one
    pass over all the chunks does, and the cursor ends at their number. *)
Theorem callApiSSE_processes_once (batches : list (list jsstr))
  (st : Chatbot.state) :
  fold_left Chatbot.callApiSSE (snapshots [] batches) (st, 0)
  = (fold_left Chatbot.step (concat batches) st, length (concat batches)).
Proof. exact (chatbot_cursor batches [] st). Qed.

Lemma app_cursor (batches : list (list jsstr)) :
  forall (seen : list jsstr) (st : App.state),
    Forall (fun c => c <> []) (concat batches) ->
    fold_left App.sendMessage (snapshots seen batches) (st, length seen)
    = (fold_left (fun s c => App.apply s (App.classify c)) (concat batches) st,
       length (seen ++ concat batches)).
Proof.
  induction batches as [|b batches IH]; intros seen st H.
  - cbn. rewrite app_nil_r. reflexivity.
  - cbn [snapshots fold_left concat] in *.
    apply Forall_app in H as [Hb Ht].
    assert (App.sendMessage (st, length seen) (seen ++ b)
            = (fold_left (fun s c => App.apply s (App.classify c)) b st,
               length (seen ++ b))) as ->.
    { unfold App.sendMessage. cbn [fst snd].
      destruct (seen ++ b) as [|c r] eqn:E.
      - apply app_eq_nil in E as [-> ->]. reflexivity.
      - rewrite <- E, skipn_seen, (app_loop_nonempty b st Hb). reflexivity. }
    rewrite (IH _ _ Ht), fold_left_app, app_assoc. reflexivity.
Qed.

(** X8.  App.vue, [sendMessage]: when every stream record carries data, the
    watcher processes every chunk exactly once and in arrival order, however
    the data array grows between its calls. *)
Theorem sendMessage_processes_once (batches : list (list jsstr))
  (st : App.state) :
  Forall (fun c => c <> []) (concat batches) ->
  fold_left App.sendMessage (snapshots [] batches) (st, 0)
  = (fold_left (fun s c => App.apply s (App.classify c)) (concat batches) st,
     length (concat batches)).
Proof. exact (app_cursor batches [] st). Qed.

(** X9.  App.vue, [sendMessage]: a stream record whose data is empty stops
    the watcher for good. The chunks between the cursor and that record are
    applied, the cursor stays where it was, and nothing after the record is
    processed: the result does not depend on what follows, and the next call
    applies the same chunks again. *)
Theorem sendMessage_stalls_on_empty_record (st : App.state) (n : nat)
  (before after : list jsstr) :
  n <= length before ->
  Forall (fun c => c <> []) (skipn n before) ->
  App.sendMessage (st, n) (before ++ [] :: after)
  = (fold_left (fun s c => App.apply s (App.classify c)) (skipn n before) st, n).
Proof.
  intros Hn Hb. unfold App.sendMessage. cbn [fst snd].
  destruct (before ++ [] :: after) as [|c r] eqn:E.
  { destruct before; discriminate. }
  rewrite <- E. rewrite skipn_app.
  replace (n - length before) with 0 by lia. cbn [skipn].
  assert (forall l s, Forall (fun c : jsstr => c <> []) l ->
            App.loop s (l ++ [] :: after)
            = (fold_left (fun s c => App.apply s (App.classify c)) l s, false)) as L.
  { clear. intros l s H. revert s. induction H as [|c l Hc _ IH]; intros s.
    - reflexivity.
    - cbn [app App.loop fold_left]. unfold App.step.
      destruct c as [|a c]; [congruence|]. apply IH. }
  rewrite (L _ st Hb). reflexivity.
Qed.

(** ** The watchers and the views *)

Lemma chatbot_apply_view (st : Chatbot.state) (e : event) :
  role (Chatbot.message (Chatbot.apply st e)) = role (Chatbot.message st)
  /\ isStreaming (Chatbot.message (Chatbot.apply st e))
     = (if ends_stream e then Some false else isStreaming (Chatbot.message st))
  /\ (thinkingStatus (Chatbot.message st) <> None ->
      thinkingStatus (Chatbot.message (Chatbot.apply st e)) <> None).
Proof.
  destruct st as [x buf].
  destruct e; cbn [Chatbot.apply Chatbot.message Chatbot.contentBuffer ends_stream];
    unfold advance;
    cbn [set_content set_thinkingStatus set_isStreaming role isStreaming
         thinkingStatus];
    repeat split; try discriminate; try (intros H; exact H);
    destruct (thinkingStatus x) as [[| | |]|] eqn:E;
    cbn [set_content set_thinkingStatus role isStreaming thinkingStatus];
    rewrite ?E; congruence.
Qed.

Lemma chatbot_fold_view (chunks : list jsstr) (st : Chatbot.state) :
  role (Chatbot.message (fold_left Chatbot.step chunks st))
  = role (Chatbot.message st)
  /\ isStreaming (Chatbot.message (fold_left Chatbot.step chunks st))
     = (if existsb ends_stream (map Chatbot.classify chunks) then Some false
        else isStreaming (Chatbot.message st))
  /\ (thinkingStatus (Chatbot.message st) <> None ->
      thinkingStatus (Chatbot.message (fold_left Chatbot.step chunks st)) <> None).
Proof.
  revert st. induction chunks as [|c chunks IH]; intros st.
  - cbn. repeat split. intros H; exact H.
  - cbn [fold_left map existsb].
    destruct (IH (Chatbot.step st c)) as (Hr & Hs & Ht).
    destruct (chatbot_apply_view st (Chatbot.classify c)) as (Hr1 & Hs1 & Ht1).
    fold (Chatbot.step st c) in Hr1, Hs1, Ht1.
    split; [congruence|]. split.
    + rewrite Hs, Hs1.
      destruct (ends_stream (Chatbot.classify c)),
               (existsb ends_stream (map Chatbot.classify chunks)); reflexivity.
    + intros H. apply Ht, Ht1, H.
Qed.

(** X10.  Chatbot.vue and ChatList.vue: from the placeholder on, the bubble
    of the answer carries the Thinking header exactly as long as none of the
    chunks processed was the [DONE] marker or a payload of type done; no
    later chunk brings the header back. *)
Theorem thinking_header_until_done (avatarUrl : jsstr) (index : nat)
  (chunks : list jsstr) :
  ChatList.thinking_header
    (ChatList.item_of avatarUrl
       (Chatbot.message (fold_left Chatbot.step chunks Chatbot.init)) index)
  = negb (existsb ends_stream (map Chatbot.classify chunks)).
Proof.
  destruct (chatbot_fold_view chunks Chatbot.init) as (Hr & Hs & Ht).
  specialize (Ht ltac:(discriminate)).
  unfold ChatList.thinking_header, ChatList.item_of.
  cbn [ChatList.item_thinkingStatus ChatList.item_role ChatList.item_isStreaming].
  rewrite Hr, Hs.
  destruct (thinkingStatus _) as [s|]; [|congruence].
  cbn [Chatbot.init Chatbot.message placeholder role isStreaming].
  destruct (existsb ends_stream (map Chatbot.classify chunks)); reflexivity.
Qed.

Lemma map_indexed_keys (A B : Type) (f : A -> nat -> B) (k : B -> nat) :
  (forall x i, k (f x i) = i) ->
  forall (l : list A) (i : nat),
    map k (map_indexed f i l) = seq i (length l).
Proof.
  intros Hk. induction l as [|x l IH]; intros i; [reflexivity|].
  cbn [map_indexed map length seq]. rewrite Hk, IH. reflexivity.
Qed.

Lemma map_indexed_length (A B : Type) (f : A -> nat -> B) (l : list A) (i : nat) :
  length (map_indexed f i l) = length l.
Proof.
  revert i. induction l as [|x l IH]; intros i; [reflexivity|].
  cbn [map_indexed length]. rewrite IH. reflexivity.
Qed.

(** X11.  ChatList.vue, [bubbleItems]: the keys of the bubbles are 0, 1, 2,
    ... in order, one per message and one more for the loading bubble when
    [isLoading] is set; so no two bubbles share a key. *)
Theorem bubbleItems_keys (messages : list Message) (isLoading : bool)
  (avatarUrl : jsstr) :
  map ChatList.key (ChatList.bubbleItems messages isLoading avatarUrl)
  = seq 0 (length messages + (if isLoading then 1 else 0))
  /\ NoDup (map ChatList.key (ChatList.bubbleItems messages isLoading avatarUrl)).
Proof.
  assert (map ChatList.key (ChatList.bubbleItems messages isLoading avatarUrl)
          = seq 0 (length messages + (if isLoading then 1 else 0))) as E.
  { unfold ChatList.bubbleItems. destruct isLoading.
    - rewrite map_app, map_indexed_keys by reflexivity.
      rewrite seq_app. reflexivity.
    - rewrite map_indexed_keys by reflexivity.
      rewrite Nat.add_0_r. reflexivity. }
  split; [exact E|]. rewrite E. apply seq_NoDup.
Qed.

Lemma lit_inj (s t : string) : lit s = lit t -> s = t.
Proof.
  unfold lit. intros H.
  rewrite <- (string_of_list_ascii_of_string s),
          <- (string_of_list_ascii_of_string t).
  f_equal. revert H.
  generalize (list_ascii_of_string s) (list_ascii_of_string t).
  induction l as [|a l IH]; intros [|b l']; cbn [map]; try discriminate.
  - reflexivity.
  - intros [= H1 H2]. f_equal; [|apply IH; exact H2].
    rewrite <- (ascii_N_embedding a), <- (ascii_N_embedding b), H1. reflexivity.
Qed.

Lemma decimal_inj (i j : nat) :
  decimal i = decimal j -> i = j.
Proof.
  unfold decimal. intros H. apply lit_inj in H.
  assert (Some (Nat.to_uint i) = Some (Nat.to_uint j)) as E.
  { rewrite <- !DecimalString.NilEmpty.usu, H. reflexivity. }
  injection E as E.
  rewrite <- (DecimalNat.Unsigned.of_to i), <- (DecimalNat.Unsigned.of_to j), E.
  reflexivity.
Qed.

Lemma prompt_keys (l : list json) (i : nat) :
  map ConversationArea.prompt_key (map_indexed prompt_of i l)
  = map (fun n => lit "suggestion-" ++ decimal n)
        (seq i (length l)).
Proof.
  revert i. induction l as [|x l IH]; intros i; [reflexivity|].
  cbn [map_indexed map length seq]. rewrite IH. reflexivity.
Qed.

Lemma last_of_snoc (A : Type) (l : list A) (y : A) :
  nth_error (l ++ [y]) (length (l ++ [y]) - 1) = Some y.
Proof.
  rewrite length_app. cbn [length].
  replace (length l + 1 - 1) with (length l) by lia.
  rewrite nth_error_app2 by lia. rewrite Nat.sub_diag. reflexivity.
Qed.

Lemma snoc_not_empty (A : Type) (l : list A) (y : A) :
  (length (l ++ [y]) =? 0) = false.
Proof. apply Nat.eqb_neq. rewrite length_app. cbn [length]. lia. Qed.

Section Suggestions.
Context {rel : RelationalOps}.

(** X12.  ConversationArea.vue, [suggestions]: whenever it returns prompts,
    their keys are pairwise distinct. *)
Theorem suggestion_keys_distinct (messages : list Message)
  (items : list ConversationArea.PromptsItem) :
  ConversationArea.suggestions messages = Some items ->
  NoDup (map ConversationArea.prompt_key items).
Proof.
  unfold ConversationArea.suggestions.
  destruct (length messages =? 0); [intros [= <-]; constructor|].
  destruct (nth_error messages (length messages - 1)) as [m|]; [|discriminate].
  destruct (role m); [intros [= <-]; constructor|].
  destruct (suggestions m) as [v|]; [|intros [= <-]; constructor].
  destruct (truthy (Some v)); [|intros [= <-]; constructor].
  destruct (has_length v) as [[|]|];
    [|intros [= <-]; constructor|discriminate].
  destruct v as [| | | |l|]; try discriminate.
  intros [= <-]. fold prompt_of. rewrite prompt_keys.
  apply NoDup_map_NoDup_ForallPairs; [|apply seq_NoDup].
  intros i j _ _ H. apply app_inv_head in H. apply decimal_inj. exact H.
Qed.

Lemma app_apply_suggestions (init : list Message) (x : Message) (buf : jsstr)
  (e : event) :
  exists y,
    App.messages (App.apply (App.mkState (init ++ [x]) buf) e) = init ++ [y]
    /\ role y = role x
    /\ suggestions y
       = match e with
         | SuggestionsUpdate v => Some v
         | _ => suggestions x
         end.
Proof.
  destruct e; cbn [App.apply App.messages App.contentBuffer];
    rewrite ?update_last_snoc;
    try (eexists; split; [reflexivity|]; unfold advance;
         cbn [set_content set_thinkingStatus set_isStreaming set_statusContent
              set_suggestions role suggestions thinkingStatus];
         split; try reflexivity;
         destruct (thinkingStatus x) as [[| | |]|]; reflexivity).
Qed.

Lemma app_fold_suggestions (es : list event) :
  forall (init : list Message) (x : Message) (buf : jsstr),
    existsb is_suggestions es = false ->
    exists y,
      App.messages (fold_left App.apply es (App.mkState (init ++ [x]) buf))
      = init ++ [y]
      /\ role y = role x /\ suggestions y = suggestions x.
Proof.
  induction es as [|e es IH]; intros init x buf H.
  - exists x. repeat split.
  - cbn [existsb] in H. apply orb_false_elim in H as [He Hes].
    cbn [fold_left].
    destruct (app_apply_suggestions init x buf e) as (y & Hy & Hr & Hs).
    rewrite (state_eta (App.apply _ e)), Hy.
    destruct (IH init y (App.contentBuffer (App.apply (App.mkState (init ++ [x]) buf) e)) Hes)
      as (z & Hz & Hzr & Hzs).
    exists z. split; [exact Hz|]. split; [congruence|].
    rewrite Hzs, Hs. destruct e; try reflexivity. discriminate.
Qed.

(** X13.  App.vue and ConversationArea.vue: after a run of events in which
    the last suggestions event carried a non-empty array, the prompts
    offered under the answer are exactly the entries of that array, in
    order, keyed [suggestion-0], [suggestion-1], ...; earlier suggestions
    events and every other event leave no trace in them. *)
Theorem suggestions_after_stream (init : list Message) (x : Message)
  (buf : jsstr) (es1 es2 : list event) (s : json) (l : list json) :
  role x = Assistant ->
  existsb is_suggestions es2 = false ->
  ConversationArea.suggestions
    (App.messages
       (fold_left App.apply (es1 ++ SuggestionsUpdate (JArr (s :: l)) :: es2)
                  (App.mkState (init ++ [x]) buf)))
  = Some (map_indexed prompt_of 0 (s :: l)).
Proof.
  intros Hx H2. rewrite fold_left_app. cbn [fold_left].
  destruct (app_fold_snoc es1 init x buf) as (y1 & Hy1 & Hr1 & _).
  rewrite (state_eta (fold_left App.apply es1 _)), Hy1.
  destruct (app_apply_suggestions init y1
              (App.contentBuffer (fold_left App.apply es1 (App.mkState (init ++ [x]) buf)))
              (SuggestionsUpdate (JArr (s :: l)))) as (y2 & Hy2 & Hr2 & Hs2).
  rewrite (state_eta (App.apply _ (SuggestionsUpdate _))), Hy2.
  destruct (app_fold_suggestions es2 init y2
              (App.contentBuffer
                 (App.apply
                    (App.mkState (init ++ [y1])
                       (App.contentBuffer
                          (fold_left App.apply es1 (App.mkState (init ++ [x]) buf))))
                    (SuggestionsUpdate (JArr (s :: l))))) H2)
    as (y3 & Hy3 & Hr3 & Hs3).
  rewrite Hy3. unfold ConversationArea.suggestions.
  rewrite length_app. cbn [length].
  replace (length init + 1 =? 0) with false by (symmetry; apply Nat.eqb_neq; lia).
  replace (length init + 1 - 1) with (length init) by lia.
  rewrite nth_error_app2 by lia. rewrite Nat.sub_diag. cbn [nth_error].
  rewrite Hr3, Hr2, Hr1, Hx, Hs3, Hs2. reflexivity.
Qed.

(** X14.  App.vue and ConversationArea.vue: the watcher stores any truthy
    [suggestions] value. When the last suggestions event carried a non-empty
    string instead of an array, the computed list of prompts throws, for a
    string has a length and no [map]; no later event of another kind repairs
    it. *)
Theorem suggestions_text_throws (init : list Message) (x : Message)
  (buf : jsstr) (es1 es2 : list event) (c : char) (t : jsstr) :
  role x = Assistant ->
  existsb is_suggestions es2 = false ->
  ConversationArea.suggestions
    (App.messages
       (fold_left App.apply (es1 ++ SuggestionsUpdate (JStr (c :: t)) :: es2)
                  (App.mkState (init ++ [x]) buf)))
  = None.
Proof.
  intros Hx H2. rewrite fold_left_app. cbn [fold_left].
  destruct (app_fold_snoc es1 init x buf) as (y1 & Hy1 & Hr1 & _).
  rewrite (state_eta (fold_left App.apply es1 _)), Hy1.
  destruct (app_apply_suggestions init y1
              (App.contentBuffer (fold_left App.apply es1 (App.mkState (init ++ [x]) buf)))
              (SuggestionsUpdate (JStr (c :: t)))) as (y2 & Hy2 & Hr2 & Hs2).
  rewrite (state_eta (App.apply _ (SuggestionsUpdate _))), Hy2.
  match goal with
  | |- context [fold_left App.apply es2 (App.mkState (init ++ [y2]) ?b)] =>
      destruct (app_fold_suggestions es2 init y2 b H2) as (y3 & Hy3 & Hr3 & Hs3)
  end.
  rewrite Hy3. unfold ConversationArea.suggestions.
  rewrite snoc_not_empty, last_of_snoc.
  rewrite Hr3, Hr2, Hr1, Hx, Hs3, Hs2. reflexivity.
Qed.

End Suggestions.

Lemma app_buffer_events (es : list event) (st : App.state) :
  App.contentBuffer (fold_left App.apply es st)
  = App.contentBuffer st ++ received es.
Proof.
  revert st. induction es as [|e es IH]; intros st.
  - cbn. rewrite app_nil_r. reflexivity.
  - cbn [fold_left]. rewrite IH, app_buffer_apply.
    unfold received. cbn [map concat]. rewrite app_assoc. reflexivity.
Qed.

(** X15.  App.vue and ConversationArea.vue: as long as no event has ended
    the stream, the suggestions area stays hidden under a streaming answer,
    whether the loading flag is set or not and also after a suggestions
    event has arrived. *)
Theorem suggestions_hidden_while_streaming (init : list Message) (x : Message)
  (buf : jsstr) (es : list event) (isLoading : bool) :
  isStreaming x = Some true ->
  existsb ends_stream es = false ->
  ConversationArea.shouldShowSuggestions isLoading
    (App.messages (fold_left App.apply es (App.mkState (init ++ [x]) buf)))
  = Some false.
Proof.
  intros Hx He.
  destruct (app_fold_snoc es init x buf) as (y & -> & _ & Hs & _).
  rewrite He, Hx in Hs.
  unfold ConversationArea.shouldShowSuggestions.
  rewrite snoc_not_empty, last_of_snoc, Hs.
  destruct isLoading; cbn [orb]; [reflexivity|].
  destruct (role y); reflexivity.
Qed.

(** X16.  App.vue and ConversationArea.vue: once the [DONE] marker has been
    processed and loading is over, the suggestions area is shown under the
    assistant's answer unless the text received consists of white space
    only; an answer without any text shows the query-done text and the area
    with it. *)
Theorem suggestions_area_after_done (init : list Message) (x : Message)
  (buf : jsstr) (es : list event) :
  role x = Assistant ->
  ConversationArea.shouldShowSuggestions false
    (App.messages
       (fold_left App.apply (es ++ [StreamEnd]) (App.mkState (init ++ [x]) buf)))
  = Some (0 <? length (trim (buffer_or (buf ++ received es) text_query_done))).
Proof.
  intros Hx. rewrite fold_left_app. cbn [fold_left].
  destruct (app_fold_snoc es init x buf) as (y & Hy & Hr & _).
  pose proof (app_buffer_events es (App.mkState (init ++ [x]) buf)) as Hb.
  cbn [App.contentBuffer] in Hb.
  rewrite (state_eta (fold_left App.apply es _)), Hy, Hb.
  destruct (app_apply_snoc init y (buf ++ received es) StreamEnd)
    as (z & -> & Hzr & Hzs & _ & Hzc).
  destruct (Hzc eq_refl) as [Hc _]. cbn [ends_stream] in Hzs.
  unfold ConversationArea.shouldShowSuggestions.
  rewrite snoc_not_empty, last_of_snoc, Hzr, Hr, Hx, Hzs, Hc. cbn [orb].
  assert (truthy (Some (JStr (buffer_or (buf ++ received es) text_query_done)))
          = true) as ->.
  { unfold buffer_or. destruct (buf ++ received es); reflexivity. }
  reflexivity.
Qed.
End Watchers.

(** Two explanation chunks around a status update, then the marker. *)
Lemma chatbot_done_shows_received_witness :
  content (Chatbot.message
             (fold_left (Chatbot.step (ops := sample_ops))
                ([chunk_explanation "Hel"; chunk_status_working;
                  chunk_explanation "lo"] ++ [done_marker])
                Chatbot.init))
  = JStr (lit "Hello").
Proof.
  destruct (chatbot_done_shows_received (ops := sample_ops) Chatbot.init
              [chunk_explanation "Hel"; chunk_status_working;
               chunk_explanation "lo"] done_marker eq_refl) as [E _].
  rewrite E. reflexivity.
Defined.


(** One batch of two explanation chunks, then the marker in a second. *)
Lemma app_done_shows_received_witness :
  exists y st',
    App.loop (ops := sample_ops) (App.mkState ([] ++ [placeholder]) [])
             ([chunk_explanation "Hel"; chunk_explanation "lo"] ++ [done_marker])
    = (st', true)
    /\ App.messages st' = [] ++ [y]
    /\ content y = JStr (lit "Hello").
Proof.
  destruct (app_done_shows_received (ops := sample_ops) [] placeholder []
              [chunk_explanation "Hel"; chunk_explanation "lo"] done_marker)
    as (y & st' & H1 & H2 & H3 & _).
  - repeat constructor; discriminate.
  - reflexivity.
  - exists y, st'. repeat split; [exact H1|exact H2|]. rewrite H3. reflexivity.
Defined.

Lemma sendMessage_processes_once_witness :
  fold_left (App.sendMessage (ops := sample_ops))
            (snapshots [] [[chunk_explanation "Hel"]; [chunk_explanation "lo"; done_marker]])
            (App.mkState [placeholder] [], 0)
  = (fold_left (fun s c => App.apply s (App.classify (ops := sample_ops) c))
               [chunk_explanation "Hel"; chunk_explanation "lo"; done_marker]
               (App.mkState [placeholder] []),
     3).
Proof.
  apply (sendMessage_processes_once (ops := sample_ops)
           [[chunk_explanation "Hel"]; [chunk_explanation "lo"; done_marker]]).
  repeat constructor; discriminate.
Defined.

(** A chunk, an empty record, a chunk: the second call applies the first
    chunk again and the buffer holds it twice. *)
Lemma sendMessage_stalls_on_empty_record_witness :
  App.contentBuffer
    (fst (App.sendMessage (ops := sample_ops)
            (App.sendMessage (ops := sample_ops)
               (App.mkState [placeholder] [], 0)
               ([chunk_explanation "Hel"] ++ [[]]))
            ([chunk_explanation "Hel"] ++ [] :: [chunk_explanation "lo"])))
  = lit "HelHel".
Proof.
  pose proof (sendMessage_stalls_on_empty_record (ops := sample_ops)
                (App.mkState [placeholder] []) 0 [chunk_explanation "Hel"] []
                ltac:(cbn; lia) ltac:(repeat constructor; discriminate)) as E1.
  etransitivity.
  { exact (f_equal
             (fun w => App.contentBuffer
                         (fst (App.sendMessage (ops := sample_ops) w
                                 ([chunk_explanation "Hel"] ++ [] :: [chunk_explanation "lo"]))))
             E1). }
  cbv beta.
  pose proof (sendMessage_stalls_on_empty_record (ops := sample_ops)
                (fold_left (fun s c => App.apply s
                                         (App.classify (ops := sample_ops) c))
                           (skipn 0 [chunk_explanation "Hel"])
                           (App.mkState [placeholder] []))
                0 [chunk_explanation "Hel"] [chunk_explanation "lo"]
                ltac:(cbn; lia) ltac:(repeat constructor; discriminate)) as E2.
  etransitivity.
  { exact (f_equal (fun w => App.contentBuffer (fst w)) E2). }
  reflexivity.
Defined.

Lemma suggestion_keys_distinct_witness :
  NoDup [lit "suggestion-0"; lit "suggestion-1"].
Proof.
  exact (suggestion_keys_distinct (ops := sample_ops) (rel := sample_rel)
           answered_with_suggestions
           [prompt_of (JStr (lit "a")) 0; prompt_of (JStr (lit "b")) 1]
           eq_refl).
Defined.

(** An earlier suggestions event, a later one, then the end of the stream. *)
Lemma suggestions_after_stream_witness :
  ConversationArea.suggestions (ops := sample_ops) (rel := sample_rel)
    (App.messages
       (fold_left (App.apply)
          ([SuggestionsUpdate (JArr [JStr (lit "old")])]
           ++ SuggestionsUpdate (JArr [JStr (lit "a"); JStr (lit "b")])
              :: [StreamEnd])
          (App.mkState ([] ++ [placeholder]) [])))
  = Some [prompt_of (JStr (lit "a")) 0; prompt_of (JStr (lit "b")) 1].
Proof.
  exact (suggestions_after_stream (ops := sample_ops) (rel := sample_rel)
           [] placeholder [] [SuggestionsUpdate (JArr [JStr (lit "old")])]
           [StreamEnd] (JStr (lit "a")) [JStr (lit "b")] eq_refl eq_refl).
Defined.

(** A suggestions event under the placeholder, loading flag off. *)
Lemma suggestions_hidden_while_streaming_witness :
  ConversationArea.shouldShowSuggestions (ops := sample_ops) false
    (App.messages
       (fold_left (App.apply)
          [ContentDelta (lit "hi");
           SuggestionsUpdate (JArr [JStr (lit "a")])]
          (App.mkState ([] ++ [placeholder]) [])))
  = Some false.
Proof.
  exact (suggestions_hidden_while_streaming (ops := sample_ops) [] placeholder []
           [ContentDelta (lit "hi");
            SuggestionsUpdate (JArr [JStr (lit "a")])]
           false eq_refl eq_refl).
Defined.

(** An answer of white space only hides the area. *)
Lemma suggestions_area_after_done_witness :
  ConversationArea.shouldShowSuggestions (ops := sample_ops) false
    (App.messages
       (fold_left (App.apply)
          ([ContentDelta (lit " ")] ++ [StreamEnd])
          (App.mkState ([] ++ [placeholder]) [])))
  = Some false.
Proof.
  exact (suggestions_area_after_done (ops := sample_ops) [] placeholder []
           [ContentDelta (lit " ")] eq_refl).
Defined.

(** A suggestions payload that carries a text. *)
Lemma suggestions_text_throws_witness :
  ConversationArea.suggestions (ops := sample_ops) (rel := sample_rel)
    (App.messages
       (fold_left (App.apply)
          ([] ++ SuggestionsUpdate (JStr (lit "more")) :: [StreamEnd])
          (App.mkState ([] ++ [placeholder]) [])))
  = None.
Proof.
  exact (suggestions_text_throws (ops := sample_ops) (rel := sample_rel)
           [] placeholder [] [] [StreamEnd] 109%N (lit "ore") eq_refl eq_refl).
Defined.

(** * A block as it streams in *)

Lemma search_here (ml : bool) (r : re) (bef aft : jsstr) (y : pos) :
  match_here ml r (mkPos bef aft []) = Some y ->
  search ml r bef aft = Some (mkPos bef aft [], y).
Proof.
  intros H. destruct aft; cbn [search]; rewrite H; reflexivity.
Qed.

Lemma search_nowhere (ml : bool) (r : re) (aft : jsstr) :
  forall bef,
    (forall pre post, aft = pre ++ post ->
       match_here ml r (mkPos (rev pre ++ bef) post []) = None) ->
    search ml r bef aft = None.
Proof.
  induction aft as [|c t IH]; intros bef H; cbn [search].
  - pose proof (H [] [] eq_refl) as E. cbn [rev app] in E.
    rewrite E. reflexivity.
  - pose proof (H [] (c :: t) eq_refl) as E. cbn [rev app] in E.
    rewrite E. apply IH.
    intros pre post Hp. specialize (H (c :: pre) post).
    cbn [rev] in H. rewrite <- app_assoc in H. apply H.
    cbn [app]. f_equal. exact Hp.
Qed.

(** A starred class in front of a continuation that always accepts: the
    longest run is taken. *)
Lemma star_chr_accepting (p : char -> bool) (aft : jsstr) :
  forall bef cs,
    exists w r,
      aft = w ++ r /\ forallb p w = true
      /\ match r with c :: _ => p c = false | [] => True end
      /\ star_chr p (fun y => Some y) bef aft cs
         = Some (mkPos (rev w ++ bef) r cs).
Proof.
  induction aft as [|c t IH]; intros bef cs.
  - exists [], []. repeat split.
  - cbn [star_chr]. destruct (p c) eqn:Hc.
    + destruct (IH (c :: bef) cs) as (w & r & Ht & Hw & Hr & Hs).
      exists (c :: w), r. cbn [forallb rev app]. rewrite Hc, Hw, Hs, <- app_assoc.
      repeat split; try assumption. f_equal. exact Ht.
    + exists [], (c :: t). repeat split. exact Hc.
Qed.

(** [/^option\s*=\s*/] takes the left-hand side off an assignment. *)
Lemma strip_option_prefix (w1 w2 rest : jsstr) :
  spaces w1 -> spaces w2 ->
  CTable.strip_assignment (assignment w1 w2 (lbrace :: rest))
  = replace_first false CTable.re_semicolon_end [] (lbrace :: rest).
Proof.
  intros H1 H2. unfold CTable.strip_assignment. f_equal.
  set (s := assignment w1 w2 (lbrace :: rest)).
  assert (exists y, match_here false CTable.re_option_prefix (mkPos [] s []) = Some y
                    /\ after y = lbrace :: rest) as (y & Hm & Ha).
  { unfold match_here, CTable.re_option_prefix. cbn [before after].
    rewrite m_seq.
    change (m false Bol ?k (mkPos [] s [])) with (k (mkPos [] s [])).
    rewrite m_word. unfold s, assignment. rewrite startsWith_app.
    change (skipn (length (lit "option")) (lit "option" ++ ?t)) with t.
    set (x1 := mkPos (rev (lit "option") ++ [])
                     (w1 ++ lit "=" ++ w2 ++ lbrace :: rest) []).
    destruct (m_spaces_then false 61%N (Star ws) (fun y => Some y) x1 eq_refl)
      as (w & _ & _ & ->).
    change (after x1) with (w1 ++ lit "=" ++ w2 ++ lbrace :: rest).
    rewrite (trimStart_spaces w1 _ H1).
    change (trimStart (lit "=" ++ ?t)) with (61%N :: t).
    cbv iota. rewrite N.eqb_refl.
    unfold ws. rewrite m_star_chr. cbn [before after caps].
    match goal with
    | |- context [star_chr is_space _ ?b ?a ?c] =>
        destruct (star_chr_accepting is_space a b c)
          as (u & r & Hs & Hu & Hr & ->)
    end.
    eexists. split; [reflexivity|]. cbn [after].
    rewrite <- (longest_run_trimStart u r Hu Hr), <- Hs.
    rewrite (trimStart_spaces w2 _ H2).
    apply trimStart_nonspace. reflexivity. }
  unfold replace_first. rewrite (search_here _ _ _ _ _ Hm). cbn [after].
  rewrite Nat.sub_diag, Ha. reflexivity.
Qed.

(** [/;\s*$/] finds nothing in a text that ends in a closing brace. *)
Lemma no_semicolon_before_rbrace (s : jsstr) :
  replace_first false CTable.re_semicolon_end [] (s ++ [rbrace]) = s ++ [rbrace].
Proof.
  unfold replace_first. rewrite search_nowhere; [reflexivity|].
  intros pre post Hp. unfold match_here, CTable.re_semicolon_end.
  cbn [before after]. rewrite m_seq, m_c1. cbn [before after caps].
  destruct post as [|a t]; [reflexivity|].
  destruct (N.eqb_spec CTable.semicolon a) as [<-|]; [|reflexivity].
  rewrite m_spaces_eol. cbn [after].
  destruct (forallb is_space t) eqn:Ht; [|reflexivity]. exfalso.
  destruct t as [|b t'] using rev_ind.
  - apply app_inj_tail in Hp as [_ Hp]. discriminate.
  - change (pre ++ CTable.semicolon :: t' ++ [b])
      with (pre ++ (CTable.semicolon :: t') ++ [b]) in Hp.
    rewrite app_assoc in Hp. apply app_inj_tail in Hp as [_ <-].
    rewrite forallb_app in Ht. cbn in Ht. rewrite andb_false_r in Ht.
    discriminate.
Qed.

Lemma spaces_without (w : jsstr) (c : char) :
  spaces w -> is_space c = false -> ~ In c w.
Proof.
  intros Hw Hc Hin. unfold spaces in Hw.
  rewrite forallb_forall in Hw. rewrite (Hw c Hin) in Hc. discriminate.
Qed.

Lemma header_without (w1 w2 : jsstr) (c : char) :
  spaces w1 -> spaces w2 -> is_space c = false ->
  ~ In c (lit "option") -> c <> 61%N ->
  ~ In c (lit "option" ++ w1 ++ lit "=" ++ w2).
Proof.
  intros H1 H2 Hc Ho He Hin.
  apply in_app_or in Hin as [Hin|Hin]; [exact (Ho Hin)|].
  apply in_app_or in Hin as [Hin|Hin]; [exact (spaces_without w1 c H1 Hc Hin)|].
  apply in_app_or in Hin as [Hin|Hin].
  - change (In c [61%N]) in Hin. destruct Hin as [Hin|[]]. congruence.
  - exact (spaces_without w2 c H2 Hc Hin).
Qed.

Lemma header_without_braces (w1 w2 : jsstr) :
  spaces w1 -> spaces w2 ->
  ~ In lbrace (lit "option" ++ w1 ++ lit "=" ++ w2)
  /\ ~ In rbrace (lit "option" ++ w1 ++ lit "=" ++ w2).
Proof.
  intros H1 H2. split; apply header_without; try assumption; try reflexivity;
    try discriminate; cbn; intuition discriminate.
Qed.

Lemma prefix_past (hdr rest u v : jsstr) (c : char) :
  ~ In c hdr -> hdr ++ c :: rest = u ++ c :: v -> exists l, u = hdr ++ l.
Proof.
  intros Hn H. symmetry in H. apply app_eq_app in H as [l [[Hu _]|[Hh Hc]]].
  - exists l. exact Hu.
  - destruct l as [|x l].
    + exists []. rewrite app_nil_r in *. symmetry. exact Hh.
    + cbn [app] in Hc. injection Hc as <- _. elim Hn. rewrite Hh.
      apply in_or_app. right. left. reflexivity.
Qed.

Lemma in_split_last (c : char) (l : jsstr) :
  In c l -> exists a t, l = a ++ c :: t /\ ~ In c t.
Proof.
  induction l as [|x l IH]; [intros []|].
  intros Hin. destruct (in_dec N.eq_dec c l) as [Hl|Hl].
  - destruct (IH Hl) as (a & t & -> & Hn). exists (x :: a), t. split; auto.
  - destruct Hin as [->|Hin]; [|contradiction].
    exists [], l. split; auto.
Qed.

Lemma assignment_assoc (w1 w2 s t : jsstr) :
  assignment w1 w2 s ++ t = assignment w1 w2 (s ++ t).
Proof. unfold assignment. rewrite <- !app_assoc. reflexivity. Qed.

(** On a text that begins with an assignment, the extractor returns the
    text up to its last closing brace. *)
Lemma configMatch_at_start (w1 w2 body tail : jsstr) :
  spaces w1 -> spaces w2 -> ~ In rbrace tail ->
  CTable.configMatch (assignment w1 w2 (lbrace :: body ++ rbrace :: tail))
  = Some (assignment w1 w2 (lbrace :: body ++ [rbrace])).
Proof.
  intros H1 H2 Hn.
  set (text := assignment w1 w2 (lbrace :: body ++ rbrace :: tail)).
  set (r := assignment w1 w2 (lbrace :: body ++ [rbrace])).
  assert (text = r ++ tail) as Ht.
  { unfold text, r. rewrite assignment_assoc. cbn [app].
    rewrite <- app_assoc. reflexivity. }
  assert (assignment_at text [] r tail) as Ha.
  { split; [exact Ht|]. exists w1, w2, body. repeat split; assumption. }
  pose proof (assignment_matches text [] r tail [] Ha) as Hm.
  rewrite <- Ht in Hm.
  destruct (match_here false CTable.re_option_block (mkPos [] text [])) as [y|] eqn:E;
    [|congruence].
  unfold CTable.configMatch, match0. rewrite (search_here _ _ _ _ _ E).
  destruct (match_is_assignment _ _ _ E) as (v1 & v2 & body' & Hp & _ & _ & Hn' & ->).
  f_equal.
  set (r' := lit "option" ++ v1 ++ lit "=" ++ v2 ++ lbrace :: body') in *.
  assert (r' ++ rbrace :: after y
          = (lit "option" ++ w1 ++ lit "=" ++ w2 ++ lbrace :: body) ++ rbrace :: tail)
    as Hs.
  { transitivity text.
    - rewrite Hp. unfold r'. rewrite <- !app_assoc. cbn [app].
      rewrite <- !app_assoc. reflexivity.
    - unfold text, assignment. rewrite <- !app_assoc. reflexivity. }
  assert (forall (a a' t t' : jsstr),
            a ++ rbrace :: t = a' ++ rbrace :: t' ->
            ~ In rbrace t -> ~ In rbrace t' -> a = a') as U.
  { clear. induction a as [|x a IH]; intros a' t t' H Ht Ht'.
    - destruct a' as [|x' a']; [reflexivity|].
      cbn [app] in H. injection H as <- H. elim Ht. rewrite H.
      apply in_or_app. right. left. reflexivity.
    - destruct a' as [|x' a'].
      + cbn [app] in H. injection H as -> H. elim Ht'. rewrite <- H.
        apply in_or_app. right. left. reflexivity.
      + cbn [app] in H. injection H as <- H. f_equal.
        exact (IH _ _ _ H Ht Ht'). }
  pose proof (U _ _ _ _ Hs Hn' Hn) as Hr.
  unfold r, assignment.
  transitivity (r' ++ [rbrace]).
  - unfold r'. rewrite <- !app_assoc. reflexivity.
  - rewrite Hr, <- !app_assoc. reflexivity.
Qed.

(** What the extractor can return on a part of an assignment: the
    assignment cut at a closing brace that is not its last. *)
Lemma configMatch_received (w1 w2 b p r : jsstr) :
  spaces w1 -> spaces w2 ->
  received_part p (assignment w1 w2 (lbrace :: b ++ [rbrace])) ->
  CTable.configMatch p = Some r ->
  exists q z,
    r = assignment w1 w2 (lbrace :: q ++ [rbrace])
    /\ lbrace :: b = (lbrace :: q ++ [rbrace]) ++ z.
Proof.
  intros H1 H2 (z & Hz & Hne) Hm.
  destruct (header_without_braces w1 w2 H1 H2) as [Hl Hr].
  set (hdr := lit "option" ++ w1 ++ lit "=" ++ w2) in *.
  assert (assignment w1 w2 (lbrace :: b ++ [rbrace])
          = hdr ++ lbrace :: b ++ [rbrace]) as Hblock.
  { unfold assignment, hdr. rewrite <- !app_assoc. reflexivity. }
  rewrite Hblock in Hz.
  (* the match shows an opening and a closing brace in [p] *)
  assert (In lbrace p /\ In rbrace p) as [Inl Inr].
  { unfold CTable.configMatch, match0 in Hm.
    destruct (search false CTable.re_option_block [] p) as [[x y]|] eqn:Es;
      [|discriminate].
    destruct (search_some _ _ _ _ _ _ Es) as (pre & post & Hp & Hx & Hy & _).
    subst x. destruct (match_is_assignment _ _ _ Hy)
      as (v1 & v2 & body & Hpost & _).
    rewrite Hp, Hpost. split; apply in_or_app; right; apply in_or_app; left;
      repeat (apply in_or_app; right).
    - left. reflexivity.
    - right. apply in_or_app. right. left. reflexivity. }
  (* so [p] reaches into the literal *)
  apply in_split in Inl as (u & v & Hp).
  assert (hdr ++ lbrace :: (b ++ [rbrace]) = u ++ lbrace :: (v ++ z)) as Hu.
  { change (hdr ++ lbrace :: b ++ [rbrace] = u ++ lbrace :: v ++ z).
    rewrite Hz, Hp, <- app_assoc. reflexivity. }
  destruct (prefix_past hdr _ u _ lbrace Hl Hu) as [l Hul].
  assert (exists P, p = hdr ++ lbrace :: P) as [P HP].
  { rewrite Hp, Hul, <- app_assoc.
    rewrite Hul, <- app_assoc in Hu. apply app_inv_head in Hu.
    destruct l as [|x l].
    - exists v. reflexivity.
    - cbn [app] in Hu. injection Hu as <- _. exists (l ++ lbrace :: v).
      reflexivity. }
  assert (In rbrace P) as InP.
  { rewrite HP in Inr. apply in_app_or in Inr as [Inr|Inr]; [contradiction|].
    destruct Inr as [Inr|Inr]; [discriminate|exact Inr]. }
  destruct (in_split_last rbrace P InP) as (q & tail & HPq & Hn).
  assert (p = assignment w1 w2 (lbrace :: q ++ rbrace :: tail)) as Hform.
  { rewrite HP, HPq. unfold assignment, hdr. rewrite <- !app_assoc. reflexivity. }
  rewrite Hform, (configMatch_at_start w1 w2 q tail H1 H2 Hn) in Hm.
  injection Hm as <-. exists q.
  assert ((lbrace :: q ++ [rbrace]) ++ (tail ++ z) = (lbrace :: b) ++ [rbrace]) as Hs.
  { rewrite HP, HPq, <- app_assoc in Hz. apply app_inv_head in Hz.
    cbn [app] in Hz |- *. rewrite Hz. rewrite <- !app_assoc. reflexivity. }
  destruct (prefix_of_snoc _ _ _ _ _ Hs) as [z' Hz'].
  { destruct tail; [exact Hne|discriminate]. }
  exists z'. split; [reflexivity|exact Hz'].
Qed.

(** A literal cut before its last brace is not complete. *)
Lemma cut_literal_incomplete (b q z : jsstr) :
  balanced b ->
  lbrace :: b = (lbrace :: q ++ [rbrace]) ++ z ->
  CTable.isCompleteJSON (lbrace :: q ++ [rbrace]) = false.
Proof.
  intros Hb Hq.
  destruct (CTable.isCompleteJSON (lbrace :: q ++ [rbrace])) eqn:E; [|reflexivity].
  exfalso. apply isCompleteJSON_spec in E as [_ (body & rest & Hc & _)].
  rewrite (trim_tight lbrace q rbrace eq_refl eq_refl) in Hc.
  destruct Hc as (Hs & Hl & _).
  apply (literal_prefix_open b body (rest ++ z) Hb); [|exact Hl].
  rewrite Hq. change (lbrace :: q ++ [rbrace]) with ((lbrace :: q) ++ [rbrace]) in Hs.
  change ((lbrace :: q ++ [rbrace]) ++ z) with (((lbrace :: q) ++ [rbrace]) ++ z).
  rewrite Hs, <- !app_assoc. reflexivity.
Qed.

Lemma strip_assignment_literal (w1 w2 q : jsstr) :
  spaces w1 -> spaces w2 ->
  CTable.strip_assignment (assignment w1 w2 (lbrace :: q ++ [rbrace]))
  = lbrace :: q ++ [rbrace].
Proof.
  intros H1 H2. rewrite (strip_option_prefix w1 w2 _ H1 H2).
  exact (no_semicolon_before_rbrace (lbrace :: q)).
Qed.

Lemma literal_complete (b : jsstr) :
  balanced b -> CTable.isCompleteJSON (lbrace :: b ++ [rbrace]) = true.
Proof.
  intros Hb. apply isCompleteJSON_spec. unfold complete.
  rewrite (trim_tight lbrace b rbrace eq_refl eq_refl).
  split; [apply startsWith_lbrace; eexists; reflexivity|].
  exists (lbrace :: b), []. split; [exact (literal_closes b Hb)|].
  left. reflexivity.
Qed.

Section Streaming.
Context {ops : NumberOps}.

(** X17.  CChart.vue and CTable.vue: while an option assignment whose
    right-hand side is a balanced object literal is still arriving, whatever
    part of it has been received so far yields no configuration:
    [parseChartData] returns [null] and the option branch of
    [parseTableData] does not return. Nothing is parsed from a cut literal,
    also when the cut falls after an inner closing brace. *)
Theorem block_in_transit_is_null (w1 w2 b p : jsstr) :
  spaces w1 -> spaces w2 -> balanced b ->
  received_part p (assignment w1 w2 (lbrace :: b ++ [rbrace])) ->
  CChart.parseChartData p = JNull /\ CTable.parseTableConfig p = None.
Proof.
  intros H1 H2 Hb Hp.
  unfold CChart.parseChartData, CTable.parseTableConfig.
  destruct (CTable.configMatch p) as [r|] eqn:Em; [|split; reflexivity].
  destruct (configMatch_received w1 w2 b p r H1 H2 Hp Em) as (q & z & -> & Hq).
  unfold CChart.parseChartOption, CTable.parseTableOption, CChart.isCompleteJSON.
  cbv zeta. rewrite (strip_assignment_literal w1 w2 q H1 H2).
  rewrite (cut_literal_incomplete b q z Hb Hq). split; reflexivity.
Qed.

(** X18.  CChart.vue and CTable.vue: once the literal of an option
    assignment is complete, whatever follows it without a closing brace (a
    semicolon, the rest of the answer) is left out, and the configuration is
    what [JSON.parse] makes of the normalised literal: a chart needs a
    truthy [type] in it, a table truthy [columns] and [data]; where
    [JSON.parse] fails there is none. *)
Theorem complete_block_is_parsed (w1 w2 b tail : jsstr) :
  spaces w1 -> spaces w2 -> balanced b -> ~ In rbrace tail ->
  let text := assignment w1 w2 (lbrace :: b ++ [rbrace]) ++ tail in
  let config := match JSON_parse (CTable.normalize (lbrace :: b ++ [rbrace])) with
                | Some v => v
                | None => JNull
                end in
  CChart.parseChartData text
  = (if truthy (Some config) && truthy (opt_field (Some config) (lit "type"))
     then config else JNull)
  /\ CTable.parseTableConfig text
     = (if truthy (Some config)
           && truthy (opt_field (Some config) (lit "columns"))
           && truthy (opt_field (Some config) (lit "data"))
        then Some config else None).
Proof.
  intros H1 H2 Hb Hn. cbv zeta.
  assert (CTable.configMatch (assignment w1 w2 (lbrace :: b ++ [rbrace]) ++ tail)
          = Some (assignment w1 w2 (lbrace :: b ++ [rbrace]))) as Em.
  { rewrite assignment_assoc. cbn [app]. rewrite <- app_assoc.
    exact (configMatch_at_start w1 w2 b tail H1 H2 Hn). }
  unfold CChart.parseChartData, CTable.parseTableConfig. rewrite Em.
  unfold CChart.parseChartOption, CTable.parseTableOption, CChart.isCompleteJSON.
  cbv zeta. rewrite (strip_assignment_literal w1 w2 b H1 H2).
  rewrite (literal_complete b Hb). cbn [negb]. split; reflexivity.
Qed.

(** X19.  CTable.vue: whatever the code of a table block, the template never
    shows the bare wrapper. It shows nothing exactly when [parseTableData]
    returns [null]; the configured table when the option branch returned;
    and the plain table when the Markdown branch returned a non-empty array
    of rows. *)
Theorem table_wrapper_never_empty (code : jsstr) :
  match CTable.template (CTable.parseTableData code) with
  | CTable.NoWrapper => CTable.parseTableData code = JNull
  | CTable.ConfigTable =>
      CTable.parseTableConfig code = Some (CTable.parseTableData code)
  | CTable.LegacyTable =>
      CTable.parseTableConfig code = None
      /\ exists row rows, CTable.parseTableData code = JArr (row :: rows)
  | CTable.EmptyWrapper => False
  end.
Proof.
  unfold CTable.parseTableData.
  destruct (CTable.parseTableConfig code) as [config|] eqn:Ec.
  - pose proof Ec as Ec'. unfold CTable.parseTableConfig in Ec'.
    destruct (CTable.configMatch code) as [r|]; [|discriminate].
    cbv zeta in Ec'.
    destruct (truthy (Some (CTable.parseTableOption r))
              && truthy (opt_field (Some (CTable.parseTableOption r)) (lit "columns"))
              && truthy (opt_field (Some (CTable.parseTableOption r)) (lit "data")))
      eqn:Et; [|discriminate].
    injection Ec' as <-.
    apply andb_prop in Et as [Et Hd]. apply andb_prop in Et as [Ht Hc].
    unfold CTable.template. rewrite Ht, Hc, Hd. reflexivity.
  - unfold CTable.parseMarkdownTable. cbv zeta.
    destruct (length _ <? 2); [reflexivity|].
    destruct (includes_char _ CTable.pipe); [|reflexivity].
    match goal with |- context [JArr ?d] => destruct d as [|row rows] end;
      [reflexivity|].
    cbn [length Nat.ltb Nat.leb]. unfold CTable.template. cbn.
    split; [reflexivity|]. eexists _, _. reflexivity.
Qed.

End Streaming.

(** The block cut after the closing brace of an inner object. *)
Lemma block_in_transit_is_null_witness :
  CChart.parseChartData (ops := sample_ops) (lit "option = {x:{a:1}") = JNull
  /\ CTable.parseTableConfig (ops := sample_ops) (lit "option = {x:{a:1}") = None.
Proof.
  assert (Hb : balanced (lit "x:{a:1},y:2")).
  { apply bal_plain; [reflexivity|]. apply bal_plain; [reflexivity|].
    apply (bal_braces (lit "a:1") (lit ",y:2"));
      repeat (apply bal_plain; [reflexivity|]); apply bal_nil. }
  assert (Hp : received_part (lit "option = {x:{a:1}")
                 (assignment (lit " ") (lit " ")
                    (lbrace :: lit "x:{a:1},y:2" ++ [rbrace]))).
  { exists (lit ",y:2}"). split; [reflexivity|discriminate]. }
  exact (block_in_transit_is_null (ops := sample_ops) (lit " ") (lit " ")
           (lit "x:{a:1},y:2") (lit "option = {x:{a:1}") eq_refl eq_refl Hb Hp).
Defined.

(** A complete chart block followed by a semicolon. *)
Lemma complete_block_is_parsed_witness :
  CChart.parseChartData (ops := sample_ops) (lit "option = {type:'line'};")
  = JObj [(lit "type", JStr (lit "line"))].
Proof.
  assert (Hb : balanced (lit "type:'line'")).
  { do 5 (apply bal_plain; [reflexivity|]).
    apply (bal_string squote (lit "line") [] eq_refl); [|apply bal_nil].
    repeat (apply sb_char; [discriminate|discriminate|]). apply sb_nil. }
  assert (Hn : ~ In rbrace (lit ";")).
  { intros [H|[]]. discriminate. }
  destruct (complete_block_is_parsed (ops := sample_ops) (lit " ") (lit " ")
              (lit "type:'line'") (lit ";") eq_refl eq_refl Hb Hn) as [E _].
  etransitivity; [exact E|]. vm_compute. reflexivity.
Defined.

(** * The request headers *)

Lemma header_set_same (h : list (jsstr * jsstr)) (name v : jsstr) :
  Request.header name (Request.set_header h name v) = Some v.
Proof.
  induction h as [|[n v'] h IH]; cbn [Request.set_header Request.header].
  - rewrite str_eqb_refl. reflexivity.
  - destruct (str_eqb name n) eqn:E; cbn [Request.header]; rewrite E;
      [reflexivity|exact IH].
Qed.

Lemma header_set_other (h : list (jsstr * jsstr)) (name other v : jsstr) :
  str_eqb other name = false ->
  Request.header other (Request.set_header h name v) = Request.header other h.
Proof.
  intros Hne. induction h as [|[n v'] h IH]; cbn [Request.set_header Request.header].
  - rewrite Hne. reflexivity.
  - destruct (str_eqb name n) eqn:E; cbn [Request.header].
    + apply str_eqb_eq in E. subst n. rewrite Hne. reflexivity.
    + rewrite IH. reflexivity.
Qed.

Lemma header_assign (h : list (jsstr * jsstr)) (name other v : jsstr) :
  Request.header other (Request.assign h name v)
  = if str_eqb other name && negb (str_eqb name (lit "__proto__"))
    then Some v else Request.header other h.
Proof.
  unfold Request.assign.
  destruct (str_eqb name (lit "__proto__")) eqn:Ep.
  - rewrite andb_false_r. reflexivity.
  - rewrite andb_true_r. destruct (str_eqb other name) eqn:E.
    + apply str_eqb_eq in E. subst other. apply header_set_same.
    + apply header_set_other. exact E.
Qed.

Lemma all_bearer_set (h : list (jsstr * jsstr)) (name v : jsstr) :
  all_bearer h ->
  (same_name name (lit "Authorization") = true ->
   startsWith v (lit "Bearer ") = true) ->
  all_bearer (Request.set_header h name v).
Proof.
  unfold all_bearer. intros H Hv.
  induction h as [|[n v'] h IH]; cbn [Request.set_header].
  - repeat constructor. exact Hv.
  - inversion H as [|x l Hx Hh]; subst.
    destruct (str_eqb name n) eqn:E.
    + apply str_eqb_eq in E. subst n. constructor; [exact Hv|exact Hh].
    + constructor; [exact Hx|exact (IH Hh)].
Qed.

Lemma all_bearer_assign (h : list (jsstr * jsstr)) (name v : jsstr) :
  all_bearer h ->
  (same_name name (lit "Authorization") = true ->
   startsWith v (lit "Bearer ") = true) ->
  all_bearer (Request.assign h name v).
Proof.
  intros H Hv. unfold Request.assign.
  destruct (str_eqb name (lit "__proto__")); [exact H|].
  apply all_bearer_set; assumption.
Qed.

Lemma all_bearer_values (h : list (jsstr * jsstr)) :
  all_bearer h ->
  Forall (fun v => startsWith v (lit "Bearer ") = true)
         (values_of (lit "Authorization") h).
Proof.
  unfold all_bearer, values_of. intros H.
  induction H as [|[n v] h Hx _ IH]; cbn [filter map]; [constructor|].
  cbn [fst snd] in *.
  destruct (same_name n (lit "Authorization")); cbn [map snd];
    [constructor; [apply Hx; reflexivity|exact IH]|exact IH].
Qed.

Lemma set_header_in (h : list (jsstr * jsstr)) (name v : jsstr) :
  In (name, v) (Request.set_header h name v).
Proof.
  induction h as [|[n v'] h IH]; cbn [Request.set_header]; [left; reflexivity|].
  destruct (str_eqb name n) eqn:E.
  - apply str_eqb_eq in E. subst n. left. reflexivity.
  - right. exact IH.
Qed.

Lemma set_header_keeps (h : list (jsstr * jsstr)) (name v n w : jsstr) :
  n <> name -> In (n, w) h -> In (n, w) (Request.set_header h name v).
Proof.
  intros Hn. induction h as [|[n' v'] h IH]; cbn [Request.set_header In].
  - intros [].
  - destruct (str_eqb name n') eqn:E.
    + apply str_eqb_eq in E. subst n'.
      intros [[= <- <-]|H]; [congruence|right; exact H].
    + intros [H|H]; [left; exact H|right; exact (IH H)].
Qed.

(** X20.  Chatbot.vue, [callApiSSE], the [headers] object handed to [fetch]:
    its property spelled [Authorization], when there is one, begins with
    [Bearer ], whichever of the current token, the token property, the
    header name and the API key are set. A request does not tell the
    spellings of a header name apart, so what counts for it are all the
    properties named [Authorization] in some spelling. When the header name
    for the token is spelled [Authorization] or is another header
    altogether, each of them begins with [Bearer ]; but when it is
    [Authorization] in another spelling ([authorization], say), the property
    of that name holds the token as it is, without the prefix. *)
Theorem authorization_is_bearer (currentToken token : option jsstr)
  (tokenHeaderName : jsstr) (apiKey : option jsstr) :
  let hs := Request.headers currentToken token tokenHeaderName apiKey in
  (forall v, Request.header (lit "Authorization") hs = Some v ->
             startsWith v (lit "Bearer ") = true)
  /\ (tokenHeaderName = lit "Authorization"
      \/ same_name tokenHeaderName (lit "Authorization") = false ->
      Forall (fun v => startsWith v (lit "Bearer ") = true)
             (values_of (lit "Authorization") hs))
  /\ (same_name tokenHeaderName (lit "Authorization") = true ->
      tokenHeaderName <> lit "Authorization" ->
      forall c t, Request.or_string currentToken token = Some (c :: t) ->
                  In (c :: t) (values_of (lit "Authorization") hs)).
Proof.
  cbv zeta. unfold Request.headers. cbv zeta.
  set (h0 := [(lit "Content-Type", lit "application/json");
              (lit "Accept", lit "text/event-stream")]).
  set (h1 := match Request.or_string currentToken token with
             | Some (c :: t) =>
                 if str_eqb tokenHeaderName (lit "Authorization")
                    && negb (startsWith (c :: t) (lit "Bearer "))
                 then Request.assign h0 tokenHeaderName (Request.bearer (c :: t))
                 else Request.assign h0 tokenHeaderName (c :: t)
             | _ => h0
             end).
  split; [|split].
  - intros v.
    assert (forall u, Request.header (lit "Authorization") h1 = Some u ->
                      startsWith u (lit "Bearer ") = true) as H1.
    { intros u. unfold h1.
      destruct (Request.or_string currentToken token) as [[|c t]|];
        try discriminate.
      destruct (str_eqb tokenHeaderName (lit "Authorization")) eqn:En; cbn [andb].
      - apply str_eqb_eq in En. subst tokenHeaderName.
        destruct (startsWith (c :: t) (lit "Bearer ")) eqn:Eb; cbn [negb];
          rewrite header_assign; cbn [andb negb];
          change (str_eqb (lit "Authorization") (lit "Authorization")) with true;
          change (str_eqb (lit "Authorization") (lit "__proto__")) with false;
          cbn [andb negb]; intros [= <-].
        + exact Eb.
        + apply startsWith_app.
      - rewrite header_assign.
        assert (str_eqb (lit "Authorization") tokenHeaderName = false) as ->.
        { destruct (str_eqb (lit "Authorization") tokenHeaderName) eqn:E;
            [|reflexivity].
          apply str_eqb_eq in E. subst tokenHeaderName.
          rewrite str_eqb_refl in En. discriminate. }
        cbn [andb]. discriminate. }
    destruct apiKey as [[|c k]|]; try exact (H1 v).
    rewrite header_assign.
    change (str_eqb (lit "Authorization") (lit "Authorization")) with true.
    change (str_eqb (lit "Authorization") (lit "__proto__")) with false.
    cbn [andb negb]. intros [= <-]. apply startsWith_app.
  - intros Hname. apply all_bearer_values.
    assert (all_bearer h0) as H0.
    { repeat constructor; cbn [fst snd]; intros H; vm_compute in H;
        discriminate. }
    assert (all_bearer h1) as H1.
    { unfold h1.
      destruct (Request.or_string currentToken token) as [[|c t]|];
        try exact H0.
      destruct (str_eqb tokenHeaderName (lit "Authorization")) eqn:En; cbn [andb].
      - destruct (startsWith (c :: t) (lit "Bearer ")) eqn:Eb; cbn [negb];
          apply all_bearer_assign; try exact H0; intros _;
          [exact Eb|apply startsWith_app].
      - apply all_bearer_assign; [exact H0|]. intros Hs.
        destruct Hname as [->|Hf]; [|congruence].
        rewrite str_eqb_refl in En. discriminate. }
    destruct apiKey as [[|c k]|]; try exact H1.
    apply all_bearer_assign; [exact H1|]. intros _. apply startsWith_app.
  - intros Hs Hne c t Ht. unfold h1. rewrite Ht.
    assert (str_eqb tokenHeaderName (lit "Authorization") = false) as ->
      by (apply str_eqb_neq; exact Hne).
    cbn [andb].
    assert (str_eqb tokenHeaderName (lit "__proto__") = false) as Hp.
    { apply str_eqb_neq. intros ->. vm_compute in Hs. discriminate. }
    assert (In (tokenHeaderName, c :: t)
               (Request.assign h0 tokenHeaderName (c :: t))) as Hin.
    { unfold Request.assign. rewrite Hp. apply set_header_in. }
    assert (forall h, In (tokenHeaderName, c :: t) h ->
                      In (c :: t) (values_of (lit "Authorization") h)) as Hv.
    { intros h Hh. unfold values_of.
      apply (in_map snd _ (tokenHeaderName, c :: t)).
      apply filter_In. split; [exact Hh|exact Hs]. }
    apply Hv.
    destruct apiKey as [[|a k]|]; try exact Hin.
    unfold Request.assign at 1.
    change (str_eqb (lit "Authorization") (lit "__proto__")) with false.
    cbv iota. apply set_header_keeps; [exact Hne|exact Hin].
Qed.

(** A token for the [Authorization] header gets the prefix. *)
Lemma authorization_is_bearer_witness :
  Forall (fun v => startsWith v (lit "Bearer ") = true)
         (values_of (lit "Authorization")
            (Request.headers None (Some (lit "abc")) (lit "Authorization") None))
  /\ Request.header (lit "Authorization")
       (Request.headers None (Some (lit "abc")) (lit "Authorization") None)
     = Some (lit "Bearer abc").
Proof.
  destruct (authorization_is_bearer None (Some (lit "abc"))
              (lit "Authorization") None) as (_ & H & _).
  split; [exact (H (or_introl eq_refl))|reflexivity].
Defined.

(** A token for the header spelled [authorization] is stored bare, next to
    the API key when there is one. *)
Example lower_case_header_is_sent_bare :
  values_of (lit "Authorization")
    (Request.headers None (Some (lit "abc")) (lit "authorization") None)
  = [lit "abc"]
  /\ values_of (lit "Authorization")
       (Request.headers None (Some (lit "abc")) (lit "authorization")
                        (Some (lit "key")))
     = [lit "abc"; lit "Bearer key"]
  /\ startsWith (lit "abc") (lit "Bearer ") = false.
Proof. repeat split. Qed.

(** X21.  Chatbot.vue, [callApiSSE]: a non-empty API key decides the
    [Authorization] header, also when a token was given for that same
    header; the token is then not sent at all: the headers are
    [Content-Type], [Accept] and [Authorization], in this order, and no
    other. *)
Theorem apiKey_overrides_token (currentToken token : option jsstr)
  (c : char) (k : jsstr) :
  let hs := Request.headers currentToken token (lit "Authorization")
                            (Some (c :: k)) in
  Request.header (lit "Authorization") hs = Some (Request.bearer (c :: k))
  /\ length hs = 3
  /\ hs = [(lit "Content-Type", lit "application/json");
           (lit "Accept", lit "text/event-stream");
           (lit "Authorization", Request.bearer (c :: k))].
Proof.
  cbv zeta. unfold Request.headers. cbv zeta. split; [|split].
  - rewrite header_assign. reflexivity.
  - destruct (Request.or_string currentToken token) as [[|a t]|];
      try reflexivity.
    destruct (negb (startsWith (a :: t) (lit "Bearer ")));
      cbn [andb]; reflexivity.
  - destruct (Request.or_string currentToken token) as [[|a t]|];
      try reflexivity.
    destruct (negb (startsWith (a :: t) (lit "Bearer ")));
      cbn [andb]; reflexivity.
Qed.

(** * The ECharts option *)

Lemma map_throwing_none (A B : Type) (f : A -> option B) (l : list A) :
  EChartsOption.map_throwing f l = None <-> exists x, In x l /\ f x = None.
Proof.
  induction l as [|x l IH]; cbn [EChartsOption.map_throwing].
  - split; [discriminate|intros (x & [] & _)].
  - destruct (f x) as [y|] eqn:E.
    + destruct (EChartsOption.map_throwing f l) as [r|].
      * split; [discriminate|]. intros (z & [<-|Hz] & Hf); [congruence|].
        assert (Some r = None) as Hr
          by (apply (proj2 IH); exists z; split; assumption).
        discriminate Hr.
      * split; [|reflexivity]. intros _.
        destruct (proj1 IH eq_refl) as (z & Hz & Hf).
        exists z. split; [right; exact Hz|exact Hf].
    + split; [|reflexivity]. intros _. exists x. split; [left; reflexivity|exact E].
Qed.

Lemma map_throwing_some (A B : Type) (f : A -> option B) (l : list A) (r : list B) :
  EChartsOption.map_throwing f l = Some r ->
  length r = length l
  /\ forall y, In y r -> exists x, In x l /\ f x = Some y.
Proof.
  revert r. induction l as [|x l IH]; intros r; cbn [EChartsOption.map_throwing].
  - intros [= <-]. split; [reflexivity|intros y []].
  - destruct (f x) as [y|] eqn:E; [|discriminate].
    destruct (EChartsOption.map_throwing f l) as [r'|]; [|discriminate].
    intros [= <-]. destruct (IH r' eq_refl) as [Hl Hin]. split.
    + cbn [length]. rewrite Hl. reflexivity.
    + intros z [<-|Hz].
      * exists x. split; [left; reflexivity|exact E].
      * destruct (Hin z Hz) as (x' & Hx' & Hf). exists x'.
        split; [right; exact Hx'|exact Hf].
Qed.

Lemma get_field_none (item : json) (name : jsstr) :
  get_field item name = None <-> item = JNull.
Proof.
  destruct item; cbn [get_field]; split; congruence.
Qed.

Lemma is_str_eq (c : json) (w : string) :
  is_str (Some c) w = true -> c = JStr (lit w).
Proof.
  destruct c; cbn [is_str]; try discriminate.
  intros H. apply str_eqb_eq in H. subst. reflexivity.
Qed.

Section Charts.
Context {ops : NumberOps} {rel : RelationalOps}.

Lemma has_length_none (v : json) :
  has_length v = None <-> length_unconvertible v.
Proof.
  unfold length_unconvertible. split.
  - destruct v as [| | | | |ps]; cbn [has_length]; try discriminate.
    destruct (lookup (lit "length") ps) as [len|] eqn:El; [|discriminate].
    destruct (to_string len) eqn:Et; [discriminate|].
    intros _. exists ps, len. repeat split; assumption.
  - intros (ps & len & -> & El & Et). cbn [has_length]. rewrite El, Et.
    reflexivity.
Qed.

(** The callback of the series throws on [null], and on a pie entry with
    an array for data when the comparison of the labels' length does. *)
Lemma series_of_none (chartType xAxisData item : json) :
  EChartsOption.series_of chartType xAxisData item = None
  <-> item = JNull
      \/ (chartType = EChartsOption.str "pie"
          /\ length_unconvertible xAxisData /\ has_values item).
Proof.
  rewrite <- has_length_none. unfold has_values, EChartsOption.series_of.
  destruct (get_field item (lit "name")) as [name|] eqn:En.
  2:{ apply get_field_none in En. subst item.
      split; [left; reflexivity|reflexivity]. }
  destruct (get_field item (lit "data")) as [data|] eqn:Ed.
  2:{ apply get_field_none in Ed. subst item. discriminate En. }
  assert (item <> JNull) as Hn by (intros ->; discriminate En).
  assert (opt_field (Some item) (lit "data") = data) as ->.
  { destruct item; cbn [opt_field]; try congruence; rewrite Ed; reflexivity. }
  cbv zeta.
  destruct (is_str (Some chartType) "line") eqn:E1.
  { split; [discriminate|].
    intros [H|(-> & _)]; [contradiction|vm_compute in E1; discriminate]. }
  destruct (is_str (Some chartType) "bar") eqn:E2.
  { split; [discriminate|].
    intros [H|(-> & _)]; [contradiction|vm_compute in E2; discriminate]. }
  destruct (is_str (Some chartType) "pie") eqn:E3.
  { pose proof (is_str_eq _ _ E3) as Ec.
    destruct data as [[| | | |values|]|];
      try (split; [discriminate|];
           intros [H|(_ & _ & values' & Hv)]; [contradiction|discriminate]).
    destruct (has_length xAxisData) as [[|]|] eqn:Eh.
    - split; [discriminate|].
      intros [H|(_ & Hh & _)]; [contradiction|discriminate].
    - split; [discriminate|].
      intros [H|(_ & Hh & _)]; [contradiction|discriminate].
    - split; [|reflexivity]. intros _. right.
      split; [exact Ec|]. split; [reflexivity|]. exists values. reflexivity. }
  destruct (is_str (Some chartType) "scatter") eqn:E4.
  { split; [discriminate|].
    intros [H|(-> & _)]; [contradiction|vm_compute in E3; discriminate]. }
  split; [discriminate|].
  intros [H|(-> & _)]; [contradiction|vm_compute in E3; discriminate].
Qed.

Lemma legend_of_none (item : json) :
  EChartsOption.legend_of item = None <-> item = JNull.
Proof.
  unfold EChartsOption.legend_of.
  destruct item; cbn [get_field]; split; congruence.
Qed.

Lemma map_data_none (f : json -> option json) (seriesData : json) :
  EChartsOption.map_data f seriesData = None
  <-> (forall items, seriesData <> JArr items)
      \/ exists items,
           seriesData = JArr items /\ exists item, In item items /\ f item = None.
Proof.
  unfold EChartsOption.map_data.
  destruct seriesData as [| | | |items|];
    try (split; [intros _; left; intros items; discriminate|reflexivity]).
  rewrite map_throwing_none. split.
  - intros H. right. exists items. split; [reflexivity|exact H].
  - intros [H|(items' & [= <-] & H)]; [elim (H items); reflexivity|exact H].
Qed.

(** The conversion on a configuration that is not [null]. *)
Lemma convert_cases (config : json) :
  config <> JNull ->
  (EChartsOption.convertToEChartsOption config = None
   /\ (EChartsOption.map_data
         (EChartsOption.series_of (chart_type config) (x_axis_data config))
         (series_data config) = None
       \/ EChartsOption.map_data EChartsOption.legend_of (series_data config) = None))
  \/ exists series names props,
       EChartsOption.map_data
         (EChartsOption.series_of (chart_type config) (x_axis_data config))
         (series_data config) = Some series
       /\ EChartsOption.map_data EChartsOption.legend_of (series_data config)
          = Some names
       /\ EChartsOption.convertToEChartsOption config = Some (JObj props)
       /\ lookup (lit "series") props = Some (JArr series).
Proof.
  intros Hn. unfold EChartsOption.convertToEChartsOption.
  destruct config as [| | | | |]; [congruence| | | | |]; cbv zeta.
  all: match goal with
       | |- context [EChartsOption.or_json (opt_field (Some ?c) (lit "type")) _] =>
           fold (chart_type c); fold (series_data c); fold (x_axis_data c)
       end.
  all: match goal with
       | |- context [EChartsOption.map_data (EChartsOption.series_of ?c ?x) ?d] =>
           destruct (EChartsOption.map_data (EChartsOption.series_of c x) d)
             as [series|] eqn:Es
       end; [|left; split; [reflexivity|left; reflexivity]].
  all: match goal with
       | |- context [EChartsOption.map_data EChartsOption.legend_of ?d] =>
           destruct (EChartsOption.map_data EChartsOption.legend_of d)
             as [names|] eqn:El
       end; [|left; split; [reflexivity|right; reflexivity]].
  all: right; exists series, names.
  all: match goal with
       | |- context [is_str (Some ?c) "pie"] => destruct (is_str (Some c) "pie")
       end.
  all: eexists; split; [reflexivity|]; split; [reflexivity|].
  all: split; reflexivity.
Qed.

Lemma series_of_type (chartType xAxisData item s : json) :
  EChartsOption.series_of chartType xAxisData item = Some s ->
  opt_field (Some s) (lit "type") = Some chartType.
Proof.
  unfold EChartsOption.series_of.
  destruct (get_field item (lit "name")) as [name|]; [|discriminate].
  destruct (get_field item (lit "data")) as [data|]; [|discriminate].
  cbv zeta.
  destruct (is_str (Some chartType) "line") eqn:E1;
    [rewrite (is_str_eq _ _ E1); intros [= <-]; reflexivity|].
  destruct (is_str (Some chartType) "bar") eqn:E2;
    [rewrite (is_str_eq _ _ E2); intros [= <-]; reflexivity|].
  destruct (is_str (Some chartType) "pie") eqn:E3.
  { rewrite (is_str_eq _ _ E3).
    destruct data as [[| | | |values|]|]; try (intros [= <-]; reflexivity).
    destruct (has_length xAxisData) as [[|]|];
      [intros [= <-]; reflexivity|intros [= <-]; reflexivity|discriminate]. }
  destruct (is_str (Some chartType) "scatter") eqn:E4;
    [rewrite (is_str_eq _ _ E4); intros [= <-]; reflexivity|].
  destruct chartType; intros [= <-]; reflexivity.
Qed.

(** X22.  CChart.vue, [convertToEChartsOption]: the conversion throws
    exactly when the configuration is [null], or its [data] is truthy
    without being an array, or the [data] array has a [null] entry, or the
    chart is a pie, an entry of the [data] array has an array for its own
    [data], and the labels of the x axis are an object whose [length] cannot
    be made a primitive for the comparison with zero (it holds an object
    with a [toString] entry of its own, or an array with such an object in
    it). In every other case an option is returned, whatever the type, the
    axes and the entries are. *)
Theorem convert_throws_iff (config : json) :
  EChartsOption.convertToEChartsOption config = None
  <-> config = JNull
      \/ (forall items, series_data config <> JArr items)
      \/ exists items,
           series_data config = JArr items
           /\ (In JNull items
               \/ (chart_type config = EChartsOption.str "pie"
                   /\ length_unconvertible (x_axis_data config)
                   /\ exists item, In item items /\ has_values item)).
Proof.
  assert (config = JNull \/ config <> JNull) as [->|Hn]
    by (destruct config; (left; reflexivity) || (right; discriminate)).
  { split; [left; reflexivity|reflexivity]. }
  pose proof (map_data_none
                (EChartsOption.series_of (chart_type config) (x_axis_data config))
                (series_data config)) as Hs.
  pose proof (map_data_none EChartsOption.legend_of (series_data config)) as Hl.
  destruct (convert_cases config Hn)
    as [[E [H|H]]|(series & names & props & Es & El & E & _)].
  - split; [intros _; right|intros _; exact E].
    apply Hs in H as [H|(items & Hd & item & Hin & Hf)]; [left; exact H|].
    right. exists items. split; [exact Hd|].
    apply series_of_none in Hf as [->|(Hc & Hu & Hv)]; [left; exact Hin|].
    right. split; [exact Hc|]. split; [exact Hu|]. exists item.
    split; assumption.
  - split; [intros _; right|intros _; exact E].
    apply Hl in H as [H|(items & Hd & item & Hin & Hf)]; [left; exact H|].
    right. exists items. split; [exact Hd|].
    apply legend_of_none in Hf as ->. left. exact Hin.
  - rewrite E. split; [discriminate|].
    intros [H|H]; [contradiction|].
    assert (EChartsOption.map_data
              (EChartsOption.series_of (chart_type config) (x_axis_data config))
              (series_data config) = None) as C; [|rewrite Es in C; discriminate].
    apply Hs.
    destruct H as [H|(items & Hd & [Hin|(Hc & Hu & item & Hin & Hv)])];
      [left; exact H| |].
    + right. exists items. split; [exact Hd|]. exists JNull.
      split; [exact Hin|]. apply series_of_none. left. reflexivity.
    + right. exists items. split; [exact Hd|]. exists item.
      split; [exact Hin|]. apply series_of_none. right.
      split; [exact Hc|]. split; assumption.
Qed.

(** X23.  CChart.vue, [convertToEChartsOption]: when the conversion returns,
    the option has one series per entry of the configuration's [data], and
    every series carries the chart type of the configuration ([line] when
    none is given). *)
Theorem series_follow_data (config option : json) :
  EChartsOption.convertToEChartsOption config = Some option ->
  exists props items series,
    option = JObj props
    /\ series_data config = JArr items
    /\ lookup (lit "series") props = Some (JArr series)
    /\ length series = length items
    /\ Forall (fun s => opt_field (Some s) (lit "type") = Some (chart_type config))
              series.
Proof.
  intros H.
  assert (config <> JNull) as Hn by (intros ->; discriminate H).
  destruct (convert_cases config Hn)
    as [[E _]|(series & names & props & Es & _ & E & Hlook)];
    [congruence|].
  rewrite E in H. injection H as <-.
  unfold EChartsOption.map_data in Es.
  destruct (series_data config) as [| | | |items|]; try discriminate.
  destruct (map_throwing_some _ _ _ _ _ Es) as [Hlen Hin].
  exists props, items, series. repeat split; try assumption; try reflexivity.
  apply Forall_forall. intros s Hs.
  destruct (Hin s Hs) as (item & _ & Hitem).
  exact (series_of_type _ _ _ _ Hitem).
Qed.

End Charts.

(** A [data] array with a [null] entry makes the conversion throw. *)
Lemma convert_throws_iff_witness :
  EChartsOption.convertToEChartsOption (ops := sample_ops) (rel := sample_rel)
    chart_config_with_null = None.
Proof.
  apply (proj2 (convert_throws_iff (ops := sample_ops) (rel := sample_rel)
                  chart_config_with_null)).
  right. right. exists [JNull]. split; [reflexivity|left; left; reflexivity].
Defined.

(** A pie whose labels have an object with a [toString] entry for length:
    the comparison throws, and the conversion with it. *)
Example pie_labels_length_throws :
  EChartsOption.convertToEChartsOption (ops := sample_ops) (rel := sample_rel)
    pie_config_with_odd_labels = None
  /\ has_length (ops := sample_ops) (rel := sample_rel)
       (x_axis_data (ops := sample_ops) pie_config_with_odd_labels) = None.
Proof. split; vm_compute; reflexivity. Qed.

(** The line chart of the example document: one series, of type [line]. *)
Lemma series_follow_data_witness :
  exists props series,
    EChartsOption.convertToEChartsOption (ops := sample_ops) (rel := sample_rel)
      line_chart_config = Some (JObj props)
    /\ lookup (lit "series") props = Some (JArr series)
    /\ length series = 1.
Proof.
  destruct (EChartsOption.convertToEChartsOption (ops := sample_ops)
              (rel := sample_rel) line_chart_config) as [option|] eqn:E;
    [|vm_compute in E; discriminate].
  destruct (series_follow_data (ops := sample_ops) (rel := sample_rel)
              line_chart_config option E)
    as (props & items & series & -> & Hd & Hl & Hn & _).
  exists props, series. split; [reflexivity|]. split; [exact Hl|].
  rewrite Hn. vm_compute in Hd. injection Hd as <-. reflexivity.
Defined.

(** * The conversations *)

Lemma trim_idem (s : jsstr) : trim (trim s) = trim s.
Proof.
  destruct (trim s) as [|c t] eqn:E; [reflexivity|].
  pose proof (trim_head s c t E) as Hc.
  destruct t as [|d t] using rev_ind.
  - apply trim_single. exact Hc.
  - apply trim_tight; [exact Hc|].
    apply (trimEnd_last (trimStart s) (c :: t) d). exact E.
Qed.

Lemma find_update_found (i : jsstr)
  (f : Conversations.Conversation -> Conversations.Conversation)
  (l : list Conversations.Conversation) :
  (forall c, Conversations.id (f c) = Conversations.id c) ->
  find (fun c => str_eqb (Conversations.id c) i) (Conversations.update_found i f l)
  = option_map f (find (fun c => str_eqb (Conversations.id c) i) l).
Proof.
  intros Hf. induction l as [|c l IH]; [reflexivity|].
  cbn [Conversations.update_found find].
  destruct (str_eqb (Conversations.id c) i) eqn:E; cbn [find].
  - rewrite Hf, E. reflexivity.
  - rewrite E. exact IH.
Qed.

Lemma ids_update_found (i : jsstr)
  (f : Conversations.Conversation -> Conversations.Conversation)
  (l : list Conversations.Conversation) :
  (forall c, Conversations.id (f c) = Conversations.id c) ->
  map Conversations.id (Conversations.update_found i f l)
  = map Conversations.id l.
Proof.
  intros Hf. induction l as [|c l IH]; [reflexivity|].
  cbn [Conversations.update_found].
  destruct (str_eqb (Conversations.id c) i); cbn [map].
  - rewrite Hf. reflexivity.
  - rewrite IH. reflexivity.
Qed.

Section Reloading.
Context {ops : NumberOps}.

Lemma reloaded_id (r : Conversations.response) (c : Conversations.Conversation) :
  Conversations.id (reloaded r c) = Conversations.id c.
Proof. destruct r; reflexivity. Qed.

(** Loading the messages of the first conversation changes that one. *)
Lemma load_first (r : Conversations.response) (c0 : Conversations.Conversation)
  (l : list Conversations.Conversation) (cur : option jsstr) :
  Conversations.id c0 <> [] ->
  Conversations.loadConversationMessages (Conversations.id c0) r
    (Conversations.mkStore (c0 :: l) cur)
  = Conversations.mkStore (reloaded r c0 :: l) cur.
Proof.
  intros Hn. unfold Conversations.loadConversationMessages.
  destruct (Conversations.id c0) as [|x y] eqn:E0; [congruence|].
  destruct r;
    cbn [reloaded Conversations.conversations Conversations.currentConversationId
         Conversations.update_found];
    rewrite ?E0, ?str_eqb_refl; reflexivity.
Qed.

(** X24.  App.vue, [deleteConversation]: deleting by a non-empty id removes
    every conversation with that id and no other and keeps the order of the
    rest, and it never leaves the current id on the deleted conversation:
    when the current id named a conversation of the list before (or was
    unset), it does so afterwards. When the deleted conversation was not the
    current one, the rest and the current id are untouched. When it was, the
    first conversation left becomes the current one and its messages are
    loaded again: they are replaced by what the backend returns for it (by
    none when the answer has no array of messages, and kept when the request
    fails); every other conversation is as it was. *)
Theorem deleteConversation_keeps_current_valid (i : jsstr)
  (r : Conversations.response) (s : Conversations.store) :
  i <> [] -> current_exists s ->
  let rest := without i (Conversations.conversations s) in
  let s' := Conversations.deleteConversation i r s in
  map Conversations.id (Conversations.conversations s')
  = map Conversations.id rest
  /\ (forall c, In c (Conversations.conversations s') -> Conversations.id c <> i)
  /\ Conversations.currentConversationId s' <> Some i
  /\ current_exists s'
  /\ (Conversations.currentConversationId s <> Some i ->
      s' = Conversations.mkStore rest (Conversations.currentConversationId s))
  /\ (Conversations.currentConversationId s = Some i ->
      forall c0 others, rest = c0 :: others -> Conversations.id c0 <> [] ->
        s' = Conversations.mkStore (reloaded r c0 :: others)
                                   (Some (Conversations.id c0)))
  /\ (Conversations.currentConversationId s = Some i -> rest = [] ->
      s' = Conversations.mkStore [] None).
Proof.
  intros Hi Hv. cbv zeta. unfold Conversations.deleteConversation, without.
  destruct i as [|a i]; [congruence|]. cbv zeta.
  set (rest := filter (fun c => negb (str_eqb (Conversations.id c) (a :: i)))
                      (Conversations.conversations s)).
  assert (forall c, In c rest -> Conversations.id c <> a :: i) as Hrest.
  { intros c Hc. apply filter_In in Hc as [_ Hc].
    apply negb_true_iff, str_eqb_neq in Hc. exact Hc. }
  unfold current_exists in *.
  destruct (Conversations.currentConversationId s) as [cur|] eqn:Ecur.
  - destruct (str_eqb cur (a :: i)) eqn:E.
    + apply str_eqb_eq in E. subst cur.
      destruct rest as [|c0 rest'] eqn:Er.
      * cbn. repeat split; try assumption; try discriminate.
        intros H. elim H. reflexivity.
      * destruct (Conversations.id c0) as [|x y] eqn:E0.
        -- cbn. repeat split; try assumption; try discriminate.
           ++ intros H. elim H. reflexivity.
           ++ intros _ c1 others [= <- <-] Hne. congruence.
        -- rewrite <- E0.
           rewrite (load_first r c0 rest' (Some (Conversations.id c0)))
             by congruence.
           cbn [Conversations.conversations Conversations.currentConversationId
                map].
           rewrite reloaded_id.
           repeat split; try discriminate.
           ++ intros c [<-|Hc].
              ** rewrite reloaded_id. apply Hrest. left. reflexivity.
              ** apply Hrest. right. exact Hc.
           ++ intros H. apply (Hrest c0 (or_introl eq_refl)). congruence.
           ++ exists (reloaded r c0). split; [left; reflexivity|].
              apply reloaded_id.
           ++ intros H. elim H. reflexivity.
           ++ intros _ c1 others [= <- <-] _. reflexivity.
    + cbn. apply str_eqb_neq in E.
      repeat split; try assumption.
      * intros H. apply E. congruence.
      * destruct Hv as (c & Hc & Hid). exists c. split; [|exact Hid].
        apply filter_In. split; [exact Hc|].
        apply negb_true_iff, str_eqb_neq. rewrite Hid. exact E.
      * intros H. elim E. congruence.
      * intros H. elim E. congruence.
  - cbn. repeat split; try assumption; discriminate.
Qed.

End Reloading.

Lemma update_found_split (i : jsstr)
  (f : Conversations.Conversation -> Conversations.Conversation)
  (l : list Conversations.Conversation) (c : Conversations.Conversation) :
  find (fun c => str_eqb (Conversations.id c) i) l = Some c ->
  exists pre post,
    l = pre ++ c :: post
    /\ Conversations.update_found i f l = pre ++ f c :: post.
Proof.
  induction l as [|x l IH]; cbn [find Conversations.update_found]; [discriminate|].
  destruct (str_eqb (Conversations.id x) i).
  - intros [= ->]. exists [], l. split; reflexivity.
  - intros H. destruct (IH H) as (pre & post & -> & E).
    exists (x :: pre), post. rewrite E. split; reflexivity.
Qed.

Lemma conversation_to_send_in_cases (fresh : jsstr * jsstr)
  (s : Conversations.store) :
  Conversations.conversation_to_send_in fresh s
  = match Conversations.currentConversationId s with
    | Some (_ :: _) => s
    | _ => Conversations.mkStore (created fresh :: Conversations.conversations s)
                                 (Some (fst fresh))
    end.
Proof.
  unfold Conversations.conversation_to_send_in, Conversations.createNewConversation,
    created.
  destruct fresh as [conversationId title].
  destruct (Conversations.currentConversationId s) as [[|a i]|]; reflexivity.
Qed.

(** X25.  App.vue, [sendMessage]: a send goes to the current conversation,
    and when no conversation is current one is created first, put in front
    of the list and made current. When the send starts, the user message is
    appended to that conversation and to no other; the list of conversations
    keeps its ids and the current id stays. The title is replaced only by
    the first message of a conversation, by its first 30 code units followed
    by [...] when it is longer, so a title set this way has at most 33 code
    units. A conversation created for the send therefore holds this one
    message and has its title from it. *)
Theorem sendMessage_appends_user_message (message : jsstr)
  (fresh : jsstr * jsstr) (s s' : Conversations.store) :
  Conversations.sendMessage message fresh s = Conversations.Started s' ->
  let s0 := Conversations.conversation_to_send_in fresh s in
  s0 = match Conversations.currentConversationId s with
       | Some (_ :: _) => s
       | _ => Conversations.mkStore
                (created fresh :: Conversations.conversations s)
                (Some (fst fresh))
       end
  /\ Conversations.currentConversationId s'
     = Conversations.currentConversationId s0
  /\ map Conversations.id (Conversations.conversations s')
     = map Conversations.id (Conversations.conversations s0)
  /\ (exists pre c c' post,
        Conversations.conversations s0 = pre ++ c :: post
        /\ Conversations.conversations s' = pre ++ c' :: post
        /\ Conversations.currentConversation s0 = Some c)
  /\ Conversations.currentMessages s'
     = Conversations.currentMessages s0 ++ [Conversations.userMessage message]
  /\ option_map Conversations.title (Conversations.currentConversation s')
     = (if length (Conversations.currentMessages s0) =? 0
        then Some (Conversations.title_of message)
        else option_map Conversations.title (Conversations.currentConversation s0))
  /\ length (Conversations.title_of message) <= 33
  /\ (Conversations.currentConversationId s = None
      \/ Conversations.currentConversationId s = Some [] ->
      s' = Conversations.mkStore
             (Conversations.mkConversation (fst fresh)
                (Conversations.title_of message)
                [Conversations.userMessage message] 1
              :: Conversations.conversations s)
             (Some (fst fresh))).
Proof.
  unfold Conversations.sendMessage.
  destruct (trim message) as [|c t]; [discriminate|].
  cbv zeta. intros H.
  split; [apply conversation_to_send_in_cases|].
  pose proof (conversation_to_send_in_cases fresh s) as Hs0.
  set (s0 := Conversations.conversation_to_send_in fresh s) in *.
  destruct (Conversations.currentConversationId s0) as [[|a i]|] eqn:Ecur;
    try discriminate.
  destruct (Conversations.currentConversation s0) as [conv|] eqn:Ec;
    [|discriminate].
  injection H as H.
  set (f := fun c0 : Conversations.Conversation =>
              Conversations.mkConversation (Conversations.id c0)
                (if length (Conversations.messages c0
                            ++ [Conversations.userMessage message]) =? 1
                 then Conversations.title_of message
                 else Conversations.title c0)
                (Conversations.messages c0 ++ [Conversations.userMessage message])
                (S (Conversations.message_count c0))) in *.
  assert (forall c0, Conversations.id (f c0) = Conversations.id c0) as Hf
    by reflexivity.
  assert (s' = Conversations.mkStore
                 (Conversations.update_found (a :: i) f
                    (Conversations.conversations s0))
                 (Some (a :: i))) as ->.
  { rewrite <- H. unfold Conversations.update_current. rewrite Ecur.
    reflexivity. }
  clear H.
  assert (find (fun c0 => str_eqb (Conversations.id c0) (a :: i))
               (Conversations.conversations s0) = Some conv) as Efind.
  { unfold Conversations.currentConversation in Ec. rewrite Ecur in Ec.
    exact Ec. }
  unfold Conversations.currentMessages.
  assert (Conversations.currentConversation
            (Conversations.mkStore
               (Conversations.update_found (a :: i) f
                  (Conversations.conversations s0))
               (Some (a :: i)))
          = Some (f conv)) as Ec'.
  { unfold Conversations.currentConversation.
    cbn [Conversations.currentConversationId Conversations.conversations].
    rewrite (find_update_found (a :: i) f _ Hf), Efind. reflexivity. }
  rewrite Ec', Ec.
  cbn [Conversations.currentConversationId Conversations.conversations
       option_map].
  split; [reflexivity|].
  split; [exact (ids_update_found (a :: i) f _ Hf)|].
  split.
  { destruct (update_found_split (a :: i) f _ conv Efind)
      as (pre & post & E1 & E2).
    exists pre, conv, (f conv), post. repeat split; assumption. }
  split; [reflexivity|]. split.
  { unfold f. cbn [Conversations.title]. rewrite length_app. cbn [length].
    destruct (Conversations.messages conv) as [|m0 ms]; [reflexivity|].
    cbn [length]. replace (S (length ms) + 1 =? 1) with false; [reflexivity|].
    symmetry. apply Nat.eqb_neq. lia. }
  split.
  { unfold Conversations.title_of. rewrite length_app, length_firstn.
    destruct (30 <? length message);
      [change (length (lit "...")) with 3|cbn [length]]; lia. }
  intros Hnone.
  assert (s0 = Conversations.mkStore
                 (created fresh :: Conversations.conversations s)
                 (Some (fst fresh))) as E0.
  { rewrite Hs0. destruct Hnone as [-> | ->]; reflexivity. }
  rewrite E0 in Ecur. cbn [Conversations.currentConversationId] in Ecur.
  injection Ecur as Ecur.
  rewrite E0. cbn [Conversations.conversations Conversations.update_found].
  unfold created at 1. cbn [Conversations.id].
  rewrite Ecur, str_eqb_refl. unfold f, created.
  cbn [Conversations.id Conversations.title Conversations.messages
       Conversations.message_count app length Nat.eqb].
  rewrite Ecur. reflexivity.
Qed.

(** X26.  ConversationArea.vue and App.vue: what the input area emits is the
    trimmed input, so it has no white space around it and [sendMessage] of
    App.vue never drops it as blank. *)
Theorem emitted_message_is_sent (inputMessage : jsstr) (isLoading : bool)
  (message : jsstr) (fresh : jsstr * jsstr) (s : Conversations.store) :
  ConversationArea.sendMessage inputMessage isLoading = Some message ->
  message = trim inputMessage
  /\ trim message = message
  /\ Conversations.sendMessage message fresh s <> Conversations.Ignored.
Proof.
  unfold ConversationArea.sendMessage.
  destruct (trim inputMessage) as [|c t] eqn:E; [discriminate|].
  destruct isLoading; [discriminate|]. intros [= <-].
  pose proof (trim_idem inputMessage) as Hi. rewrite E in Hi.
  repeat split; [exact Hi|].
  unfold Conversations.sendMessage. rewrite Hi. cbv zeta.
  destruct (Conversations.currentConversationId
              (Conversations.conversation_to_send_in fresh s)) as [[|a i]|];
    try discriminate.
  destruct (Conversations.currentConversation
              (Conversations.conversation_to_send_in fresh s)); discriminate.
Qed.

(** Deleting the current conversation selects the one that is left and
    loads its messages. *)
Lemma deleteConversation_keeps_current_valid_witness :
  Conversations.currentConversationId
    (Conversations.deleteConversation (ops := sample_ops) (lit "7")
       one_loaded_message two_conversations)
  <> Some (lit "7")
  /\ current_exists
       (Conversations.deleteConversation (ops := sample_ops) (lit "7")
          one_loaded_message two_conversations)
  /\ Conversations.currentMessages
       (Conversations.deleteConversation (ops := sample_ops) (lit "7")
          one_loaded_message two_conversations)
     = [mkMessage Assistant (JStr (lit "earlier")) None (Some false) None None].
Proof.
  assert (Hv : current_exists two_conversations).
  { eexists. split; [left; reflexivity|reflexivity]. }
  destruct (deleteConversation_keeps_current_valid (ops := sample_ops)
              (lit "7") one_loaded_message two_conversations
              ltac:(discriminate) Hv) as (_ & _ & H1 & H2 & _ & H3 & _).
  split; [exact H1|]. split; [exact H2|].
  rewrite (H3 eq_refl _ _ eq_refl ltac:(discriminate)). reflexivity.
Defined.

(** The first message of a conversation gives it its title. *)
Lemma sendMessage_appends_user_message_witness :
  exists s',
    Conversations.sendMessage (lit "hello") (lit "local-2", lit "new")
                              two_conversations
    = Conversations.Started s'
    /\ Conversations.currentMessages s'
       = [Conversations.userMessage (lit "hello")]
    /\ Conversations.currentConversationTitle s' = lit "hello".
Proof.
  eexists. split; [reflexivity|].
  match goal with
  | |- Conversations.currentMessages ?s' = _ /\ _ =>
      destruct (sendMessage_appends_user_message (lit "hello")
                  (lit "local-2", lit "new") two_conversations
                  s' eq_refl) as (_ & _ & _ & _ & Hm & _)
  end.
  split; [exact Hm|reflexivity].
Defined.

(** Without a current conversation the send makes one and goes there. *)
Example sendMessage_creates_conversation :
  Conversations.sendMessage (lit "hello") (lit "local-2", lit "new")
                            none_current
  = Conversations.Started
      (Conversations.mkStore
         (Conversations.mkConversation (lit "local-2") (lit "hello")
            [Conversations.userMessage (lit "hello")] 1
          :: Conversations.conversations two_conversations)
         (Some (lit "local-2"))).
Proof. reflexivity. Qed.

Lemma emitted_message_is_sent_witness :
  trim (lit "hello") = lit "hello"
  /\ Conversations.sendMessage (lit "hello") (lit "local-2", lit "new")
                               two_conversations
     <> Conversations.Ignored.
Proof.
  destruct (emitted_message_is_sent (lit " hello ") false (lit "hello")
              (lit "local-2", lit "new") two_conversations eq_refl)
    as (_ & H1 & H2).
  split; [exact H1|exact H2].
Defined.
